(** * gnucashxml: the XML loader of a GnuCash book, embedded in Rocq

    The development follows [gnucashxml.py]: the fraction parser
    [_parse_number] on top of a model of Python's [decimal] arithmetic
    (default context: 28 significant digits, round-half-even), the slot
    parser [_slots_from_tree], the builders of [_book_from_tree] threading
    an explicit object store, and the methods [Account.fullname] and
    [Account.walk].

    Python strings are modelled as [string] (sequences of 8-bit characters;
    a character above 127 is neither a digit nor white space), Python's
    [None] as [None] of an option type, exceptions as the error side of
    [result]. *)

From Stdlib Require Import ZArith Lia List String Ascii Bool.
From stdpp Require Import base option list strings.

Set Default Proof Using "Type".

(** ** Exceptions and results *)

Inductive exn : Set :=
| AttributeError
| TypeError
| ValueError
| KeyError
| RuntimeError
| RecursionError
| InvalidOperation
| DivisionByZero
| Overflow.

Inductive result (A : Type) : Type :=
| Ok (a : A)
| Raise (e : exn).
Arguments Ok {A} a.
Arguments Raise {A} e.

#[global] Instance result_ret : MRet result := @Ok.
#[global] Instance result_bind : MBind result := fun A B f m =>
  match m with
  | Ok a => f a
  | Raise e => Raise e
  end.

#[global] Instance result_fmap : FMap result := fun A B f m =>
  match m with
  | Ok a => Ok (f a)
  | Raise e => Raise e
  end.

Definition is_Ok {A} (r : result A) : bool :=
  match r with Ok _ => true | Raise _ => false end.

#[global] Instance exn_eq_dec : EqDecision exn.
Proof. solve_decision. Defined.

(** ** Characters and digit strings *)

Definition code (c : ascii) : Z := Z.of_N (N_of_ascii c).

Definition is_digit (c : ascii) : bool := ((48 <=? code c) && (code c <=? 57))%Z.

Definition digit_val (c : ascii) : Z := (code c - 48)%Z.

Definition digit_char (d : Z) : ascii := ascii_of_N (Z.to_N (48 + d)).

(** [str.isspace] on the ASCII range (see [is_ascii]): the characters
    [strip], [int] and [Decimal] take for white space there. *)
Definition is_space (c : ascii) : bool :=
  (((9 <=? code c) && (code c <=? 13)) || ((28 <=? code c) && (code c <=? 32)))%Z.

Definition to_lower (c : ascii) : ascii :=
  if ((65 <=? code c) && (code c <=? 90))%Z then ascii_of_N (Z.to_N (code c + 32)) else c.

Fixpoint lstrip (l : list ascii) : list ascii :=
  match l with
  | c :: r => if is_space c then lstrip r else l
  | [] => []
  end.

(** [str.strip()] *)
Definition strip (l : list ascii) : list ascii := rev (lstrip (rev (lstrip l))).

Fixpoint span_digits (l : list ascii) : list ascii * list ascii :=
  match l with
  | c :: r => if is_digit c then let '(ds, rest) := span_digits r in (c :: ds, rest)
              else ([], l)
  | [] => ([], [])
  end.

(** The number written by a string of decimal digits, most significant first. *)
Definition int_of_digits (l : list ascii) : Z :=
  fold_left (fun a c => (10 * a + digit_val c)%Z) l 0%Z.

Fixpoint digits_loop (fuel : nat) (n : Z) (acc : list ascii) : list ascii :=
  match fuel with
  | O => acc
  | S f => if (n <? 10)%Z then digit_char n :: acc
           else digits_loop f (n / 10)%Z (digit_char (n mod 10) :: acc)
  end.

(** [str(n)] for a non-negative integer [n]. *)
Definition digits (n : Z) : list ascii :=
  digits_loop (S (Z.to_nat (Z.log2 n))) n [].

(** [len(str(n))] *)
Definition ndigits (n : Z) : Z := Z.of_nat (length (digits n)).

(** [str(z)] for any integer. *)
Definition str_of_Z (z : Z) : list ascii :=
  if (z <? 0)%Z then "-"%char :: digits (- z) else digits z.

(** [str.split(sep)] for a one-character separator. *)
Fixpoint split_on (sep : ascii) (l : list ascii) : list (list ascii) :=
  match l with
  | [] => [[]]
  | c :: r =>
      if Ascii.eqb c sep then [] :: split_on sep r
      else match split_on sep r with
           | p :: ps => (c :: p) :: ps
           | [] => [[c]]
           end
  end.

Definition py_split (sep : ascii) (s : string) : list string :=
  map string_of_list_ascii (split_on sep (list_ascii_of_string s)).

(** ** Python's [decimal] module, default context *)

Module decimal.
Local Open Scope Z_scope.

(** A finite number is [(-1)^sign * coeff * 10^exp] with [0 <= coeff]
    (Python keeps the coefficient as a digit string [_int]); a NaN carries
    its diagnostic payload as a number. *)
Inductive Decimal : Set :=
| Finite (sign : bool) (coeff : Z) (exp : Z)
| Infinity (sign : bool)
| NaN (sign : bool) (signaling : bool) (payload : Z).

#[global] Instance Decimal_eq_dec : EqDecision Decimal.
Proof. solve_decision. Defined.

Definition prec : Z := 28.
Definition Emax : Z := 999999.
Definition Emin : Z := -999999.
Definition Etiny : Z := Emin - prec + 1.
Definition Etop : Z := Emax - prec + 1.

Inductive rounding : Set := ROUND_HALF_EVEN | ROUND_UP.

(** The rounding functions look at a coefficient [c] whose last [k] digits
    ([1 <= k]) are to be dropped and answer 1 (round away from zero), 0 (the
    dropped digits are all zero) or -1 (truncate). *)
Definition _round_half_even (c k : Z) : Z :=
  let keep := c / 10 ^ k in
  let rem := c mod 10 ^ k in
  if (2 * rem =? 10 ^ k) && Z.even keep then -1
  else if 10 ^ k <=? 2 * rem then 1
  else if rem =? 0 then 0
  else -1.

Definition _round_up (c k : Z) : Z :=
  if c mod 10 ^ k =? 0 then 0 else 1.

Definition _pick_rounding_function (r : rounding) : Z → Z → Z :=
  match r with
  | ROUND_HALF_EVEN => _round_half_even
  | ROUND_UP => _round_up
  end.

(** [Decimal._fix_nan]: the payload keeps its last [prec] digits. *)
Definition _fix_nan (sign signaling : bool) (payload : Z) : Decimal :=
  NaN sign signaling (if prec <? ndigits payload then payload mod 10 ^ prec else payload).

(** [Decimal._fix]: round a finite number to the context. *)
Definition _fix_finite (sign : bool) (c e : Z) : result Decimal :=
  if c =? 0 then Ok (Finite sign 0 (Z.min (Z.max e Etiny) Emax))
  else
    let exp_min := ndigits c + e - prec in
    if Etop <? exp_min then Raise Overflow
    else
      let exp_min := if exp_min <? Etiny then Etiny else exp_min in
      if e <? exp_min then
        let digits := ndigits c + e - exp_min in
        let '(c, digits) := if digits <? 0 then (1, 0) else (c, digits) in
        let k := ndigits c - digits in
        let changed := _round_half_even c k in
        let coeff := c / 10 ^ k in
        let '(coeff, exp_min) :=
          if 0 <? changed then
            let coeff := coeff + 1 in
            if prec <? ndigits coeff then (coeff / 10, exp_min + 1) else (coeff, exp_min)
          else (coeff, exp_min) in
        if Etop <? exp_min then Raise Overflow
        else Ok (Finite sign coeff exp_min)
      else Ok (Finite sign c e).

Definition _fix (d : Decimal) : result Decimal :=
  match d with
  | Finite s c e => _fix_finite s c e
  | Infinity s => Ok (Infinity s)
  | NaN s sg p => Ok (_fix_nan s sg p)
  end.

(** [Decimal._check_nans]: [Some] when an operand is a NaN. *)
Definition _check_nans (a b : Decimal) : option (result Decimal) :=
  match a, b with
  | NaN _ true _, _ => Some (Raise InvalidOperation)
  | _, NaN _ true _ => Some (Raise InvalidOperation)
  | NaN s sg p, _ => Some (Ok (_fix_nan s sg p))
  | _, NaN s sg p => Some (Ok (_fix_nan s sg p))
  | _, _ => None
  end.

(** The loop of [__truediv__] that brings an exact quotient as close to the
    ideal exponent as its trailing zeros allow. *)
Fixpoint strip_zeros (fuel : nat) (coeff exp ideal_exp : Z) : Z * Z :=
  match fuel with
  | O => (coeff, exp)
  | S f => if (exp <? ideal_exp) && (coeff mod 10 =? 0)
           then strip_zeros f (coeff / 10) (exp + 1) ideal_exp
           else (coeff, exp)
  end.

(** [Decimal.__truediv__] *)
Definition truediv (a b : Decimal) : result Decimal :=
  match _check_nans a b with
  | Some r => r
  | None =>
    match a, b with
    | Infinity _, Infinity _ => Raise InvalidOperation
    | Infinity sa, Finite sb _ _ => Ok (Infinity (xorb sa sb))
    | Finite sa _ _, Infinity sb => Ok (Finite (xorb sa sb) 0 Etiny)
    | Finite sa ca ea, Finite sb cb eb =>
        let sign := xorb sa sb in
        if cb =? 0 then
          if ca =? 0 then Raise InvalidOperation else Raise DivisionByZero
        else if ca =? 0 then _fix_finite sign 0 (ea - eb)
        else
          let shift := ndigits cb - ndigits ca + prec + 1 in
          let exp := ea - eb - shift in
          let '(coeff, remainder) :=
            if 0 <=? shift then Z.div_eucl (ca * 10 ^ shift) cb
            else Z.div_eucl ca (cb * 10 ^ (- shift)) in
          let '(coeff, exp) :=
            if negb (remainder =? 0) then
              (if coeff mod 5 =? 0 then coeff + 1 else coeff, exp)
            else
              let ideal_exp := ea - eb in
              strip_zeros (Z.to_nat (ideal_exp - exp)) coeff exp ideal_exp in
          _fix_finite sign coeff exp
    | _, _ => Raise InvalidOperation
    end
  end.

(** [Decimal._rescale] of a finite non-zero number. *)
Definition _rescale (sign : bool) (c e exp : Z) (r : rounding) : Decimal :=
  if exp <=? e then Finite sign (c * 10 ^ (e - exp)) exp
  else
    let digits := ndigits c + e - exp in
    let '(c, digits) := if digits <? 0 then (1, 0) else (c, digits) in
    let k := ndigits c - digits in
    let changed := _pick_rounding_function r c k in
    let coeff := c / 10 ^ k in
    Finite sign (if changed =? 1 then coeff + 1 else coeff) exp.

(** [Decimal.adjusted] *)
Definition adjusted (c e : Z) : Z := e + ndigits c - 1.

(** [Decimal.quantize] *)
Definition quantize (a q : Decimal) (r : rounding) : result Decimal :=
  match _check_nans a q with
  | Some ans => ans
  | None =>
    match a, q with
    | Infinity s, Infinity _ => Ok (Infinity s)
    | Finite s c e, Finite _ _ exp =>
        if negb ((Etiny <=? exp) && (exp <=? Emax)) then Raise InvalidOperation
        else if c =? 0 then _fix_finite s 0 exp
        else if Emax <? adjusted c e then Raise InvalidOperation
        else if prec <? adjusted c e - exp + 1 then Raise InvalidOperation
        else
          match _rescale s c e exp r with
          | Finite s' c' e' =>
              if Emax <? adjusted c' e' then Raise InvalidOperation
              else if prec <? ndigits c' then Raise InvalidOperation
              else _fix_finite s' c' e'
          | d => Ok d
          end
    | _, _ => Raise InvalidOperation
    end
  end.

(** [Decimal.__str__]: scientific notation of the specification. *)
Definition to_chars (d : Decimal) : list ascii :=
  let sgn (s : bool) : list ascii := if s then ["-"%char] else [] in
  match d with
  | Infinity s => sgn s ++ list_ascii_of_string "Infinity"
  | NaN s sg p =>
      sgn s ++ (if sg then ["s"%char] else []) ++ list_ascii_of_string "NaN"
        ++ (if p =? 0 then [] else digits p)
  | Finite s c e =>
      let _int := digits c in
      let len := Z.of_nat (length _int) in
      let leftdigits := e + len in
      let dotplace := if (e <=? 0) && (-6 <? leftdigits) then leftdigits else 1 in
      let '(intpart, fracpart) :=
        if dotplace <=? 0 then
          (["0"%char], "."%char :: repeat "0"%char (Z.to_nat (- dotplace)) ++ _int)
        else if len <=? dotplace then
          (_int ++ repeat "0"%char (Z.to_nat (dotplace - len)), [])
        else
          (take (Z.to_nat dotplace) _int, "."%char :: drop (Z.to_nat dotplace) _int) in
      let exp :=
        if leftdigits =? dotplace then []
        else "E"%char ::
             (if leftdigits - dotplace <? 0 then str_of_Z (leftdigits - dotplace)
              else "+"%char :: str_of_Z (leftdigits - dotplace)) in
      sgn s ++ intpart ++ fracpart ++ exp
  end.

Definition to_str (d : Decimal) : string := string_of_list_ascii (to_chars d).

(** The numeric strings accepted by [Decimal(str)]: after the optional
    sign, a finite number [digits [. digits] [E [sign] digits]] (with a
    digit somewhere in the mantissa), [Inf]/[Infinity], or [[s]NaN digits],
    letters in either case. *)
Definition parse_exponent (l : list ascii) : option Z :=
  let '(neg, r) :=
    match l with
    | "-"%char :: r => (true, r)
    | "+"%char :: r => (false, r)
    | _ => (false, l)
    end in
  match span_digits r with
  | ((_ :: _) as ds, []) => Some (if neg then - int_of_digits ds else int_of_digits ds)
  | _ => None
  end.

Definition parse_finite (l : list ascii) : option (Z * Z) :=
  let '(intpart, r1) := span_digits l in
  let '(fracpart, r2) :=
    match r1 with
    | "."%char :: r => span_digits r
    | _ => ([], r1)
    end in
  match intpart ++ fracpart with
  | [] => None
  | ds =>
      let mexp :=
        match r2 with
        | [] => Some 0
        | c :: r => if Ascii.eqb (to_lower c) "e" then parse_exponent r else None
        end in
      e ← mexp; Some (int_of_digits ds, e - Z.of_nat (length fracpart))
  end.

Definition parse_special (sign : bool) (l : list ascii) : option Decimal :=
  let low := string_of_list_ascii (map to_lower l) in
  if (String.eqb low "inf" || String.eqb low "infinity")%bool then Some (Infinity sign)
  else
    let '(sg, r) :=
      match map to_lower l with
      | "s"%char :: r => (true, r)
      | r => (false, r)
      end in
    match r with
    | "n"%char :: "a"%char :: "n"%char :: diag =>
        match span_digits diag with
        | (ds, []) => Some (NaN sign sg (int_of_digits ds))
        | _ => None
        end
    | _ => None
    end.

(** [decimal.Decimal(s)] for a string [s] of ASCII text, without the limits
    the C implementation puts on exponent and digits (see [within_limits]). *)
Definition of_string (s : string) : result Decimal :=
  let l := filter (fun c => c ≠ "_"%char) (strip (list_ascii_of_string s)) in
  let '(sign, r) :=
    match l with
    | "-"%char :: r => (true, r)
    | "+"%char :: r => (false, r)
    | _ => (false, l)
    end in
  match parse_finite r with
  | Some (c, e) => Ok (Finite sign c e)
  | None =>
      match parse_special sign r with
      | Some d => Ok d
      | None => Raise InvalidOperation
      end
  end.

End decimal.

Import decimal.

(** ** The fraction parser *)

(** [decimal.Decimal('.01')] *)
Definition cent : Decimal := Finite false 1 (-2).

Definition _parse_number (numstring : option string) : result Decimal :=
  match numstring with
  | None => Raise AttributeError
  | Some s =>
      match py_split "/" s with
      | [num; denum] =>
          a ← of_string num;
          b ← of_string denum;
          amount_dec ← truediv a b;
          amount_dec ← of_string (to_str amount_dec);
          quantize amount_dec cent ROUND_UP
      | _ => Raise ValueError
      end
  end.

(** The white space [int] skips around an ASCII text: that of C's
    [isspace], without the separators 28 to 31 that [str.isspace] has. *)
Definition is_c_space (c : ascii) : bool :=
  (((9 <=? code c) && (code c <=? 13)) || (code c =? 32))%Z.

Fixpoint lstrip_c (l : list ascii) : list ascii :=
  match l with
  | c :: r => if is_c_space c then lstrip_c r else l
  | [] => []
  end.

Definition strip_c (l : list ascii) : list ascii := rev (lstrip_c (rev (lstrip_c l))).

(** [int(s)] for ASCII text: optional sign, decimal digits, single
    underscores allowed between digits, surrounding white space ignored.
    The limit some interpreters put on the number of digits
    ([sys.set_int_max_str_digits]) is not modelled. *)
Fixpoint int_body (l : list ascii) (after_digit : bool) (acc : Z) : option Z :=
  match l with
  | [] => if after_digit then Some acc else None
  | c :: r =>
      if is_digit c then int_body r true (10 * acc + digit_val c)%Z
      else if Ascii.eqb c "_" && after_digit then int_body r false acc
      else None
  end.

Definition py_int (text : option string) : result Z :=
  match text with
  | None => Raise TypeError
  | Some s =>
      let l := strip_c (list_ascii_of_string s) in
      let '(neg, r) :=
        match l with
        | "-"%char :: r => (true, r)
        | "+"%char :: r => (false, r)
        | _ => (false, l)
        end in
      match int_body r false 0 with
      | Some z => Ok (if neg then (- z)%Z else z)
      | None => Raise ValueError
      end
  end.

(** ** Dictionaries

    A Python [dict] as an association list in insertion order (the order
    CPython 3.7 and later iterate in): assigning to a key that is present
    replaces the value in place, assigning to a new key appends. *)

Section Dict.
Context {K V : Type} `{EqDecision K}.

Definition pydict := list (K * V).

Fixpoint dict_get (k : K) (d : pydict) : option V :=
  match d with
  | [] => None
  | (k', v) :: r => if decide (k = k') then Some v else dict_get k r
  end.

Fixpoint dict_set (k : K) (v : V) (d : pydict) : pydict :=
  match d with
  | [] => [(k, v)]
  | (k', v') :: r => if decide (k = k') then (k, v) :: r else (k', v') :: dict_set k v r
  end.

(** [d.setdefault(k, v)]: the value the key ends up with, and the dictionary. *)
Definition dict_setdefault (k : K) (v : V) (d : pydict) : V * pydict :=
  match dict_get k d with
  | Some v' => (v', d)
  | None => (v, dict_set k v d)
  end.

Definition dict_keys (d : pydict) : list K := d.*1.
Definition dict_values (d : pydict) : list V := d.*2.

(** [d[k]] *)
Definition dict_item (k : K) (d : pydict) : result V :=
  match dict_get k d with
  | Some v => Ok v
  | None => Raise KeyError
  end.
End Dict.
Arguments pydict : clear implicits.

(** ** ElementTree elements *)

#[warnings="-register-all"]
Inductive Element : Type :=
| Elem (tag : string) (attrib : list (string * string)) (text : option string)
       (children : list Element).

Definition Element_tag (e : Element) : string := let 'Elem t _ _ _ := e in t.
Definition Element_attrib (e : Element) : list (string * string) := let 'Elem _ a _ _ := e in a.
Definition Element_text (e : Element) : option string := let 'Elem _ _ t _ := e in t.
Definition Element_children (e : Element) : list Element := let 'Elem _ _ _ c := e in c.

(** [e.get(key, default)] *)
Definition Element_get (key dflt : string) (e : Element) : string :=
  default dflt (dict_get key (Element_attrib e)).

(** [e.findall(path)] and [e.find(path)] for a path of child steps
    [tag1/tag2/...], given as the list of its tags: all matches in document
    order, and the first of them. *)
Definition child_elements (tag : string) (e : Element) : list Element :=
  filter (fun c => Element_tag c = tag) (Element_children e).

Fixpoint findall_from (path : list string) (ctx : list Element) : list Element :=
  match path with
  | [] => ctx
  | t :: p => findall_from p (ctx ≫= child_elements t)
  end.

Definition findall (path : list string) (e : Element) : list Element :=
  findall_from path [e].

Definition find (path : list string) (e : Element) : option Element :=
  head (findall path e).

(** [x.text] where [x] is the result of a [find]: an absent element has no
    attribute [text]. *)
Definition text (x : option Element) : result (option string) :=
  match x with
  | Some e => Ok (Element_text e)
  | None => Raise AttributeError
  end.

(** [x.text if x is not None else None] *)
Definition text_or_None (x : option Element) : option string :=
  x ≫= Element_text.

Fixpoint height (e : Element) : nat :=
  let 'Elem _ _ _ cs := e in S (foldr (fun c m => Nat.max (height c) m) 0%nat cs).

(** The namespaces of the GnuCash XML format. *)
Definition gnc : string := "{http://www.gnucash.org/XML/gnc}".
Definition book_ns : string := "{http://www.gnucash.org/XML/book}".
Definition cmdty : string := "{http://www.gnucash.org/XML/cmdty}".
Definition price_ns : string := "{http://www.gnucash.org/XML/price}".
Definition ts : string := "{http://www.gnucash.org/XML/ts}".
Definition act : string := "{http://www.gnucash.org/XML/act}".
Definition trn : string := "{http://www.gnucash.org/XML/trn}".
Definition split_ns : string := "{http://www.gnucash.org/XML/split}".
Definition slot : string := "{http://www.gnucash.org/XML/slot}".
Definition xml_entry : string := "{http://www.gnucash.org/XML/entry}".
Definition cust : string := "{http://www.gnucash.org/XML/cust}".
Definition addr : string := "{http://www.gnucash.org/XML/addr}".
Definition vend : string := "{http://www.gnucash.org/XML/vendor}".
Definition tte : string := "{http://www.gnucash.org/XML/tte}".
Definition taxtable_ns : string := "{http://www.gnucash.org/XML/taxtable}".
Definition invoice_ns : string := "{http://www.gnucash.org/XML/invoice}".
Definition owner : string := "{http://www.gnucash.org/XML/owner}".

(** ** The loader's monad: an object store threaded through, or an exception *)

Definition M (S A : Type) : Type := S → result (A * S).

Definition retS {S A} (a : A) : M S A := fun h => Ok (a, h).

Definition bindS {S A B} (m : M S A) (f : A → M S B) : M S B := fun h =>
  match m h with
  | Ok (a, h') => f a h'
  | Raise e => Raise e
  end.

Definition lift {S A} (r : result A) : M S A := fun h =>
  match r with
  | Ok a => Ok (a, h)
  | Raise e => Raise e
  end.

Notation "'let*' x ':=' m 'in' k" := (bindS m (fun x => k))
  (at level 10, x name, m at level 200, k at level 200, only parsing).
Notation "'let*' ' p ':=' m 'in' k" := (bindS m (fun x => let 'p := x in k))
  (at level 10, p pattern, m at level 200, k at level 200, only parsing).

(** [for x in l: b = f(b, x)] *)
Fixpoint foldM {S A B} (f : B → A → M S B) (b : B) (l : list A) : M S B :=
  match l with
  | [] => retS b
  | x :: r => let* b' := f b x in foldM f b' r
  end.

Fixpoint foldR {A B} (f : B → A → result B) (b : B) (l : list A) : result B :=
  match l with
  | [] => Ok b
  | x :: r => b' ← f b x; foldR f b' r
  end.

(** ** The object model *)

Record Commodity : Type := mkCommodity {
  Commodity_name : option string;
  Commodity_space : option string }.

Record Customer : Type := mkCustomer {
  Customer_guid : option string;
  Customer_name : option string;
  Customer_address : list (option string) }.

Record Vendor : Type := mkVendor {
  Vendor_guid : option string;
  Vendor_name : option string }.

Record Taxtableentry : Type := mkTaxtableentry {
  Taxtableentry_amount : Decimal;
  Taxtableentry_ttetype : option string }.

Record Taxtable : Type := mkTaxtable {
  Taxtable_guid : option string;
  Taxtable_name : option string;
  Taxtable_taxtable_entries : list Taxtableentry }.

Record Entry : Type := mkEntry {
  Entry_action : option string;
  Entry_description : option string;
  Entry_guid : option string;
  Entry_invoice_guid : option string;
  Entry_price : option Decimal;
  Entry_qty : option Decimal;
  Entry_taxable : option string;
  Entry_taxtable : option Taxtable }.

Section Loader.

(** [dateutil.parser.parse] is outside the repository: the development is
    parametric in the type of its results and in the function itself. *)
Variable datetime : Type.
Variable parse_date : string → result datetime.

Definition py_parse_date (t : option string) : result datetime :=
  match t with
  | Some s => parse_date s
  | None => Raise TypeError
  end.

(** *** Slots *)

#[warnings="-register-all"]
Inductive SlotValue : Type :=
| SlotInt (z : Z)
| SlotDecimal (d : Decimal)
| SlotText (s : option string)
| SlotDate (d : datetime)
| SlotFrame (slots : list (option string * SlotValue)).

Definition Slots : Type := pydict (option string) SlotValue.

(** The value a slot's [slot:value] element stands for; [rec] parses a
    nested frame. *)
Definition slot_value (rec : option Element → result Slots) (value : Element)
  : result SlotValue :=
  let type_ := Element_get "type" "string" value in
  if (String.eqb type_ "integer" || String.eqb type_ "double")%bool then
    SlotInt <$> py_int (Element_text value)
  else if String.eqb type_ "numeric" then
    SlotDecimal <$> _parse_number (Element_text value)
  else if (String.eqb type_ "string" || String.eqb type_ "guid")%bool then
    Ok (SlotText (Element_text value))
  else if String.eqb type_ "gdate" then
    t ← text (find ["gdate"%string] value); SlotDate <$> py_parse_date t
  else if String.eqb type_ "timespec" then
    t ← text (find [ts +:+ "date"] value); SlotDate <$> py_parse_date t
  else if String.eqb type_ "frame" then
    SlotFrame <$> rec (Some value)
  else Raise RuntimeError.

(** One turn of the loop [for elt in tree.findall("slot")]. *)
Definition slot_step (rec : option Element → result Slots) (slots : Slots) (elt : Element)
  : result Slots :=
  key ← text (find [slot +:+ "key"] elt);
  match find [slot +:+ "value"] elt with
  | None => Raise AttributeError
  | Some value => v ← slot_value rec value; Ok (dict_set key v slots)
  end.

Fixpoint slots_loop (fuel : nat) (tree : option Element) : result Slots :=
  match tree with
  | None => Ok []
  | Some tree =>
      match fuel with
      | O => Raise RecursionError
      | S fuel => foldR (slot_step (slots_loop fuel)) [] (findall ["slot"%string] tree)
      end
  end.

(** The recursion of [_slots_from_tree] descends into the tree, so the
    height of the tree bounds its depth. *)
Definition _slots_from_tree (tree : option Element) : result Slots :=
  slots_loop (from_option height 0%nat tree) tree.

(** *** Objects with identity: accounts, transactions, splits and the
    commodities of the registry live in a store and are referred to by
    their index in it. *)

Record Account : Type := mkAccount {
  Account_name : option string;
  Account_guid : option string;
  Account_actype : option string;
  Account_description : option string;
  Account_parent : option nat;
  Account_children : list nat;
  Account_commodity : option nat;
  Account_commodity_scu : option string;
  Account_splits : list nat;
  Account_slots : Slots }.

Record Transaction : Type := mkTransaction {
  Transaction_guid : option string;
  Transaction_currency : nat;
  Transaction_date : datetime;
  Transaction_date_entered : datetime;
  Transaction_description : option string;
  Transaction_num : option string;
  Transaction_splits : list nat;
  Transaction_slots : Slots }.

Record Split : Type := mkSplit {
  Split_guid : option string;
  Split_memo : option string;
  Split_reconciled_state : option string;
  Split_reconcile_date : option datetime;
  Split_value : Decimal;
  Split_quantity : Decimal;
  Split_account : nat;
  Split_transaction : nat;
  Split_action : option string;
  Split_slots : Slots }.

Record Price : Type := mkPrice {
  Price_guid : option string;
  Price_commodity : nat;
  Price_currency : nat;
  Price_date : datetime;
  Price_value : Decimal }.

Record Invoice : Type := mkInvoice {
  Invoice_active : option string;
  Invoice_customer : option Customer;
  Invoice_date : datetime;
  Invoice_id : option string;
  Invoice_entries : list Entry;
  Invoice_guid : option string;
  Invoice_vendor : option Vendor }.

Record Book : Type := mkBook {
  Book_tree : Element;
  Book_guid : option string;
  Book_prices : list Price;
  Book_transactions : list nat;
  Book_root_account : option nat;
  Book_accounts : list nat;
  Book_commodities : list nat;
  Book_slots : Slots;
  Book_invoices : list Invoice }.

Record Heap : Type := mkHeap {
  heap_commodities : list Commodity;
  heap_accounts : list Account;
  heap_transactions : list Transaction;
  heap_splits : list Split }.

Definition empty_heap : Heap := mkHeap [] [] [] [].

Definition with_accounts (f : list Account → list Account) (h : Heap) : Heap :=
  mkHeap (heap_commodities h) (f (heap_accounts h)) (heap_transactions h) (heap_splits h).

Definition with_transactions (f : list Transaction → list Transaction) (h : Heap) : Heap :=
  mkHeap (heap_commodities h) (heap_accounts h) (f (heap_transactions h)) (heap_splits h).

(** Constructors allocate. *)
Definition new_Commodity (c : Commodity) : M Heap nat := fun h =>
  Ok (length (heap_commodities h),
      mkHeap (heap_commodities h ++ [c]) (heap_accounts h) (heap_transactions h) (heap_splits h)).

Definition new_Account (a : Account) : M Heap nat := fun h =>
  Ok (length (heap_accounts h), with_accounts (fun l => l ++ [a]) h).

Definition new_Transaction (t : Transaction) : M Heap nat := fun h =>
  Ok (length (heap_transactions h), with_transactions (fun l => l ++ [t]) h).

Definition new_Split (s : Split) : M Heap nat := fun h =>
  Ok (length (heap_splits h),
      mkHeap (heap_commodities h) (heap_accounts h) (heap_transactions h) (heap_splits h ++ [s])).

(** Attribute reads and writes through a reference. *)
Definition get_account (acc : nat) : M Heap (option Account) := fun h =>
  Ok (heap_accounts h !! acc, h).

Definition set_parent (parent : nat) (a : Account) : Account :=
  mkAccount (Account_name a) (Account_guid a) (Account_actype a) (Account_description a)
    (Some parent) (Account_children a) (Account_commodity a) (Account_commodity_scu a)
    (Account_splits a) (Account_slots a).

Definition append_child (c : nat) (a : Account) : Account :=
  mkAccount (Account_name a) (Account_guid a) (Account_actype a) (Account_description a)
    (Account_parent a) (Account_children a ++ [c]) (Account_commodity a)
    (Account_commodity_scu a) (Account_splits a) (Account_slots a).

Definition append_split (s : nat) (a : Account) : Account :=
  mkAccount (Account_name a) (Account_guid a) (Account_actype a) (Account_description a)
    (Account_parent a) (Account_children a) (Account_commodity a)
    (Account_commodity_scu a) (Account_splits a ++ [s]) (Account_slots a).

Definition append_transaction_split (s : nat) (t : Transaction) : Transaction :=
  mkTransaction (Transaction_guid t) (Transaction_currency t) (Transaction_date t)
    (Transaction_date_entered t) (Transaction_description t) (Transaction_num t)
    (Transaction_splits t ++ [s]) (Transaction_slots t).

Definition update_account (acc : nat) (f : Account → Account) : M Heap unit := fun h =>
  Ok (tt, with_accounts (alter f acc) h).

Definition update_transaction (t : nat) (f : Transaction → Transaction) : M Heap unit := fun h =>
  Ok (tt, with_transactions (alter f t) h).

#[local] Instance Account_inhabited : Inhabited Account :=
  populate (mkAccount None None None None None [] None None [] []).

Definition read_account (acc : nat) : M Heap Account := fun h =>
  Ok (heap_accounts h !!! acc, h).

(** *** Commodities: [_commodity_from_tree], [_commodity_find] *)

Definition CommodityDict : Type := pydict (option string * option string) nat.

Definition _commodity_from_tree (tree : Element) : result Commodity :=
  name ← text (find [cmdty +:+ "id"] tree);
  space ← text (find [cmdty +:+ "space"] tree);
  Ok (mkCommodity name space).

(** [commoditydict.setdefault((space, name), Commodity(name=name, space=space))]:
    the argument is evaluated, so a commodity is allocated at every call; it
    enters the dictionary only when the key is new. *)
Definition _commodity_find (space name : option string) (commoditydict : CommodityDict)
  : M Heap (nat * CommodityDict) :=
  let* c := new_Commodity (mkCommodity name space) in
  retS (dict_setdefault (space, name) c commoditydict).

Definition commodity_step (st : list nat * CommodityDict) (child : Element)
  : M Heap (list nat * CommodityDict) :=
  let '(commodities, commoditydict) := st in
  let* comm := lift (_commodity_from_tree child) in
  let* '(c, commoditydict) :=
    _commodity_find (Commodity_space comm) (Commodity_name comm) commoditydict in
  retS (commodities ++ [c], commoditydict).

(** *** Prices: [_price_from_tree] *)

Definition _price_from_tree (tree : Element) (commoditydict : CommodityDict)
  : M Heap (Price * CommodityDict) :=
  let* guid := lift (text (find [price_ns +:+ "id"] tree)) in
  let* value := lift (t ← text (find [price_ns +:+ "value"] tree); _parse_number t) in
  let* date := lift (t ← text (find [price_ns +:+ "time"; ts +:+ "date"] tree);
                     py_parse_date t) in
  let* currency_space := lift (text (find [price_ns +:+ "currency"; cmdty +:+ "space"] tree)) in
  let* currency_name := lift (text (find [price_ns +:+ "currency"; cmdty +:+ "id"] tree)) in
  let* '(currency, commoditydict) :=
    _commodity_find currency_space currency_name commoditydict in
  let* commodity_space := lift (text (find [price_ns +:+ "commodity"; cmdty +:+ "space"] tree)) in
  let* commodity_name := lift (text (find [price_ns +:+ "commodity"; cmdty +:+ "id"] tree)) in
  let* '(commodity, commoditydict) :=
    _commodity_find commodity_space commodity_name commoditydict in
  retS (mkPrice guid commodity currency date value, commoditydict).

Definition price_step (st : list Price * CommodityDict) (child : Element)
  : M Heap (list Price * CommodityDict) :=
  let '(prices, commoditydict) := st in
  let* '(price, commoditydict) := _price_from_tree child commoditydict in
  retS (prices ++ [price], commoditydict).

Definition load_prices (tree : Element) (commoditydict : CommodityDict)
  : M Heap (list Price * CommodityDict) :=
  match find [gnc +:+ "pricedb"] tree with
  | Some t => foldM price_step ([], commoditydict) (findall ["price"%string] t)
  | None => retS ([], commoditydict)
  end.

(** *** Accounts: [_account_from_tree] and the two passes of [_book_from_tree] *)

Definition AccountDict : Type := pydict (option string) nat.
Definition ParentDict : Type := pydict (option string) (option string).

Definition is_ROOT (actype : option string) : bool := bool_decide (actype = Some "ROOT"%string).

Definition _account_from_tree (tree : Element) (commoditydict : CommodityDict)
  : M Heap (option string * nat) :=
  let* name := lift (text (find [act +:+ "name"] tree)) in
  let* guid := lift (text (find [act +:+ "id"] tree)) in
  let* actype := lift (text (find [act +:+ "type"] tree)) in
  let description := text_or_None (find [act +:+ "description"] tree) in
  let* slots := lift (_slots_from_tree (find [act +:+ "slots"] tree)) in
  let* '(parent_guid, commodity, commodity_scu) :=
    if is_ROOT actype then retS (None, None, None)
    else
      let* parent_guid := lift (text (find [act +:+ "parent"] tree)) in
      let* commodity_space := lift (text (find [act +:+ "commodity"; cmdty +:+ "space"] tree)) in
      let* commodity_name := lift (text (find [act +:+ "commodity"; cmdty +:+ "id"] tree)) in
      let* commodity_scu := lift (text (find [act +:+ "commodity-scu"] tree)) in
      let* commodity := lift (dict_item (commodity_space, commodity_name) commoditydict) in
      retS (parent_guid, Some commodity, commodity_scu) in
  let* acc := new_Account (mkAccount name guid actype description None [] commodity
                             commodity_scu [] slots) in
  retS (parent_guid, acc).

(** Pass 1: one turn of [for child in tree.findall(gnc:account)]. *)
Definition account_step (commoditydict : CommodityDict)
    (st : option nat * AccountDict * ParentDict) (child : Element)
  : M Heap (option nat * AccountDict * ParentDict) :=
  let '(root_account, accountdict, parentdict) := st in
  let* '(parent_guid, acc) := _account_from_tree child commoditydict in
  let* a := read_account acc in
  let root_account := if is_ROOT (Account_actype a) then Some acc else root_account in
  retS (root_account, dict_set (Account_guid a) acc accountdict,
        dict_set (Account_guid a) parent_guid parentdict).

(** Pass 2: one turn of [for acc in list(accountdict.values())]. *)
Definition link_step (accountdict : AccountDict) (parentdict : ParentDict)
    (accounts : list nat) (acc : nat) : M Heap (list nat) :=
  let* a := read_account acc in
  if bool_decide (Account_parent a = None) && negb (is_ROOT (Account_actype a)) then
    let* parent_guid := lift (dict_item (Account_guid a) parentdict) in
    let* parent := lift (dict_item parent_guid accountdict) in
    let* _ := update_account acc (set_parent parent) in
    let* _ := update_account parent (append_child acc) in
    retS (accounts ++ [acc])
  else retS accounts.

(** *** Transactions and splits *)

Definition optional_date (x : option Element) : result (option datetime) :=
  match x with
  | Some e => Some <$> py_parse_date (Element_text e)
  | None => Ok None
  end.

Definition _split_from_tree (tree : Element) (accountdict : AccountDict) (transaction : nat)
  : M Heap nat :=
  let* guid := lift (text (find [split_ns +:+ "id"] tree)) in
  let memo := text_or_None (find [split_ns +:+ "memo"] tree) in
  let* reconciled_state := lift (text (find [split_ns +:+ "reconciled-state"] tree)) in
  let* reconcile_date :=
    lift (optional_date (find [split_ns +:+ "reconcile-date"; ts +:+ "date"] tree)) in
  let* value := lift (t ← text (find [split_ns +:+ "value"] tree); _parse_number t) in
  let* quantity := lift (t ← text (find [split_ns +:+ "quantity"] tree); _parse_number t) in
  let* account_guid := lift (text (find [split_ns +:+ "account"] tree)) in
  let* account := lift (dict_item account_guid accountdict) in
  let* slots := lift (_slots_from_tree (find [split_ns +:+ "slots"] tree)) in
  let action := text_or_None (find [split_ns +:+ "action"] tree) in
  let* split := new_Split (mkSplit guid memo reconciled_state reconcile_date value quantity
                             account transaction action slots) in
  let* _ := update_account account (append_split split) in
  retS split.

(** [num or None] *)
Definition or_None (num : option string) : option string :=
  match num with
  | Some s => if String.eqb s "" then None else Some s
  | None => None
  end.

Definition split_step (accountdict : AccountDict) (transaction : nat) (_ : unit)
    (subtree : Element) : M Heap unit :=
  let* split := _split_from_tree subtree accountdict transaction in
  update_transaction transaction (append_transaction_split split).

Definition _transaction_from_tree (tree : Element) (accountdict : AccountDict)
    (commoditydict : CommodityDict) : M Heap nat :=
  let* guid := lift (text (find [trn +:+ "id"] tree)) in
  let* currency_space := lift (text (find [trn +:+ "currency"; cmdty +:+ "space"] tree)) in
  let* currency_name := lift (text (find [trn +:+ "currency"; cmdty +:+ "id"] tree)) in
  let* currency := lift (dict_item (currency_space, currency_name) commoditydict) in
  let* date := lift (t ← text (find [trn +:+ "date-posted"; ts +:+ "date"] tree);
                     py_parse_date t) in
  let* date_entered := lift (t ← text (find [trn +:+ "date-entered"; ts +:+ "date"] tree);
                             py_parse_date t) in
  let* description := lift (text (find [trn +:+ "description"] tree)) in
  let num := text_or_None (find [trn +:+ "num"] tree) in
  let* slots := lift (_slots_from_tree (find [trn +:+ "slots"] tree)) in
  let* transaction := new_Transaction (mkTransaction guid currency date date_entered
                                         description (or_None num) [] slots) in
  let* _ := foldM (split_step accountdict transaction) tt
              (findall [trn +:+ "splits"; trn +:+ "split"] tree) in
  retS transaction.

Definition transaction_step (accountdict : AccountDict) (commoditydict : CommodityDict)
    (transactions : list nat) (child : Element) : M Heap (list nat) :=
  let* t := _transaction_from_tree child accountdict commoditydict in
  retS (transactions ++ [t]).

(** *** Business entities *)

Definition optional_number (x : option Element) : result (option Decimal) :=
  match x with
  | Some e => Some <$> _parse_number (Element_text e)
  | None => Ok None
  end.

Definition _entry_from_tree (tree : Element) (taxtabledict : pydict (option string) Taxtable)
  : result Entry :=
  guid ← text (find [xml_entry +:+ "guid"] tree);
  let action := text_or_None (find [xml_entry +:+ "action"] tree) in
  let description := text_or_None (find [xml_entry +:+ "description"] tree) in
  qty ← optional_number (find [xml_entry +:+ "qty"] tree);
  price ← optional_number (find [xml_entry +:+ "i-price"] tree);
  let invoice_guid := text_or_None (find [xml_entry +:+ "invoice"] tree) in
  '(taxable, taxtable) ←
    match find [xml_entry +:+ "i-taxable"] tree with
    | Some e =>
        taxtable_id ← text (find [xml_entry +:+ "i-taxtable"] tree);
        taxtable ← dict_item taxtable_id taxtabledict;
        Ok (Element_text e, Some taxtable)
    | None => Ok (None, None)
    end;
  Ok (mkEntry action description guid invoice_guid price qty taxable taxtable).

Definition address_line (addr_tree : Element) (line : string) : list (option string) :=
  match find [addr +:+ line] addr_tree with
  | Some e => [Element_text e]
  | None => []
  end.

Definition _customer_from_tree (tree : Element) : result Customer :=
  guid ← text (find [cust +:+ "guid"] tree);
  name ← text (find [cust +:+ "name"] tree);
  match find [cust +:+ "addr"] tree with
  | None => Raise AttributeError
  | Some addr_tree =>
      Ok (mkCustomer guid name
            (address_line addr_tree "addr1" ++ address_line addr_tree "addr2"
             ++ address_line addr_tree "addr3" ++ address_line addr_tree "addr4"))
  end.

Definition _vendor_from_tree (tree : Element) : result Vendor :=
  guid ← text (find [vend +:+ "guid"] tree);
  name ← text (find [vend +:+ "name"] tree);
  Ok (mkVendor guid name).

Definition _taxtableentry_from_tree (tree : Element) : result Taxtableentry :=
  tte_amount ← (t ← text (find [tte +:+ "amount"] tree); _parse_number t);
  tte_type ← text (find [tte +:+ "type"] tree);
  Ok (mkTaxtableentry tte_amount tte_type).

Definition _taxtable_from_tree (tree : Element) : result Taxtable :=
  guid ← text (find [taxtable_ns +:+ "guid"] tree);
  name ← text (find [taxtable_ns +:+ "name"] tree);
  match find [taxtable_ns +:+ "entries"] tree with
  | None => Raise TypeError
  | Some taxtable_entries_tree =>
      taxtable_entries ←
        foldR (fun l child => e ← _taxtableentry_from_tree child; Ok (l ++ [e])) []
          (Element_children taxtable_entries_tree);
      Ok (mkTaxtable guid name taxtable_entries)
  end.

(** The loop of [_invoice_from_tree] over [entriesdict.keys()]. *)
Definition entries_step (entriesdict : pydict (option string) Entry) (guid : option string)
    (entries : list Entry) (key : option string) : result (list Entry) :=
  entry ← dict_item key entriesdict;
  Ok (if bool_decide (Entry_invoice_guid entry = guid) then entries ++ [entry] else entries).

Definition _invoice_from_tree (tree : Element)
    (customersdict : pydict (option string) Customer)
    (entriesdict : pydict (option string) Entry)
    (vendorsdict : pydict (option string) Vendor) : result Invoice :=
  guid ← text (find [invoice_ns +:+ "guid"] tree);
  id ← text (find [invoice_ns +:+ "id"] tree);
  date ← (t ← text (find [invoice_ns +:+ "opened"; ts +:+ "date"] tree); py_parse_date t);
  match find [invoice_ns +:+ "owner"] tree with
  | None => Raise AttributeError
  | Some owner_tree =>
      owner_type ← text (find [owner +:+ "type"] owner_tree);
      owner_id ← text (find [owner +:+ "id"] owner_tree);
      customer ← (if bool_decide (owner_type = Some "gncCustomer"%string)
                  then Some <$> dict_item owner_id customersdict else Ok None);
      vendor ← (if bool_decide (owner_type = Some "gncVendor"%string)
                then Some <$> dict_item owner_id vendorsdict else Ok None);
      active ← text (find [invoice_ns +:+ "active"] tree);
      entries ← foldR (entries_step entriesdict guid) [] (dict_keys entriesdict);
      Ok (mkInvoice active customer date id entries guid vendor)
  end.

(** *** [_book_from_tree] *)

Definition _book_from_tree (tree : option Element) : M Heap Book :=
  match tree with
  | None => lift (Raise AttributeError)
  | Some tree =>
      let* guid := lift (text (find [book_ns +:+ "id"] tree)) in
      let* '(commodities, commoditydict) :=
        foldM commodity_step ([], []) (findall [gnc +:+ "commodity"] tree) in
      let* '(prices, commoditydict) := load_prices tree commoditydict in
      let* '(root_account, accountdict, parentdict) :=
        foldM (account_step commoditydict) (None, [], []) (findall [gnc +:+ "account"] tree) in
      let* accounts := foldM (link_step accountdict parentdict) [] (dict_values accountdict) in
      let* transactions :=
        foldM (transaction_step accountdict commoditydict) []
          (findall [gnc +:+ "transaction"] tree) in
      let* customersdict :=
        lift (foldR (fun d child => customer ← _customer_from_tree child;
                                    Ok (dict_set (Customer_guid customer) customer d)) []
                (findall [gnc +:+ "GncCustomer"] tree)) in
      let* vendorsdict :=
        lift (foldR (fun d child => vendor ← _vendor_from_tree child;
                                    Ok (dict_set (Vendor_guid vendor) vendor d)) []
                (findall [gnc +:+ "GncVendor"] tree)) in
      let* taxtablesdict :=
        lift (foldR (fun d child => taxtable ← _taxtable_from_tree child;
                                    Ok (dict_set (Taxtable_guid taxtable) taxtable d)) []
                (findall [gnc +:+ "GncTaxTable"] tree)) in
      let* entriesdict :=
        lift (foldR (fun d child => entry ← _entry_from_tree child taxtablesdict;
                                    Ok (dict_set (Entry_guid entry) entry d)) []
                (findall [gnc +:+ "GncEntry"] tree)) in
      let* invoices :=
        lift (foldR (fun l child =>
                       i ← _invoice_from_tree child customersdict entriesdict vendorsdict;
                       Ok (l ++ [i])) []
                (findall [gnc +:+ "GncInvoice"] tree)) in
      let* slots := lift (_slots_from_tree (find [book_ns +:+ "slots"] tree)) in
      retS (mkBook tree guid prices transactions root_account accounts commodities slots
              invoices)
  end.

(** [parse], from the root element on. *)
Definition parse_root (root : Element) : M Heap Book :=
  if String.eqb (Element_tag root) "gnc-v2" then _book_from_tree (find [gnc +:+ "book"] root)
  else lift (Raise ValueError).

(** *** Methods of [Account] and [Book] *)

(** Truth value of a string or [None]. *)
Definition truthy (s : option string) : bool :=
  match s with
  | Some s => negb (String.eqb s "")
  | None => false
  end.

(** ['{}'.format(x)] *)
Definition py_format (x : option string) : string := default "None"%string x.

(** [Account.fullname]; [limit] bounds the depth of the recursion. *)
Fixpoint Account_fullname (h : Heap) (limit : nat) (self : nat) : result (option string) :=
  match limit with
  | O => Raise RecursionError
  | S limit =>
      match Account_parent (heap_accounts h !!! self) with
      | Some parent =>
          pfn ← Account_fullname h limit parent;
          if truthy pfn
          then Ok (Some (py_format pfn +:+ ":" +:+ py_format (Account_name (heap_accounts h !!! self))))
          else Ok (Account_name (heap_accounts h !!! self))
      | None => Ok (Some ""%string)
      end
  end.

(** [Account.walk]: the triples the generator yields until its queue is
    empty, [None] when it is still running after [fuel] turns of the loop. *)
Fixpoint walk_loop (h : Heap) (fuel : nat) (accounts : list nat)
  : option (list (nat * list nat * list nat)) :=
  match accounts with
  | [] => Some []
  | acc :: accounts =>
      match fuel with
      | O => None
      | S fuel =>
          let children := Account_children (heap_accounts h !!! acc) in
          rest ← walk_loop h fuel (accounts ++ children);
          Some ((acc, children, Account_splits (heap_accounts h !!! acc)) :: rest)
      end
  end.

Definition Account_walk (h : Heap) (fuel : nat) (self : nat)
  : option (list (nat * list nat * list nat)) :=
  walk_loop h fuel [self].

Definition Book_walk (h : Heap) (fuel : nat) (book : Book)
  : result (option (list (nat * list nat * list nat))) :=
  match Book_root_account book with
  | Some root => Ok (Account_walk h fuel root)
  | None => Raise AttributeError
  end.

(** [Account.find_account]: the loop takes the triples of [walk] one by one
    and leaves the generator at the first account that has the name. *)
Fixpoint find_account_loop (h : Heap) (name : option string) (fuel : nat)
    (accounts : list nat) : option (option nat) :=
  match accounts with
  | [] => Some None
  | acc :: accounts =>
      match fuel with
      | O => None
      | S fuel =>
          let children := Account_children (heap_accounts h !!! acc) in
          if decide (Account_name (heap_accounts h !!! acc) = name) then Some (Some acc)
          else find_account_loop h name fuel (accounts ++ children)
      end
  end.

Definition Account_find_account (h : Heap) (fuel : nat) (self : nat) (name : option string)
  : option (option nat) :=
  find_account_loop h name fuel [self].


(** [Book.find_guid]: the items searched are the accounts of the flat list,
    then the transactions. *)
Inductive Item : Set :=
| ItemAccount (acc : nat)
| ItemTransaction (t : nat).

Definition Item_guid (h : Heap) (item : Item) : option string :=
  match item with
  | ItemAccount acc => Account_guid (heap_accounts h !!! acc)
  | ItemTransaction t => heap_transactions h !! t ≫= Transaction_guid
  end.

Fixpoint find_item (h : Heap) (guid : option string) (items : list Item) : option Item :=
  match items with
  | [] => None
  | item :: items =>
      if decide (Item_guid h item = guid) then Some item else find_item h guid items
  end.

Definition Book_find_guid (h : Heap) (book : Book) (guid : option string) : option Item :=
  find_item h guid
    ((ItemAccount <$> Book_accounts book) ++ (ItemTransaction <$> Book_transactions book)).

(** * The vocabulary of the statements *)

Definition dict_of_list {K V} `{EqDecision K} (key : V → K) (l : list V) (d : pydict K V)
  : pydict K V :=
  fold_left (fun d y => dict_set (key y) y d) l d.

Inductive Phases (tree : Element) (h0 : Heap) (book : Book) (h : Heap) : Prop :=
| mkPhases (commodities : list nat) (cd1 : CommodityDict) (h1 : Heap)
    (prices : list Price) (commoditydict : CommodityDict) (h2 : Heap)
    (root_account : option nat) (accountdict : AccountDict) (parentdict : ParentDict)
    (h3 : Heap) (accounts : list nat) (h4 : Heap) (transactions : list nat)
    (customersdict : pydict (option string) Customer)
    (vendorsdict : pydict (option string) Vendor)
    (taxtablesdict : pydict (option string) Taxtable)
    (entriesdict : pydict (option string) Entry)
    (invoices : list Invoice) (guid : option string) (slots : Slots)
    (ph_guid : text (find [book_ns +:+ "id"] tree) = Ok guid)
    (ph_commodities :
       foldM commodity_step ([], []) (findall [gnc +:+ "commodity"] tree) h0
       = Ok ((commodities, cd1), h1))
    (ph_prices : load_prices tree cd1 h1 = Ok ((prices, commoditydict), h2))
    (ph_pass1 :
       foldM (account_step commoditydict) (None, [], []) (findall [gnc +:+ "account"] tree) h2
       = Ok ((root_account, accountdict, parentdict), h3))
    (ph_pass2 :
       foldM (link_step accountdict parentdict) [] (dict_values accountdict) h3
       = Ok (accounts, h4))
    (ph_transactions :
       foldM (transaction_step accountdict commoditydict) []
         (findall [gnc +:+ "transaction"] tree) h4 = Ok (transactions, h))
    (ph_customers :
       foldR (fun d child => customer ← _customer_from_tree child;
                             Ok (dict_set (Customer_guid customer) customer d)) []
         (findall [gnc +:+ "GncCustomer"] tree) = Ok customersdict)
    (ph_vendors :
       foldR (fun d child => vendor ← _vendor_from_tree child;
                             Ok (dict_set (Vendor_guid vendor) vendor d)) []
         (findall [gnc +:+ "GncVendor"] tree) = Ok vendorsdict)
    (ph_taxtables :
       foldR (fun d child => taxtable ← _taxtable_from_tree child;
                             Ok (dict_set (Taxtable_guid taxtable) taxtable d)) []
         (findall [gnc +:+ "GncTaxTable"] tree) = Ok taxtablesdict)
    (ph_entries :
       foldR (fun d child => entry ← _entry_from_tree child taxtablesdict;
                             Ok (dict_set (Entry_guid entry) entry d)) []
         (findall [gnc +:+ "GncEntry"] tree) = Ok entriesdict)
    (ph_invoices :
       foldR (fun l child =>
                i ← _invoice_from_tree child customersdict entriesdict vendorsdict;
                Ok (l ++ [i])) []
         (findall [gnc +:+ "GncInvoice"] tree) = Ok invoices)
    (ph_slots : _slots_from_tree (find [book_ns +:+ "slots"] tree) = Ok slots)
    (ph_book :
       book = mkBook tree guid prices transactions root_account accounts
                commodities slots invoices).

Definition entry_guid (child : Element) : option string :=
  text_or_None (find [xml_entry +:+ "guid"] child).

(** What [_invoice_from_tree] does with the owner of an invoice element. *)
Definition owner_resolved (child : Element)
    (customersdict : pydict (option string) Customer)
    (vendorsdict : pydict (option string) Vendor) (inv : Invoice) : Prop :=
  ∃ owner_tree owner_type owner_id,
    find [invoice_ns +:+ "owner"] child = Some owner_tree
    ∧ text (find [owner +:+ "type"] owner_tree) = Ok owner_type
    ∧ text (find [owner +:+ "id"] owner_tree) = Ok owner_id
    ∧ Invoice_customer inv
      = (if bool_decide (owner_type = Some "gncCustomer"%string)
         then dict_get owner_id customersdict else None)
    ∧ Invoice_vendor inv
      = (if bool_decide (owner_type = Some "gncVendor"%string)
         then dict_get owner_id vendorsdict else None)
    ∧ (owner_type = Some "gncCustomer"%string → is_Some (Invoice_customer inv))
    ∧ (owner_type = Some "gncVendor"%string → is_Some (Invoice_vendor inv)).

Definition slot_key (elt : Element) : result (option string) :=
  text (find [slot +:+ "key"] elt).



(** A decimal with two places, or a NaN (the result for a NaN operand). *)
Definition two_places_or_NaN (d : Decimal) : Prop :=
  match d with
  | Finite _ _ e => e = (-2)%Z
  | Infinity _ => False
  | NaN _ _ _ => True
  end.

(** A finite tree of account references: the shape the children lists of
    the store are read against. *)
#[warnings="-register-all"]
Inductive AccountTree : Type :=
| ATree (root : nat) (subtrees : list AccountTree).

Definition tree_root (t : AccountTree) : nat := let 'ATree r _ := t in r.

Definition tree_subtrees (t : AccountTree) : list AccountTree := let 'ATree _ ts := t in ts.

Fixpoint tree_size (t : AccountTree) : nat :=
  let 'ATree _ ts := t in S (foldr (fun t n => tree_size t + n)%nat 0%nat ts).

Definition forest_size (q : list AccountTree) : nat :=
  foldr (fun t n => tree_size t + n)%nat 0%nat q.

Fixpoint tree_accounts (t : AccountTree) : list nat :=
  let 'ATree r ts := t in r :: foldr (fun t l => tree_accounts t ++ l) [] ts.

Definition forest_accounts (q : list AccountTree) : list nat :=
  foldr (fun t l => tree_accounts t ++ l) [] q.

(** The store holds the tree: the children list of every account of the
    tree lists the roots of its subtrees, in order. *)
Fixpoint represents (h : Heap) (t : AccountTree) : Prop :=
  let 'ATree r ts := t in
  Account_children (heap_accounts h !!! r) = tree_root <$> ts
  ∧ foldr (fun t P => represents h t ∧ P) True ts.

Definition forest_represented (h : Heap) (q : list AccountTree) : Prop :=
  foldr (fun t P => represents h t ∧ P) True q.

(** Breadth-first order: the roots of the forest, then level by level. *)
Fixpoint level_order (n : nat) (q : list AccountTree) : list nat :=
  match n with
  | O => []
  | S n => (tree_root <$> q) ++ level_order n (q ≫= tree_subtrees)
  end.

(** What the generator yields at an account. *)
Definition yielded (h : Heap) (acc : nat) : nat * list nat * list nat :=
  (acc, Account_children (heap_accounts h !!! acc), Account_splits (heap_accounts h !!! acc)).

Definition dict_of_pairs {K V} `{EqDecision K} (l : list (K * V)) : pydict K V :=
  fold_left (fun d kv => dict_set kv.1 kv.2 d) l [].

Definition account_guid_of (child : Element) : option string :=
  text_or_None (find [act +:+ "id"] child).

Definition account_type_of (child : Element) : option string :=
  text_or_None (find [act +:+ "type"] child).

Definition account_name_of (child : Element) : option string :=
  text_or_None (find [act +:+ "name"] child).

Definition declared_parent (child : Element) : option string :=
  text_or_None (find [act +:+ "parent"] child).

(** The (space, id) pair under [path] of an element. *)
Definition commodity_key (path : list string) (e : Element)
  : option (option string * option string) :=
  s ← find (path ++ [cmdty +:+ "space"]) e;
  n ← find (path ++ [cmdty +:+ "id"]) e;
  Some (Element_text s, Element_text n).

(** The account [_account_from_tree] makes of an account element. *)
Definition account_built (cd : CommodityDict) (child : Element)
    (parent_guid : option string) (a : Account) : Prop :=
  Account_name a = account_name_of child
  ∧ Account_guid a = account_guid_of child
  ∧ Account_actype a = account_type_of child
  ∧ Account_parent a = None
  ∧ Account_children a = []
  ∧ Account_splits a = []
  ∧ (if is_ROOT (account_type_of child)
     then parent_guid = None ∧ Account_commodity a = None
     else parent_guid = declared_parent child
          ∧ ∃ key c, commodity_key [act +:+ "commodity"] child = Some key
                     ∧ dict_get key cd = Some c ∧ Account_commodity a = Some c).

(** What no later step changes in an account, and its place in the tree. *)
Definition account_static (a : Account)
  : option string * option string * option string * option nat :=
  (Account_name a, Account_guid a, Account_actype a, Account_commodity a).

Definition account_links (a : Account) : option nat * list nat :=
  (Account_parent a, Account_children a).

(** The links pass 2 has made so far: an account with a parent is a
    non-root account whose parent is the account its declared parent guid
    resolves to; it is among the children of that parent and in the flat
    list. *)
Definition linked (ad : AccountDict) (pd : ParentDict) (accounts : list nat) (h : Heap)
  : Prop :=
  ∀ acc a p, heap_accounts h !! acc = Some a → Account_parent a = Some p →
    is_ROOT (Account_actype a) = false
    ∧ (∃ pg, dict_get (Account_guid a) pd = Some pg ∧ dict_get pg ad = Some p)
    ∧ (∃ pa, heap_accounts h !! p = Some pa ∧ acc ∈ Account_children pa)
    ∧ acc ∈ accounts.

Definition pass2_invariant (ad : AccountDict) (pd : ParentDict) (h3 : Heap)
    (done accounts : list nat) (h : Heap) : Prop :=
  heap_commodities h = heap_commodities h3
  ∧ heap_transactions h = heap_transactions h3
  ∧ heap_splits h = heap_splits h3
  ∧ Forall2 (fun a a' => account_static a = account_static a'
                         ∧ Account_splits a = Account_splits a')
      (heap_accounts h3) (heap_accounts h)
  ∧ linked ad pd accounts h
  ∧ (∀ acc a, acc ∈ done → heap_accounts h !! acc = Some a →
       is_ROOT (Account_actype a) = false → is_Some (Account_parent a))
  ∧ (∀ acc, acc ∈ accounts →
       ∃ a, heap_accounts h !! acc = Some a ∧ is_Some (Account_parent a)).

(** The account at index [i] after [acc] has been hung under [p]. *)
Definition relink (acc p i : nat) (a : Account) : Account :=
  (if decide (i = p) then append_child acc else id)
    ((if decide (i = acc) then set_parent p else id) a).

Definition tx_frame (h h' : Heap) : Prop :=
  heap_commodities h' = heap_commodities h
  ∧ Forall2 (fun a a' => account_static a = account_static a'
                         ∧ account_links a = account_links a')
      (heap_accounts h) (heap_accounts h')
  ∧ (∀ t tr, heap_transactions h !! t = Some tr →
       ∃ tr', heap_transactions h' !! t = Some tr'
              ∧ Transaction_currency tr' = Transaction_currency tr).

(** The currency of a transaction is the registry's commodity for the
    (space, id) pair of its [trn:currency] element. *)
Definition transaction_currency_resolved (cd : CommodityDict) (h : Heap) (child : Element)
    (t : nat) : Prop :=
  ∃ tr key, heap_transactions h !! t = Some tr
            ∧ commodity_key [trn +:+ "currency"] child = Some key
            ∧ dict_get key cd = Some (Transaction_currency tr).

(** Bindings of the registry are never changed or removed. *)
Definition registry_le (cd cd' : CommodityDict) : Prop :=
  ∀ k c, dict_get k cd = Some c → dict_get k cd' = Some c.

(** The registry maps a (space, id) pair to a commodity of that name and
    space. *)
Definition registry_ok (cd : CommodityDict) (h : Heap) : Prop :=
  ∀ k c, dict_get k cd = Some c → heap_commodities h !! c = Some (mkCommodity k.2 k.1).

(** The registry phases allocate commodities and touch nothing else. *)
Definition commodity_frame (h h' : Heap) : Prop :=
  heap_accounts h' = heap_accounts h
  ∧ heap_transactions h' = heap_transactions h
  ∧ heap_splits h' = heap_splits h
  ∧ heap_commodities h `prefix_of` heap_commodities h'.

(** The elements [load_prices] reads. *)
Definition price_elements (tree : Element) : list Element :=
  match find [gnc +:+ "pricedb"] tree with
  | Some t => findall ["price"%string] t
  | None => []
  end.

Definition price_resolved (cd : CommodityDict) (child : Element) (p : Price) : Prop :=
  (∃ key, commodity_key [price_ns +:+ "currency"] child = Some key
          ∧ dict_get key cd = Some (Price_currency p))
  ∧ (∃ key, commodity_key [price_ns +:+ "commodity"] child = Some key
            ∧ dict_get key cd = Some (Price_commodity p)).

(** What a successful load from an empty store establishes. The account
    made of the [i]-th account element is the [i]-th account of the store. *)
Inductive Loaded (tree : Element) (book : Book) (h : Heap) : Prop :=
| mkLoaded (cd : CommodityDict) (ad : AccountDict) (pd : ParentDict)
    (rs : list (option string * Account))
    (ld_built :
       Forall2 (fun child r => account_built cd child r.1 r.2)
         (findall [gnc +:+ "account"] tree) rs)
    (ld_ad : ad = dict_of_pairs (imap (fun i r => (Account_guid r.2, i)) rs))
    (ld_pd : pd = dict_of_pairs ((fun r => (Account_guid r.2, r.1)) <$> rs))
    (ld_static :
       Forall2 (fun r a => account_static r.2 = account_static a) rs (heap_accounts h))
    (ld_linked : linked ad pd (Book_accounts book) h)
    (ld_processed :
       ∀ acc a, acc ∈ dict_values ad → heap_accounts h !! acc = Some a →
                is_ROOT (Account_actype a) = false → is_Some (Account_parent a))
    (ld_accounts :
       ∀ acc, acc ∈ Book_accounts book →
              ∃ a, heap_accounts h !! acc = Some a ∧ is_Some (Account_parent a))
    (ld_registry : registry_ok cd h)
    (ld_commodities :
       Forall2 (fun child c => ∃ key, commodity_key [] child = Some key
                                      ∧ dict_get key cd = Some c)
         (findall [gnc +:+ "commodity"] tree) (Book_commodities book))
    (ld_prices : Forall2 (price_resolved cd) (price_elements tree) (Book_prices book))
    (ld_transactions :
       Forall2 (transaction_currency_resolved cd h)
         (findall [gnc +:+ "transaction"] tree) (Book_transactions book)).

(** The places of a document that refer to a commodity. *)
Inductive location : Set :=
| TopLevelCommodity (i : nat)
| PriceCommodity (i : nat)
| PriceCurrency (i : nat)
| AccountCommodity (i : nat)
| TransactionCurrency (i : nat).

(** The (space, id) pair written at a location of the document. *)
Definition location_key (tree : Element) (loc : location)
  : option (option string * option string) :=
  match loc with
  | TopLevelCommodity i => findall [gnc +:+ "commodity"] tree !! i ≫= commodity_key []
  | PriceCommodity i => price_elements tree !! i ≫= commodity_key [price_ns +:+ "commodity"]
  | PriceCurrency i => price_elements tree !! i ≫= commodity_key [price_ns +:+ "currency"]
  | AccountCommodity i =>
      findall [gnc +:+ "account"] tree !! i ≫= commodity_key [act +:+ "commodity"]
  | TransactionCurrency i =>
      findall [gnc +:+ "transaction"] tree !! i ≫= commodity_key [trn +:+ "currency"]
  end.

(** The commodity the loaded book holds for a location. *)
Definition location_ref (book : Book) (h : Heap) (loc : location) : option nat :=
  match loc with
  | TopLevelCommodity i => Book_commodities book !! i
  | PriceCommodity i => Price_commodity <$> Book_prices book !! i
  | PriceCurrency i => Price_currency <$> Book_prices book !! i
  | AccountCommodity i => heap_accounts h !! i ≫= Account_commodity
  | TransactionCurrency i =>
      t ← Book_transactions book !! i; Transaction_currency <$> heap_transactions h !! t
  end.

(** An integer literal: an optional sign and one or more decimal digits. *)
Definition digits_only (l : list ascii) : bool :=
  match l with
  | [] => false
  | _ => forallb is_digit l
  end.

Definition unsigned_part (l : list ascii) : list ascii :=
  match l with
  | "-"%char :: r => r
  | "+"%char :: r => r
  | _ => l
  end.

Definition is_int_literal (s : string) : bool :=
  digits_only (unsigned_part (list_ascii_of_string s)).

Definition literal_negative (s : string) : bool :=
  match list_ascii_of_string s with
  | "-"%char :: _ => true
  | _ => false
  end.

Definition literal_magnitude (s : string) : Z :=
  int_of_digits (unsigned_part (list_ascii_of_string s)).

(** The number of ["/"] in a string. *)
Definition slash_count (s : string) : nat :=
  length (filter (fun c => c = "/"%char) (list_ascii_of_string s)).

(** Following the spec: the exact value n/d (for [0 <= n], [0 < d], with the
    sign apart) quantized to two decimal places, rounding away from zero. *)
Definition exact_two_places_up (negative : bool) (n d : Z) : Decimal :=
  Finite negative ((100 * n + d - 1) / d) (-2).

Definition arithmetic_error (e : exn) : Prop :=
  e = InvalidOperation ∨ e = DivisionByZero ∨ e = Overflow.

(** Characters that [strip] and the removal of underscores leave alone. *)
Definition plain (c : ascii) : Prop := is_space c = false ∧ c ≠ "_"%char.

(** The digits of an exponent as [__str__] writes them, ["%+d"]. *)
Definition signed_chars (x : Z) : list ascii :=
  if (x <? 0)%Z then str_of_Z x else "+"%char :: str_of_Z x.

(** A coefficient and exponent whose value lies in the last hundredth
    below [C / 100], inclusive of [C / 100] itself. *)
Definition two_places_bracket (c e C : Z) : Prop :=
  (e <= -2 ∧ (C - 1) * 10 ^ (-2 - e) < c <= C * 10 ^ (-2 - e))%Z
  ∨ (-2 < e ∧ c * 10 ^ (e + 2) = C)%Z.

(** [root] is the place of the last of the account records [es] that has
    the type [ROOT]; there is none when no record has it. *)
Definition last_root_record (es : list Element) (root : option nat) : Prop :=
  match root with
  | Some r =>
      ∃ child, es !! r = Some child ∧ is_ROOT (account_type_of child) = true
               ∧ ∀ j child', (r < j)%nat → es !! j = Some child' →
                             is_ROOT (account_type_of child') = false
  | None => ∀ child, child ∈ es → is_ROOT (account_type_of child) = false
  end.

(** Back references and the lists they are kept in: [owner_of] gives the
    owner of every item and [owners] the items every owner lists. The two
    agree, and no list holds an item twice. *)
Definition owner_lists_linked (owner_of : list nat) (owners : list (list nat)) : Prop :=
  (∀ s o, owner_of !! s = Some o → ∃ l, owners !! o = Some l ∧ s ∈ l)
  ∧ (∀ o l s, owners !! o = Some l → s ∈ l → owner_of !! s = Some o)
  ∧ Forall NoDup owners.

(** The splits of a store, their accounts and their transactions. *)
Definition splits_linked (h : Heap) : Prop :=
  owner_lists_linked (Split_account <$> heap_splits h) (Account_splits <$> heap_accounts h)
  ∧ owner_lists_linked (Split_transaction <$> heap_splits h)
      (Transaction_splits <$> heap_transactions h)
  ∧ Forall (fun sp => two_places_or_NaN (Split_value sp)
                      ∧ two_places_or_NaN (Split_quantity sp)) (heap_splits h).

(** The type tags the slot parser knows. *)
Definition known_slot_type (t : string) : Prop :=
  t ∈ ["integer"; "double"; "numeric"; "string"; "guid"; "gdate"; "timespec"; "frame"]%string.

(** Text in the ASCII range: the range on which [is_space], [is_digit],
    [py_int] and [of_string] read a text as Python does. Python also strips
    the other white space of Unicode and reads its other decimal digits. *)
Definition is_ascii (s : string) : bool :=
  forallb (fun c => (code c <? 128)%Z) (list_ascii_of_string s).

Definition ascii_text (t : option string) : bool := from_option is_ascii true t.

(** The numbers the constructor of the C implementation of [decimal] holds
    on every platform: exponent, digits and payload within the smaller (the
    32-bit) of its limits [MAX_EMAX] and [MAX_PREC], 425000000. Beyond its
    limits that constructor raises [InvalidOperation], which [of_string],
    written after the arbitrary-precision reading of the module, does not
    do. *)
Definition within_limits (d : Decimal) : bool :=
  match d with
  | Finite _ c e =>
      ((-425000000 <=? e) && (e + ndigits c <=? 425000000) && (ndigits c <=? 425000000))%Z
  | Infinity _ => true
  | NaN _ _ p => (ndigits p <=? 425000000)%Z
  end.

(** The coefficient of a number and the payload of a NaN are written with
    digits: they are not negative. *)
Definition digits_written (d : Decimal) : Prop :=
  match d with
  | Finite _ c _ => (0 <= c)%Z
  | Infinity _ => True
  | NaN _ _ p => (0 <= p)%Z
  end.

(** The account [k] parent links above an account, when the chain of
    parents is that long. *)
Fixpoint ancestor (h : Heap) (k : nat) (acc : nat) : option nat :=
  match k with
  | O => Some acc
  | S k => p ← Account_parent (heap_accounts h !!! acc); ancestor h k p
  end.

(** An account and the [k - 1] accounts above it, from the account upwards. *)
Fixpoint lineage (h : Heap) (k : nat) (acc : nat) : list nat :=
  match k with
  | O => []
  | S k =>
      acc :: match Account_parent (heap_accounts h !!! acc) with
             | Some p => lineage h k p
             | None => []
             end
  end.

(** The tree read off the children lists below an account, [depth] levels
    down. *)
Fixpoint subtree (h : Heap) (depth : nat) (acc : nat) : AccountTree :=
  match depth with
  | O => ATree acc []
  | S depth => ATree acc (subtree h depth <$> Account_children (heap_accounts h !!! acc))
  end.

(** The two directions of the links between accounts: a child listed by an
    account has that account as its parent and is listed once; an account
    with a parent is listed by it. *)
Definition children_linked (h : Heap) : Prop :=
  ∀ p pa, heap_accounts h !! p = Some pa →
    NoDup (Account_children pa)
    ∧ ∀ c, c ∈ Account_children pa →
        ∃ a, heap_accounts h !! c = Some a ∧ Account_parent a = Some p.

Definition parents_linked (h : Heap) : Prop :=
  ∀ acc a p, heap_accounts h !! acc = Some a → Account_parent a = Some p →
    ∃ pa, heap_accounts h !! p = Some pa ∧ acc ∈ Account_children pa.

(** The names of a list of accounts, joined with colons. *)
Definition joined_names (h : Heap) (l : list nat) : string :=
  String.concat ":" ((fun acc => py_format (Account_name (heap_accounts h !!! acc))) <$> l).

(** The locations that put a commodity into the registry: the commodity
    records and the two commodities of a price. *)
Definition declares (loc : location) : bool :=
  match loc with
  | TopLevelCommodity _ | PriceCommodity _ | PriceCurrency _ => true
  | AccountCommodity _ | TransactionCurrency _ => false
  end.

(** Every key of the registry is written at a declaring location of the
    document. *)
Definition registry_declared (tree : Element) (cd : CommodityDict) : Prop :=
  ∀ k, is_Some (dict_get k cd) →
       ∃ loc, declares loc = true ∧ location_key tree loc = Some k.

Definition transaction_guid_of (child : Element) : option string :=
  text_or_None (find [trn +:+ "id"] child).

(** Transactions stay where they are and keep their guid. *)
Definition guid_frame (h h' : Heap) : Prop :=
  ∀ t tr, heap_transactions h !! t = Some tr →
    ∃ tr', heap_transactions h' !! t = Some tr' ∧ Transaction_guid tr' = Transaction_guid tr.

(** The transaction made of a transaction record carries its guid. *)
Definition transaction_guid_kept (h : Heap) (child : Element) (t : nat) : Prop :=
  ∃ tr, heap_transactions h !! t = Some tr ∧ Transaction_guid tr = transaction_guid_of child.

(** * Sample documents *)

Section Samples.
Local Open Scope string_scope.

(** A stand-in for [dateutil.parser.parse] that accepts every string and
    returns it as it is. *)
Definition verbatim_date (s : string) : result string := Ok s.

Definition leaf (tag t : string) : Element := Elem tag [] (Some t) [].
Definition node (tag : string) (children : list Element) : Element := Elem tag [] None children.

Definition commodity_elt (tag space id : string) : Element :=
  node tag [leaf (cmdty +:+ "space") space; leaf (cmdty +:+ "id") id].

Definition root_account_elt (guid : string) : Element :=
  node (gnc +:+ "account")
    [leaf (act +:+ "name") "Root Account"; leaf (act +:+ "id") guid; leaf (act +:+ "type") "ROOT"].

Definition account_elt (name : Element) (guid type parent : string) : Element :=
  node (gnc +:+ "account")
    [name; leaf (act +:+ "id") guid; leaf (act +:+ "type") type;
     commodity_elt (act +:+ "commodity") "ISO4217" "EUR";
     leaf (act +:+ "commodity-scu") "100"; leaf (act +:+ "parent") parent].

Definition split_elt (guid value account : string) : Element :=
  node (trn +:+ "split")
    [leaf (split_ns +:+ "id") guid; leaf (split_ns +:+ "reconciled-state") "n";
     leaf (split_ns +:+ "value") value; leaf (split_ns +:+ "quantity") value;
     leaf (split_ns +:+ "account") account].

Definition date_elt (tag date : string) : Element := node tag [leaf (ts +:+ "date") date].

Definition transaction_elt (guid : string) (splits : list Element) : Element :=
  node (gnc +:+ "transaction")
    [leaf (trn +:+ "id") guid; commodity_elt (trn +:+ "currency") "ISO4217" "EUR";
     date_elt (trn +:+ "date-posted") "2017-01-01 00:00:00 +0100";
     date_elt (trn +:+ "date-entered") "2017-01-02 10:30:00 +0100";
     leaf (trn +:+ "description") "Opening balance";
     node (trn +:+ "splits") splits].

Definition price_elt : Element :=
  node "price"
    [leaf (price_ns +:+ "id") "p1";
     commodity_elt (price_ns +:+ "commodity") "ISO4217" "USD";
     commodity_elt (price_ns +:+ "currency") "ISO4217" "EUR";
     date_elt (price_ns +:+ "time") "2017-01-01 00:00:00 +0100";
     leaf (price_ns +:+ "value") "9/10"].

Definition entry_elt (guid invoice : string) : Element :=
  node (gnc +:+ "GncEntry")
    [leaf (xml_entry +:+ "guid") guid; leaf (xml_entry +:+ "invoice") invoice;
     leaf (xml_entry +:+ "qty") "3/1"; leaf (xml_entry +:+ "i-price") "333/1000"].

Definition invoice_elt (guid owner_type owner_id : string) : Element :=
  node (gnc +:+ "GncInvoice")
    [leaf (invoice_ns +:+ "guid") guid; leaf (invoice_ns +:+ "id") "000001";
     date_elt (invoice_ns +:+ "opened") "2017-02-01 00:00:00 +0100";
     node (invoice_ns +:+ "owner")
       [leaf (owner +:+ "type") owner_type; leaf (owner +:+ "id") owner_id];
     leaf (invoice_ns +:+ "active") "1"].

Definition slot_elt (key : string) (value : Element) : Element :=
  node "slot" [leaf (slot +:+ "key") key; value].

Definition untyped_value : Element := Elem (slot +:+ "value") [] (Some "no type") [].

Definition options_frame : Element :=
  Elem (slot +:+ "value") [("type", "frame")] None
    [slot_elt "counter" (Elem (slot +:+ "value") [("type", "integer")] (Some "42") []);
     slot_elt "rate" (Elem (slot +:+ "value") [("type", "numeric")] (Some "333/1000") []);
     slot_elt "note" untyped_value].

Definition sample_slots : Element :=
  node (book_ns +:+ "slots") [slot_elt "options" options_frame; slot_elt "remark" untyped_value].

Definition cash_elt : Element := account_elt (leaf (act +:+ "name") "Cash") "a2" "BANK" "a1".
Definition assets_elt : Element := account_elt (leaf (act +:+ "name") "Assets") "a1" "ASSET" "r".

Definition sample_book : Element :=
  node (gnc +:+ "book")
    [leaf (book_ns +:+ "id") "b0";
     sample_slots;
     commodity_elt (gnc +:+ "commodity") "ISO4217" "EUR";
     commodity_elt (gnc +:+ "commodity") "ISO4217" "USD";
     node (gnc +:+ "pricedb") [price_elt];
     cash_elt; assets_elt; root_account_elt "r";
     transaction_elt "t1" [split_elt "s1" "100/100" "a2"; split_elt "s2" "-100/100" "a1"];
     node (gnc +:+ "GncCustomer")
       [leaf (cust +:+ "guid") "c1"; leaf (cust +:+ "name") "Customer";
        node (cust +:+ "addr") [leaf (addr +:+ "addr1") "Main Street 1"]];
     node (gnc +:+ "GncVendor") [leaf (vend +:+ "guid") "v1"; leaf (vend +:+ "name") "Vendor"];
     entry_elt "e1" "i1";
     invoice_elt "i1" "gncCustomer" "c1";
     invoice_elt "i2" "gncVendor" "v1";
     invoice_elt "i3" "gncJob" "j1";
     entry_elt "e2" "i2";
     entry_elt "e3" "i1"].


(** A book in which an entry record is given twice, the second time for
    another invoice. *)
Definition reissued_entry_book : Element :=
  node (gnc +:+ "book")
    [leaf (book_ns +:+ "id") "b2";
     node (gnc +:+ "GncCustomer")
       [leaf (cust +:+ "guid") "c1"; leaf (cust +:+ "name") "Customer";
        node (cust +:+ "addr") []];
     entry_elt "e1" "i1";
     entry_elt "e2" "i1";
     entry_elt "e1" "i2";
     invoice_elt "i1" "gncCustomer" "c1";
     invoice_elt "i2" "gncCustomer" "c1"].

(** Slots with a value of a type the parser does not know. *)
Definition unknown_type_value : Element :=
  Elem (slot +:+ "value") [("type", "list")] None [].

Definition unknown_type_slots : Element :=
  node (book_ns +:+ "slots")
    [slot_elt "remark" untyped_value; slot_elt "items" unknown_type_value].

(** A book in which an account declares itself as its parent, with an
    account below it. *)
Definition cyclic_parent_book : Element :=
  node (gnc +:+ "book")
    [leaf (book_ns +:+ "id") "b3";
     commodity_elt (gnc +:+ "commodity") "ISO4217" "EUR";
     root_account_elt "r";
     account_elt (leaf (act +:+ "name") "Assets") "a1" "ASSET" "r";
     account_elt (leaf (act +:+ "name") "Loop") "a2" "ASSET" "a2";
     account_elt (leaf (act +:+ "name") "Below") "a3" "BANK" "a2"].

(** Slots with a value of type double that is written with a decimal
    point. *)
Definition double_value : Element :=
  Elem (slot +:+ "value") [("type", "double")] (Some "0.5") [].

Definition double_slots : Element :=
  node (book_ns +:+ "slots") [slot_elt "remark" untyped_value; slot_elt "rate" double_value].

(** A book with two account records of one guid under the root account. *)
Definition duplicate_guid_book : Element :=
  node (gnc +:+ "book")
    [leaf (book_ns +:+ "id") "b4";
     commodity_elt (gnc +:+ "commodity") "ISO4217" "EUR";
     root_account_elt "r";
     account_elt (leaf (act +:+ "name") "Assets") "a1" "ASSET" "r";
     account_elt (leaf (act +:+ "name") "Savings") "a1" "BANK" "r"].

End Samples.

(** * Properties *)

#[local] Arguments String.append : simpl never.

(** ** The monads *)

Lemma bind_Ok {A B} (m : result A) (f : A → result B) (b : B) :
  m ≫= f = Ok b ↔ ∃ a, m = Ok a ∧ f a = Ok b.
Proof.
  destruct m as [a|e]; simpl; split.
  - intros H. by exists a.
  - by intros (a' & [= ->] & H).
  - discriminate.
  - by intros (a' & [=] & _).
Qed.

Lemma fmap_Ok {A B} (f : A → B) (m : result A) (b : B) :
  f <$> m = Ok b ↔ ∃ a, m = Ok a ∧ b = f a.
Proof.
  destruct m as [a|e]; simpl; split.
  - intros [= <-]. by exists a.
  - by intros (a' & [= ->] & ->).
  - discriminate.
  - by intros (a' & [=] & _).
Qed.

Lemma bindS_Ok {S A B} (m : M S A) (f : A → M S B) (h h' : S) (b : B) :
  bindS m f h = Ok (b, h') ↔ ∃ a h1, m h = Ok (a, h1) ∧ f a h1 = Ok (b, h').
Proof.
  unfold bindS. destruct (m h) as [[a h1]|e]; split.
  - intros H. by exists a, h1.
  - by intros (a' & h1' & [= -> ->] & H).
  - discriminate.
  - by intros (a' & h1' & [=] & _).
Qed.

Lemma lift_Ok {S A} (r : result A) (h h' : S) (a : A) :
  lift r h = Ok (a, h') ↔ r = Ok a ∧ h' = h.
Proof.
  unfold lift. destruct r; split; try discriminate.
  - by intros [= -> ->].
  - by intros [[= ->] ->].
  - by intros [[=] _].
Qed.

Lemma retS_Ok {S A} (a b : A) (h h' : S) :
  retS a h = Ok (b, h') ↔ b = a ∧ h' = h.
Proof. unfold retS. split; [by intros [= -> ->] | by intros [-> ->]]. Qed.

(** Inversion of a successful run, one bind at a time. *)
Ltac inv_run H :=
  repeat first
    [ apply bind_Ok in H as (? & ? & H)
    | apply bindS_Ok in H as (? & ? & ? & H)
    | apply lift_Ok in H as [H ->]
    | apply retS_Ok in H as [-> ->]
    | apply fmap_Ok in H as (? & H & ->) ].

Lemma foldR_app {A B} (f : B → A → result B) (b : B) (l1 l2 : list A) :
  foldR f b (l1 ++ l2) = foldR f b l1 ≫= fun b' => foldR f b' l2.
Proof.
  revert b. induction l1 as [|x l1 IH]; intros b; simpl; [done|].
  destruct (f b x); simpl; [apply IH | done].
Qed.

Lemma foldM_app {S A B} (f : B → A → M S B) (b : B) (l1 l2 : list A) (h : S) :
  foldM f b (l1 ++ l2) h = bindS (foldM f b l1) (fun b' => foldM f b' l2) h.
Proof.
  revert b h. induction l1 as [|x l1 IH]; intros b h; simpl; [reflexivity|].
  unfold bindS. destruct (f b x h) as [[b' h']|]; [|reflexivity].
  by rewrite IH.
Qed.

(** An invariant of the loop state and the store is kept by a successful loop. *)
Lemma foldM_invariant {S A B} (I : list A → B → S → Prop) (f : B → A → M S B)
    (l : list A) (b : B) (h : S) (b' : B) (h' : S) :
  I [] b h →
  (∀ done x b1 h1 b2 h2, I done b1 h1 → done ++ [x] `prefix_of` l →
     f b1 x h1 = Ok (b2, h2) → I (done ++ [x]) b2 h2) →
  foldM f b l h = Ok (b', h') →
  I l b' h'.
Proof.
  intros H0 Hstep.
  assert (∀ done rest b1 h1, done ++ rest = l → I done b1 h1 →
            foldM f b1 rest h1 = Ok (b', h') → I l b' h') as Hgen.
  { intros done rest. revert done. induction rest as [|x rest IH]; intros done b1 h1 Hl HI Hrun.
    - simpl in Hrun. apply retS_Ok in Hrun as [-> ->]. by rewrite app_nil_r in Hl; subst.
    - simpl in Hrun. apply bindS_Ok in Hrun as (b2 & h2 & Hf & Hrun).
      apply (IH (done ++ [x]) b2 h2); [by rewrite <- app_assoc | | done].
      eapply Hstep; [done | | done]. exists rest. by rewrite <- app_assoc. }
  intros Hrun. by apply (Hgen [] l b h).
Qed.

Lemma foldR_invariant {A B} (I : list A → B → Prop) (f : B → A → result B)
    (l : list A) (b b' : B) :
  I [] b →
  (∀ done x b1 b2, I done b1 → done ++ [x] `prefix_of` l →
     f b1 x = Ok b2 → I (done ++ [x]) b2) →
  foldR f b l = Ok b' →
  I l b'.
Proof.
  intros H0 Hstep.
  assert (∀ done rest b1, done ++ rest = l → I done b1 →
            foldR f b1 rest = Ok b' → I l b') as Hgen.
  { intros done rest. revert done. induction rest as [|x rest IH]; intros done b1 Hl HI Hrun.
    - simpl in Hrun. injection Hrun as ->. by rewrite app_nil_r in Hl; subst.
    - simpl in Hrun. apply bind_Ok in Hrun as (b2 & Hf & Hrun).
      apply (IH (done ++ [x]) b2); [by rewrite <- app_assoc | | done].
      eapply Hstep; [done | | done]. exists rest. by rewrite <- app_assoc. }
  intros Hrun. by apply (Hgen [] l b).
Qed.

(** ** Dictionaries *)

Section DictFacts.
Context {K V : Type} `{EqDecision K}.
Implicit Types (d : pydict K V) (k : K) (v : V).

Lemma dict_get_set_eq d k v : dict_get k (dict_set k v d) = Some v.
Proof.
  induction d as [|[k' v'] d IH]; simpl.
  - by rewrite decide_True.
  - destruct (decide (k = k')) as [->|Hne]; simpl.
    + by rewrite decide_True.
    + by rewrite decide_False.
Qed.

Lemma dict_get_set_ne d k k' v : k ≠ k' → dict_get k' (dict_set k v d) = dict_get k' d.
Proof.
  intros Hne. induction d as [|[k1 v1] d IH]; simpl.
  - by rewrite decide_False.
  - destruct (decide (k = k1)) as [->|Hne1]; simpl.
    + by rewrite !decide_False.
    + destruct (decide (k' = k1)); [done | apply IH].
Qed.

Lemma dict_get_None d k : dict_get k d = None ↔ k ∉ dict_keys d.
Proof.
  unfold dict_keys. induction d as [|[k' v'] d IH]; simpl.
  - split; [intros _; apply not_elem_of_nil | done].
  - rewrite not_elem_of_cons. destruct (decide (k = k')) as [->|Hne].
    + split; [done | by intros [? _]].
    + rewrite IH. split; [done | by intros [_ ?]].
Qed.

Lemma dict_get_Some_elem d k v : dict_get k d = Some v → (k, v) ∈ d.
Proof.
  induction d as [|[k' v'] d IH]; simpl; [done|].
  destruct (decide (k = k')) as [->|Hne].
  - intros [= ->]. left.
  - intros H. right. by apply IH.
Qed.

Lemma dict_set_fresh d k v : k ∉ dict_keys d → dict_set k v d = d ++ [(k, v)].
Proof.
  unfold dict_keys. induction d as [|[k' v'] d IH]; simpl; [done|].
  rewrite not_elem_of_cons. intros [Hne Hnin].
  rewrite decide_False by done. by rewrite IH.
Qed.

Lemma dict_keys_set d k v :
  dict_keys (dict_set k v d) = if decide (k ∈ dict_keys d) then dict_keys d else dict_keys d ++ [k].
Proof.
  unfold dict_keys. induction d as [|[k' v'] d IH].
  - rewrite decide_False; [done | apply not_elem_of_nil].
  - cbn [dict_set]. destruct (decide (k = k')) as [->|Hne].
    + rewrite !fmap_cons. cbn [fst]. rewrite decide_True; [done | left].
    + rewrite !fmap_cons, IH. cbn [fst]. destruct (decide (k ∈ d.*1)) as [Hin|Hnin].
      * rewrite decide_True; [done | by right].
      * rewrite decide_False; [done | by apply not_elem_of_cons].
Qed.

Lemma dict_keys_set_NoDup d k v : NoDup (dict_keys d) → NoDup (dict_keys (dict_set k v d)).
Proof.
  intros Hnd. rewrite dict_keys_set. destruct (decide (k ∈ dict_keys d)); [done|].
  apply NoDup_app. split_and!; [done | | apply NoDup_singleton].
  intros x Hx Hx'. apply list_elem_of_singleton in Hx' as ->. done.
Qed.

Lemma dict_get_elem_NoDup d k v : NoDup (dict_keys d) → (k, v) ∈ d → dict_get k d = Some v.
Proof.
  unfold dict_keys. induction d as [|[k' v'] d IH]; simpl.
  - intros _ H. by apply elem_of_nil in H.
  - rewrite NoDup_cons. intros [Hnin Hnd] Hin. apply elem_of_cons in Hin as [[= -> ->]|Hin].
    + by rewrite decide_True.
    + rewrite decide_False; [by apply IH|]. intros ->. apply Hnin.
      apply list_elem_of_fmap. by exists (k', v).
Qed.
End DictFacts.

(** ** Loops that collect *)

Lemma foldR_collect {A B} (g : A → result B) (l : list A) (acc out : list B) :
  foldR (fun l x => y ← g x; Ok (l ++ [y])) acc l = Ok out →
  ∃ ys, Forall2 (fun x y => g x = Ok y) l ys ∧ out = acc ++ ys.
Proof.
  revert acc. induction l as [|x l IH]; intros acc; simpl.
  - intros [= <-]. exists []. split; [constructor | by rewrite app_nil_r].
  - intros H. apply bind_Ok in H as (acc' & Hx & H).
    apply bind_Ok in Hx as (y & Hy & [= <-]).
    apply IH in H as (ys & HF & ->). exists (y :: ys).
    split; [by constructor | by rewrite <- app_assoc].
Qed.

Lemma foldR_dict {A K V} `{EqDecision K} (g : A → result V) (key : V → K)
    (l : list A) (d0 d : pydict K V) :
  foldR (fun d x => y ← g x; Ok (dict_set (key y) y d)) d0 l = Ok d →
  ∃ ys, Forall2 (fun x y => g x = Ok y) l ys ∧ d = dict_of_list key ys d0.
Proof.
  revert d0. induction l as [|x l IH]; intros d0; simpl.
  - intros [= <-]. exists []. split; [constructor | done].
  - intros H. apply bind_Ok in H as (d1 & Hx & H).
    apply bind_Ok in Hx as (y & Hy & [= <-]).
    apply IH in H as (ys & HF & ->). exists (y :: ys). split; [by constructor | done].
Qed.

Lemma dict_of_list_keys_NoDup {K V} `{EqDecision K} (key : V → K) (l : list V)
    (d0 : pydict K V) :
  NoDup (dict_keys d0) → NoDup (dict_keys (dict_of_list key l d0)).
Proof.
  revert d0. induction l as [|y l IH]; intros d0 Hnd; simpl; [done|].
  apply IH. by apply dict_keys_set_NoDup.
Qed.

(** When the keys are pairwise distinct nothing is overwritten: the
    dictionary lists the records in their order. *)
Lemma dict_of_list_NoDup {K V} `{EqDecision K} (key : V → K) (l : list V) (d0 : pydict K V) :
  NoDup (dict_keys d0 ++ (key <$> l)) →
  dict_of_list key l d0 = d0 ++ ((fun y => (key y, y)) <$> l).
Proof.
  revert d0. induction l as [|y l IH]; intros d0 Hnd; simpl.
  - by rewrite app_nil_r.
  - assert (key y ∉ dict_keys d0) as Hfresh.
    { apply NoDup_app in Hnd as (_ & Hdisj & _). intros Hin. apply (Hdisj _ Hin). left. }
    rewrite IH.
    + rewrite dict_set_fresh by done. by rewrite <- app_assoc.
    + rewrite dict_set_fresh by done. unfold dict_keys in *.
      rewrite fmap_app. simpl. rewrite <- app_assoc. done.
Qed.

(** ** Invoices *)

Lemma entries_step_found (entriesdict : pydict (option string) Entry) (guid : option string)
    (acc : list Entry) (k : option string) (e : Entry) :
  dict_get k entriesdict = Some e →
  entries_step entriesdict guid acc k
  = Ok (acc ++ filter (fun e => Entry_invoice_guid e = guid) [e]).
Proof.
  intros Hget. unfold entries_step, dict_item. rewrite Hget. simpl.
  rewrite filter_cons, filter_nil. case_bool_decide.
  - by rewrite decide_True.
  - rewrite decide_False by done. by rewrite app_nil_r.
Qed.

(** The scan of [entriesdict] selects the entries of the invoice. *)
Lemma entries_scan (entriesdict : pydict (option string) Entry) (guid : option string)
    (l : list (option string * Entry)) (acc : list Entry) :
  NoDup (dict_keys entriesdict) → l ⊆ entriesdict →
  foldR (entries_step entriesdict guid) acc (dict_keys l)
  = Ok (acc ++ filter (fun e => Entry_invoice_guid e = guid) (dict_values l)).
Proof.
  intros Hnd. revert acc. induction l as [|[k e] l IH]; intros acc Hsub.
  - simpl. by rewrite app_nil_r.
  - change (dict_keys ((k, e) :: l)) with (k :: dict_keys l).
    change (dict_values ((k, e) :: l)) with ([e] ++ dict_values l).
    cbn [foldR].
    rewrite (entries_step_found entriesdict guid acc k e)
      by (apply dict_get_elem_NoDup; [done | apply Hsub; left]).
    simpl mbind. rewrite IH by (intros x Hx; apply Hsub; by right).
    by rewrite filter_app, app_assoc.
Qed.

Lemma invoice_entries_filter (tree : Element) customersdict entriesdict vendorsdict inv :
  NoDup (dict_keys entriesdict) →
  _invoice_from_tree tree customersdict entriesdict vendorsdict = Ok inv →
  Invoice_entries inv
  = filter (fun e => Entry_invoice_guid e = Invoice_guid inv) (dict_values entriesdict)
  ∧ text (find [invoice_ns +:+ "guid"] tree) = Ok (Invoice_guid inv).
Proof.
  intros Hnd H. unfold _invoice_from_tree in H.
  apply bind_Ok in H as (guid & Hguid & H).
  apply bind_Ok in H as (id & Hid & H).
  apply bind_Ok in H as (date & Hdate & H).
  destruct (find [invoice_ns +:+ "owner"] tree) as [owner_tree|]; [|done].
  apply bind_Ok in H as (owner_type & Htype & H).
  apply bind_Ok in H as (owner_id & Hoid & H).
  apply bind_Ok in H as (customer & Hc & H).
  apply bind_Ok in H as (vendor & Hv & H).
  apply bind_Ok in H as (active & Hact & H).
  apply bind_Ok in H as (entries & Hentries & [= <-]). simpl.
  rewrite entries_scan in Hentries by done. by injection Hentries as <-.
Qed.

(** ** The phases of a successful load *)

Lemma _book_from_tree_phases (tree : Element) (h0 : Heap) (book : Book) (h : Heap) :
  _book_from_tree (Some tree) h0 = Ok (book, h) → Phases tree h0 book h.
Proof.
  intros H. unfold _book_from_tree in H.
  apply bindS_Ok in H as (guid & ? & Hguid & H). apply lift_Ok in Hguid as [Hguid ->].
  apply bindS_Ok in H as ([commodities cd1] & h1 & Hc & H).
  apply bindS_Ok in H as ([prices cd] & h2 & Hp & H).
  apply bindS_Ok in H as ([[root_account accountdict] parentdict] & h3 & Ha & H).
  apply bindS_Ok in H as (accounts & h4 & Hl & H).
  apply bindS_Ok in H as (transactions & h5 & Ht & H).
  apply bindS_Ok in H as (customersdict & ? & Hcu & H). apply lift_Ok in Hcu as [Hcu ->].
  apply bindS_Ok in H as (vendorsdict & ? & Hve & H). apply lift_Ok in Hve as [Hve ->].
  apply bindS_Ok in H as (taxtablesdict & ? & Hta & H). apply lift_Ok in Hta as [Hta ->].
  apply bindS_Ok in H as (entriesdict & ? & Hen & H). apply lift_Ok in Hen as [Hen ->].
  apply bindS_Ok in H as (invoices & ? & Hin & H). apply lift_Ok in Hin as [Hin ->].
  apply bindS_Ok in H as (slots & ? & Hsl & H). apply lift_Ok in Hsl as [Hsl ->].
  apply retS_Ok in H as [-> ->].
  by econstructor.
Qed.

Lemma text_Ok_or_None (x : option Element) (t : option string) :
  text x = Ok t → text_or_None x = t.
Proof. destruct x; simpl; [by intros [= ->] | done]. Qed.

Lemma _entry_from_tree_guid (child : Element) taxtabledict (e : Entry) :
  _entry_from_tree child taxtabledict = Ok e →
  Entry_guid e = entry_guid child
  ∧ Entry_invoice_guid e = text_or_None (find [xml_entry +:+ "invoice"] child).
Proof.
  intros H. unfold _entry_from_tree in H.
  apply bind_Ok in H as (guid & Hguid & H).
  apply bind_Ok in H as (qty & Hqty & H).
  apply bind_Ok in H as (price & Hprice & H).
  apply bind_Ok in H as ([taxable taxtable] & Htax & [= <-]). simpl.
  unfold entry_guid. by rewrite (text_Ok_or_None _ _ Hguid).
Qed.

Lemma _invoice_from_tree_owner (tree : Element) customersdict entriesdict vendorsdict inv :
  _invoice_from_tree tree customersdict entriesdict vendorsdict = Ok inv →
  owner_resolved tree customersdict vendorsdict inv.
Proof.
  intros H. unfold _invoice_from_tree in H.
  apply bind_Ok in H as (guid & Hguid & H).
  apply bind_Ok in H as (id & Hid & H).
  apply bind_Ok in H as (date & Hdate & H).
  destruct (find [invoice_ns +:+ "owner"] tree) as [owner_tree|] eqn:Howner; [|done].
  apply bind_Ok in H as (owner_type & Htype & H).
  apply bind_Ok in H as (owner_id & Hoid & H).
  apply bind_Ok in H as (customer & Hc & H).
  apply bind_Ok in H as (vendor & Hv & H).
  apply bind_Ok in H as (active & Hact & H).
  apply bind_Ok in H as (entries & Hentries & [= <-]).
  exists owner_tree, owner_type, owner_id. simpl.
  split_and!; try done.
  - destruct (bool_decide (owner_type = Some "gncCustomer"%string)); [|by injection Hc].
    apply fmap_Ok in Hc as (c & Hc & ->). unfold dict_item in Hc.
    by destruct (dict_get owner_id customersdict); [injection Hc as -> |].
  - destruct (bool_decide (owner_type = Some "gncVendor"%string)); [|by injection Hv].
    apply fmap_Ok in Hv as (v & Hv & ->). unfold dict_item in Hv.
    by destruct (dict_get owner_id vendorsdict); [injection Hv as -> |].
  - intros ->. rewrite bool_decide_true in Hc by done.
    apply fmap_Ok in Hc as (c & _ & ->). by eexists.
  - intros ->. rewrite bool_decide_true in Hv by done.
    apply fmap_Ok in Hv as (v & _ & ->). by eexists.
Qed.

Lemma owner_resolved_at_most_one child customersdict vendorsdict inv :
  owner_resolved child customersdict vendorsdict inv →
  Invoice_customer inv = None ∨ Invoice_vendor inv = None.
Proof.
  intros (owner_tree & owner_type & owner_id & _ & _ & _ & Hc & Hv & _).
  rewrite Hc, Hv. repeat case_bool_decide; simplify_eq; auto.
Qed.

(** C4, as the code has it: in a loaded document whose entry records have
    pairwise distinct guids, the entry list of every invoice holds exactly
    the parsed entry records whose owning-invoice guid is the guid of the
    invoice, each once, wherever the entry and invoice records stand in the
    document. (Of entry records that share a guid the entries map keeps the
    last only.) *)
Theorem invoice_entries_by_guid (tree : Element) (h0 : Heap) (book : Book) (h : Heap) :
  _book_from_tree (Some tree) h0 = Ok (book, h) →
  NoDup (entry_guid <$> findall [gnc +:+ "GncEntry"] tree) →
  ∃ taxtablesdict (E : list Entry),
    Forall2 (fun child e => _entry_from_tree child taxtablesdict = Ok e)
      (findall [gnc +:+ "GncEntry"] tree) E
    ∧ Forall2 (fun child inv =>
                 text (find [invoice_ns +:+ "guid"] child) = Ok (Invoice_guid inv))
        (findall [gnc +:+ "GncInvoice"] tree) (Book_invoices book)
    ∧ ∀ inv, inv ∈ Book_invoices book →
        Invoice_entries inv ≡ₚ filter (fun e => Entry_invoice_guid e = Invoice_guid inv) E.
Proof.
  intros Hload Hnd. apply _book_from_tree_phases in Hload as []. subst book. simpl.
  apply foldR_dict in ph_entries as (E & HE & ->).
  apply foldR_collect in ph_invoices as (invs & Hinvs & ->). simpl.
  assert (Entry_guid <$> E = entry_guid <$> findall [gnc +:+ "GncEntry"] tree) as HEg.
  { clear -HE. induction HE as [|child e l E He _ IH]; [done|].
    rewrite !fmap_cons, IH. f_equal. by apply _entry_from_tree_guid in He as [-> _]. }
  assert (dict_of_list Entry_guid E [] = (fun y => (Entry_guid y, y)) <$> E) as Hdict.
  { rewrite dict_of_list_NoDup; [done|]. simpl. by rewrite HEg. }
  assert (NoDup (dict_keys (dict_of_list Entry_guid E []))) as Hkeys.
  { apply dict_of_list_keys_NoDup. constructor. }
  assert (dict_values (dict_of_list Entry_guid E []) = E) as Hvals.
  { rewrite Hdict. unfold dict_values. rewrite <- list_fmap_compose.
    clear. induction E as [|e E IH]; [done|]. by rewrite fmap_cons, IH. }
  exists taxtablesdict, E. split_and!; [done | |].
  - eapply Forall2_impl; [exact Hinvs|]. intros child inv Hinv. simpl in Hinv.
    by apply invoice_entries_filter in Hinv as [_ ?].
  - intros inv Hin. apply list_elem_of_lookup in Hin as (i & Hi).
    destruct (Forall2_lookup_r _ _ _ _ _ Hinvs Hi) as (child & _ & Hinv). simpl in Hinv.
    apply invoice_entries_filter in Hinv as [-> _]; [|done]. by rewrite Hvals.
Qed.

(** C5, as the code has it: an invoice never has both a customer and a
    vendor; the owner-type discriminator selects the map consulted, the
    customer map for [gncCustomer] and the vendor map for [gncVendor], the
    selected branch populates its field, and for any other owner type both
    fields stay empty. *)
Theorem invoice_owner_at_most_one (tree : Element) (h0 : Heap) (book : Book) (h : Heap) :
  _book_from_tree (Some tree) h0 = Ok (book, h) →
  ∃ customersdict vendorsdict,
    Forall2 (fun child inv => owner_resolved child customersdict vendorsdict inv)
      (findall [gnc +:+ "GncInvoice"] tree) (Book_invoices book)
    ∧ ∀ inv, inv ∈ Book_invoices book →
        Invoice_customer inv = None ∨ Invoice_vendor inv = None.
Proof.
  intros Hload. apply _book_from_tree_phases in Hload as []. subst book. simpl.
  apply foldR_collect in ph_invoices as (invs & Hinvs & ->). simpl.
  exists customersdict, vendorsdict.
  assert (Forall2 (fun child inv => owner_resolved child customersdict vendorsdict inv)
            (findall [gnc +:+ "GncInvoice"] tree) invs) as HF.
  { eapply Forall2_impl; [exact Hinvs|]. intros child inv Hinv. simpl in Hinv.
    by apply _invoice_from_tree_owner in Hinv. }
  split; [done|]. intros inv Hin. apply list_elem_of_lookup in Hin as (i & Hi).
  destruct (Forall2_lookup_r _ _ _ _ _ HF Hi) as (child & _ & Hinv).
  by eapply owner_resolved_at_most_one.
Qed.

(** ** Elements *)

Lemma findall_single (tag : string) (e : Element) :
  findall [tag] e = child_elements tag e.
Proof. unfold findall. simpl. by rewrite app_nil_r. Qed.

Lemma find_single_child (tag : string) (e c : Element) :
  find [tag] e = Some c → c ∈ Element_children e ∧ Element_tag c = tag.
Proof.
  unfold find. rewrite findall_single. unfold child_elements. intros H.
  apply head_Some_elem_of in H. by apply list_elem_of_filter in H as [? ?].
Qed.

Lemma height_child (e c : Element) : c ∈ Element_children e → (height c < height e)%nat.
Proof.
  destruct e as [t a x cs]. simpl. intros Hin. apply Nat.lt_succ_r.
  induction cs as [|c' cs IH]; [by apply elem_of_nil in Hin|].
  simpl. apply elem_of_cons in Hin as [->|Hin]; [lia|]. specialize (IH Hin). lia.
Qed.

(** ** Slots *)

(** The parser of nested frames matters to [slot_value] only at the value
    element itself. *)
Lemma slot_value_ext (rec1 rec2 : option Element → result Slots) (value : Element) :
  rec1 (Some value) = rec2 (Some value) → slot_value rec1 value = slot_value rec2 value.
Proof. intros H. unfold slot_value. by rewrite H. Qed.

Lemma slot_step_ext (rec1 rec2 : option Element → result Slots) (slots : Slots) (elt : Element) :
  (∀ value, value ∈ Element_children elt → rec1 (Some value) = rec2 (Some value)) →
  slot_step rec1 slots elt = slot_step rec2 slots elt.
Proof.
  intros H. unfold slot_step. destruct (text _); simpl; [|done].
  destruct (find [slot +:+ "value"] elt) as [value|] eqn:Hv; [|done].
  apply find_single_child in Hv as [Hv _]. by rewrite (slot_value_ext rec1 rec2 value (H _ Hv)).
Qed.

Lemma foldR_ext {A B} (f g : B → A → result B) (b : B) (l : list A) :
  (∀ b x, x ∈ l → f b x = g b x) → foldR f b l = foldR g b l.
Proof.
  revert b. induction l as [|x l IH]; intros b H; simpl; [done|].
  rewrite (H b x) by left. destruct (g b x); simpl; [|done].
  apply IH. intros b' y Hy. apply H. by right.
Qed.

(** Fuel beyond the height of the tree changes nothing. *)
Lemma slots_loop_fuel (fuel1 fuel2 : nat) (tree : Element) :
  (height tree ≤ fuel1)%nat → (height tree ≤ fuel2)%nat →
  slots_loop fuel1 (Some tree) = slots_loop fuel2 (Some tree).
Proof.
  revert fuel2 tree. induction fuel1 as [|fuel1 IH]; intros fuel2 tree H1 H2.
  { destruct tree; simpl in H1; lia. }
  destruct fuel2 as [|fuel2]; [destruct tree; simpl in H2; lia|].
  simpl. apply foldR_ext. intros slots elt Helt. apply slot_step_ext. intros value Hvalue.
  rewrite findall_single in Helt. apply list_elem_of_filter in Helt as [_ Helt].
  apply height_child in Helt. apply height_child in Hvalue.
  apply IH; lia.
Qed.

(** The recursion equation of [_slots_from_tree]. *)
Lemma _slots_from_tree_unfold (tree : Element) :
  _slots_from_tree (Some tree)
  = foldR (slot_step _slots_from_tree) [] (findall ["slot"%string] tree).
Proof.
  unfold _slots_from_tree at 1. simpl from_option.
  destruct (height tree) as [|fuel] eqn:Hh; [destruct tree; simpl in Hh; lia|].
  simpl. apply foldR_ext. intros slots elt Helt. apply slot_step_ext. intros value Hvalue.
  unfold _slots_from_tree. simpl from_option.
  rewrite findall_single in Helt. apply list_elem_of_filter in Helt as [_ Helt].
  apply height_child in Helt. apply height_child in Hvalue.
  apply slots_loop_fuel; lia.
Qed.


Lemma slot_step_Ok (rec : option Element → result Slots) (slots slots' : Slots)
    (elt : Element) :
  slot_step rec slots elt = Ok slots' ↔
  ∃ k value v, slot_key elt = Ok k ∧ find [slot +:+ "value"] elt = Some value
               ∧ slot_value rec value = Ok v ∧ slots' = dict_set k v slots.
Proof.
  unfold slot_step, slot_key. split.
  - intros H. apply bind_Ok in H as (k & Hk & H).
    destruct (find [slot +:+ "value"] elt) as [value|]; [|done].
    apply bind_Ok in H as (v & Hv & [= <-]). by exists k, value, v.
  - intros (k & value & v & -> & -> & Hv & ->). simpl. by rewrite Hv.
Qed.


(** ** The shape of the fraction parser's results *)

Lemma _fix_finite_two_places (s : bool) (c : Z) (d : Decimal) :
  (ndigits c <= prec)%Z → _fix_finite s c (-2) = Ok d → d = Finite s c (-2).
Proof.
  intros Hn. unfold _fix_finite.
  destruct (c =? 0)%Z eqn:Hc.
  { apply Z.eqb_eq in Hc as ->. by intros [= <-]. }
  assert ((Etop <? ndigits c + -2 - prec)%Z = false) as ->.
  { apply Z.ltb_ge. unfold Etop, Emax, prec in *. lia. }
  destruct (ndigits c + -2 - prec <? Etiny)%Z.
  - assert ((-2 <? Etiny)%Z = false) as -> by done. by intros [= <-].
  - assert ((-2 <? ndigits c + -2 - prec)%Z = false) as ->.
    { apply Z.ltb_ge. unfold prec in *. lia. }
    by intros [= <-].
Qed.

Lemma quantize_cent_two_places (a : Decimal) (r : rounding) (d : Decimal) :
  quantize a cent r = Ok d → two_places_or_NaN d.
Proof.
  unfold quantize, cent. destruct a as [s c e|s|s sg p]; simpl.
  - destruct (c =? 0)%Z eqn:Hc.
    { intros [= <-]. done. }
    destruct (Emax <? adjusted c e)%Z; [done|].
    destruct (prec <? adjusted c e - -2 + 1)%Z; [done|].
    unfold _rescale.
    destruct (-2 <=? e)%Z.
    + destruct (Emax <? _)%Z; [done|]. destruct (prec <? _)%Z eqn:Hp; [done|].
      apply Z.ltb_ge in Hp. intros H. by apply _fix_finite_two_places in H as ->.
    + destruct (ndigits c + e - -2 <? 0)%Z.
      * destruct (Emax <? _)%Z; [done|]. destruct (prec <? _)%Z eqn:Hp; [done|].
        apply Z.ltb_ge in Hp. intros H. by apply _fix_finite_two_places in H as ->.
      * destruct (Emax <? _)%Z; [done|]. destruct (prec <? _)%Z eqn:Hp; [done|].
        apply Z.ltb_ge in Hp. intros H. by apply _fix_finite_two_places in H as ->.
  - done.
  - destruct sg; [done|]. by intros [= <-].
Qed.

Lemma _parse_number_two_places (numstring : option string) (d : Decimal) :
  _parse_number numstring = Ok d → two_places_or_NaN d.
Proof.
  unfold _parse_number. destruct numstring as [s|]; [|done].
  destruct (py_split "/" s) as [|num [|denum [|? ?]]]; try done.
  intros H. apply bind_Ok in H as (a & _ & H). apply bind_Ok in H as (b & _ & H).
  apply bind_Ok in H as (q & _ & H). apply bind_Ok in H as (q' & _ & H).
  by apply quantize_cent_two_places in H.
Qed.



(** ** Walking the account tree *)

Lemma forest_size_app (q1 q2 : list AccountTree) :
  forest_size (q1 ++ q2) = (forest_size q1 + forest_size q2)%nat.
Proof. induction q1 as [|t q1 IH]; simpl; [done|]. rewrite IH. lia. Qed.

Lemma forest_size_step (q : list AccountTree) :
  forest_size q = (length q + forest_size (q ≫= tree_subtrees))%nat.
Proof.
  induction q as [|[r ts] q IH]; [done|].
  rewrite bind_cons, forest_size_app. simpl tree_subtrees.
  change (forest_size (ATree r ts :: q)) with (S (forest_size ts) + forest_size q)%nat.
  rewrite IH. simpl length. lia.
Qed.

Lemma forest_represented_app (h : Heap) (q1 q2 : list AccountTree) :
  forest_represented h (q1 ++ q2) ↔ forest_represented h q1 ∧ forest_represented h q2.
Proof. induction q1 as [|t q1 IH]; simpl; [tauto|]. rewrite IH. tauto. Qed.

Lemma forest_represented_subtrees (h : Heap) (q : list AccountTree) :
  forest_represented h q → forest_represented h (q ≫= tree_subtrees).
Proof.
  induction q as [|[r ts] q IH]; [done|]. intros [[_ Hts] Hq].
  rewrite bind_cons. apply forest_represented_app. split; [done | by apply IH].
Qed.

Lemma level_order_nil (n : nat) : level_order n [] = [].
Proof. induction n as [|n IH]; simpl; [done | by rewrite IH]. Qed.

Lemma walk_loop_more_fuel (h : Heap) (fuel fuel' : nat) (l : list nat) out :
  walk_loop h fuel l = Some out → (fuel ≤ fuel')%nat → walk_loop h fuel' l = Some out.
Proof.
  revert fuel' l out. induction fuel as [|fuel IH]; intros fuel' l out.
  - destruct l; simpl; [|done]. intros [= <-] _. by destruct fuel'.
  - destruct l as [|acc l]; simpl.
    { intros [= <-] _. by destruct fuel'. }
    destruct (walk_loop h fuel _) as [rest|] eqn:Hrest; [|done]. simpl.
    intros [= <-] Hle. destruct fuel' as [|fuel']; [lia|]. simpl.
    by rewrite (IH fuel' _ rest Hrest) by lia.
Qed.

(** The queue discipline: the accounts at the front of the queue are
    yielded in order, while their children line up behind the rest. *)
Lemma walk_loop_front (h : Heap) (q : list AccountTree) (l : list nat) (fuel : nat) :
  forest_represented h q →
  walk_loop h (length q + fuel) ((tree_root <$> q) ++ l)
  = (fun rest => (yielded h <$> (tree_root <$> q)) ++ rest)
      <$> walk_loop h fuel (l ++ (tree_root <$> (q ≫= tree_subtrees))).
Proof.
  revert l. induction q as [|[r ts] q IH]; intros l Hq.
  - simpl. rewrite app_nil_r. by destruct (walk_loop h fuel l).
  - destruct Hq as [[Hr Hts] Hq]. rewrite bind_cons.
    change (tree_subtrees (ATree r ts)) with ts.
    change (length (ATree r ts :: q) + fuel)%nat with (S (length q + fuel)).
    rewrite !fmap_cons. change (tree_root (ATree r ts)) with r.
    rewrite <- app_comm_cons. cbn [walk_loop]. rewrite Hr, <- app_assoc.
    rewrite IH by done. rewrite fmap_app, app_assoc.
    destruct (walk_loop h fuel _); [|done]. cbn. unfold yielded at 2. by rewrite Hr.
Qed.

Lemma walk_loop_level_order (h : Heap) (n : nat) (q : list AccountTree) :
  forest_represented h q → (forest_size q ≤ n)%nat →
  walk_loop h (forest_size q) (tree_root <$> q) = Some (yielded h <$> level_order n q).
Proof.
  revert q. induction n as [|n IH]; intros q Hq Hn.
  - destruct q as [|[r ts] q]; [done | simpl in Hn; lia].
  - destruct q as [|t q].
    { simpl. by rewrite level_order_nil. }
    rewrite forest_size_step.
    pose proof (walk_loop_front h (t :: q) [] (forest_size ((t :: q) ≫= tree_subtrees)) Hq) as Hf.
    rewrite app_nil_r in Hf. rewrite Hf, app_nil_l.
    rewrite IH.
    + cbn [level_order fmap option_fmap option_map]. by rewrite fmap_app.
    + by apply forest_represented_subtrees.
    + rewrite forest_size_step in Hn. simpl length in Hn. lia.
Qed.

Lemma forest_accounts_app (q1 q2 : list AccountTree) :
  forest_accounts (q1 ++ q2) = forest_accounts q1 ++ forest_accounts q2.
Proof. induction q1 as [|t q1 IH]; simpl; [done|]. by rewrite IH, app_assoc. Qed.

Lemma forest_accounts_step (q : list AccountTree) :
  forest_accounts q ≡ₚ (tree_root <$> q) ++ forest_accounts (q ≫= tree_subtrees).
Proof.
  induction q as [|[r ts] q IH]; [done|].
  rewrite bind_cons, forest_accounts_app, fmap_cons. simpl tree_subtrees. simpl tree_root.
  change (forest_accounts (ATree r ts :: q))
    with (r :: forest_accounts ts ++ forest_accounts q).
  rewrite IH. simpl. constructor.
  rewrite !app_assoc. apply Permutation_app_tail, Permutation_app_comm.
Qed.

Lemma level_order_accounts (n : nat) (q : list AccountTree) :
  (forest_size q ≤ n)%nat → level_order n q ≡ₚ forest_accounts q.
Proof.
  revert q. induction n as [|n IH]; intros q Hn.
  - destruct q as [|[r ts] q]; [done | simpl in Hn; lia].
  - simpl. rewrite forest_accounts_step. apply Permutation_app_head.
    destruct q as [|t q]; [by rewrite level_order_nil|].
    apply IH. rewrite forest_size_step in Hn. simpl length in Hn. lia.
Qed.

Lemma yielded_accounts (h : Heap) (l : list nat) : (yielded h <$> l).*1.*1 = l.
Proof. induction l as [|a l IH]; [done|]. by rewrite !fmap_cons, IH. Qed.

Lemma yielded_splits (h : Heap) (l : list nat) :
  (yielded h <$> l).*2 = (fun acc => Account_splits (heap_accounts h !!! acc)) <$> l.
Proof. induction l as [|a l IH]; [done|]. by rewrite !fmap_cons, IH. Qed.

(** C6: on a finite tree of accounts in which every account stands once,
    [walk] stops after as many turns as the tree has accounts; it yields the
    accounts in breadth-first order with their children and splits, every
    account of the tree exactly once, and the split lists yielded, put
    together, are the splits attached to the accounts of the tree, each as
    often as it is attached (once, when the attached splits are distinct). *)
Theorem walk_yields_each_account_once (h : Heap) (t : AccountTree) :
  represents h t →
  NoDup (tree_accounts t) →
  ∃ out,
    (∀ fuel, (tree_size t ≤ fuel)%nat → Account_walk h fuel (tree_root t) = Some out)
    ∧ out = yielded h <$> level_order (tree_size t) [t]
    ∧ out.*1.*1 ≡ₚ tree_accounts t
    ∧ NoDup (out.*1.*1)
    ∧ concat (out.*2)
      ≡ₚ concat ((fun acc => Account_splits (heap_accounts h !!! acc)) <$> tree_accounts t)
    ∧ (NoDup (concat ((fun acc => Account_splits (heap_accounts h !!! acc))
                        <$> tree_accounts t)) →
       NoDup (concat (out.*2))).
Proof.
  intros Hrep Hnd.
  assert (forest_represented h [t]) as Hq by (simpl; auto).
  assert (forest_size [t] = tree_size t) as Hsize by (simpl; lia).
  pose proof (walk_loop_level_order h (tree_size t) [t] Hq) as Hwalk.
  rewrite Hsize in Hwalk. specialize (Hwalk (le_n _)). simpl fmap in Hwalk.
  assert (level_order (tree_size t) [t] ≡ₚ tree_accounts t) as Hperm.
  { rewrite level_order_accounts by lia. simpl. by rewrite app_nil_r. }
  pose proof (yielded_accounts h (level_order (tree_size t) [t])) as Hfst.
  assert (concat (yielded h <$> level_order (tree_size t) [t]).*2
          ≡ₚ concat ((fun acc => Account_splits (heap_accounts h !!! acc)) <$> tree_accounts t))
    as Hsplits.
  { rewrite yielded_splits. by rewrite Hperm. }
  eexists. split_and!; [| reflexivity | | | done |].
  - intros fuel Hfuel. unfold Account_walk. by eapply walk_loop_more_fuel.
  - by rewrite Hfst.
  - by rewrite Hfst, Hperm.
  - intros Hnd'. by rewrite Hsplits.
Qed.

(** ** Dictionaries filled by a loop *)

Lemma dict_of_pairs_snoc {K V} `{EqDecision K} (l : list (K * V)) (k : K) (v : V) :
  dict_of_pairs (l ++ [(k, v)]) = dict_set k v (dict_of_pairs l).
Proof. unfold dict_of_pairs. by rewrite fold_left_app. Qed.

Lemma dict_of_pairs_keys_NoDup {K V} `{EqDecision K} (l : list (K * V)) :
  NoDup (dict_keys (dict_of_pairs l)).
Proof.
  induction l as [|[k v] l IH] using rev_ind; [constructor|].
  rewrite dict_of_pairs_snoc. by apply dict_keys_set_NoDup.
Qed.

(** A key is bound to the value of its last assignment. *)
Lemma dict_of_pairs_spec {K V} `{EqDecision K} (l : list (K * V)) (k : K) (v : V) :
  dict_get k (dict_of_pairs l) = Some v ↔
  ∃ i, l !! i = Some (k, v) ∧ ∀ j kv, (i < j)%nat → l !! j = Some kv → kv.1 ≠ k.
Proof.
  revert v. induction l as [|[k0 v0] l IH] using rev_ind; intros v.
  { split; [done|]. by intros (i & Hi & _). }
  rewrite dict_of_pairs_snoc. destruct (decide (k0 = k)) as [->|Hne].
  - rewrite dict_get_set_eq. split.
    + intros [= <-]. exists (length l). split; [by rewrite list_lookup_middle|].
      intros j kv Hj Hlook. apply lookup_lt_Some in Hlook.
      rewrite length_app in Hlook. simpl in Hlook. lia.
    + intros (i & Hi & Hlast). destruct (decide (i = length l)) as [->|Hi'].
      * rewrite list_lookup_middle in Hi by done. congruence.
      * exfalso. assert (i < length l)%nat as Hlt.
        { apply lookup_lt_Some in Hi. rewrite length_app in Hi. simpl in Hi. lia. }
        apply (Hlast (length l) (k, v0) Hlt); [by rewrite list_lookup_middle | done].
  - rewrite dict_get_set_ne by done. rewrite IH. split.
    + intros (i & Hi & Hlast). exists i. split; [by apply lookup_app_l_Some|].
      intros j kv Hj Hlook. destruct (decide (j < length l)%nat) as [Hlt|Hge].
      * rewrite lookup_app_l in Hlook by done. by eapply Hlast.
      * assert (j = length l) as ->.
        { apply lookup_lt_Some in Hlook. rewrite length_app in Hlook. simpl in Hlook. lia. }
        rewrite list_lookup_middle in Hlook by done. injection Hlook as <-. simpl.
        by intros ->.
    + intros (i & Hi & Hlast).
      assert (i < length l)%nat as Hlt.
      { destruct (decide (i < length l)%nat) as [|Hge]; [done|]. exfalso.
        assert (i = length l) as ->.
        { apply lookup_lt_Some in Hi. rewrite length_app in Hi. simpl in Hi. lia. }
        rewrite list_lookup_middle in Hi by done. congruence. }
      exists i. split; [by rewrite lookup_app_l in Hi|].
      intros j kv Hj Hlook. apply (Hlast j kv Hj). by apply lookup_app_l_Some.
Qed.

Lemma dict_of_pairs_NoDup_lookup {K V} `{EqDecision K} (l : list (K * V)) (i : nat)
    (k : K) (v : V) :
  NoDup l.*1 → l !! i = Some (k, v) → dict_get k (dict_of_pairs l) = Some v.
Proof.
  intros Hnd Hi. apply dict_of_pairs_spec. exists i. split; [done|].
  intros j [k' v'] Hj Hlook. simpl. intros ->.
  assert (i = j); [|lia].
  eapply NoDup_lookup; [exact Hnd | |]; rewrite list_lookup_fmap.
  - by rewrite Hi.
  - by rewrite Hlook.
Qed.

Lemma dict_values_elem {K V} `{EqDecision K} (d : pydict K V) (v : V) :
  NoDup (dict_keys d) → v ∈ dict_values d → ∃ k, dict_get k d = Some v.
Proof.
  intros Hnd Hin. unfold dict_values in Hin.
  apply list_elem_of_fmap in Hin as ([k v'] & -> & Hin).
  exists k. by apply dict_get_elem_NoDup.
Qed.

Lemma dict_get_values {K V} `{EqDecision K} (d : pydict K V) (k : K) (v : V) :
  dict_get k d = Some v → v ∈ dict_values d.
Proof.
  intros H. apply dict_get_Some_elem in H. unfold dict_values.
  apply list_elem_of_fmap. by exists (k, v).
Qed.

(** ** Accounts: pass 1 *)

Lemma text_find_Ok (path : list string) (e : Element) (t : option string) :
  text (find path e) = Ok t ↔ ∃ x, find path e = Some x ∧ Element_text x = t.
Proof.
  destruct (find path e) as [x|]; simpl; split.
  - intros [= <-]. by exists x.
  - by intros (x' & [= <-] & <-).
  - done.
  - by intros (x' & [=] & _).
Qed.

Lemma _account_from_tree_Ok (child : Element) (cd : CommodityDict) (h : Heap)
    (pg : option string) (acc : nat) (h' : Heap) :
  _account_from_tree child cd h = Ok ((pg, acc), h') →
  ∃ a, account_built cd child pg a
       ∧ acc = length (heap_accounts h)
       ∧ h' = with_accounts (fun l => l ++ [a]) h.
Proof.
  intros H. unfold _account_from_tree in H.
  apply bindS_Ok in H as (name & ? & Hname & H). apply lift_Ok in Hname as [Hname ->].
  apply bindS_Ok in H as (guid & ? & Hguid & H). apply lift_Ok in Hguid as [Hguid ->].
  apply bindS_Ok in H as (actype & ? & Htype & H). apply lift_Ok in Htype as [Htype ->].
  apply bindS_Ok in H as (slots & ? & Hslots & H). apply lift_Ok in Hslots as [Hslots ->].
  apply bindS_Ok in H as ([[pg' commodity] scu] & h1 & Hc & H).
  apply bindS_Ok in H as (acc' & h2 & Hnew & H).
  apply retS_Ok in H as [[= Hpg' Hacc'] ->]. subst pg' acc'.
  apply text_Ok_or_None in Hname, Hguid, Htype.
  assert (h1 = h ∧
          if is_ROOT actype then pg = None ∧ commodity = None
          else pg = declared_parent child
               ∧ ∃ key c, commodity_key [act +:+ "commodity"] child = Some key
                          ∧ dict_get key cd = Some c ∧ commodity = Some c) as [-> Hcomm].
  { destruct (is_ROOT actype).
    - apply retS_Ok in Hc as [[= -> -> ->] ->]. done.
    - apply bindS_Ok in Hc as (pg1 & ? & Hpg & Hc). apply lift_Ok in Hpg as [Hpg ->].
      apply bindS_Ok in Hc as (space & ? & Hsp & Hc). apply lift_Ok in Hsp as [Hsp ->].
      apply bindS_Ok in Hc as (cname & ? & Hcn & Hc). apply lift_Ok in Hcn as [Hcn ->].
      apply bindS_Ok in Hc as (scu1 & ? & Hscu & Hc). apply lift_Ok in Hscu as [Hscu ->].
      apply bindS_Ok in Hc as (c & ? & Hitem & Hc). apply lift_Ok in Hitem as [Hitem ->].
      apply retS_Ok in Hc as [[= -> -> ->] ->].
      split; [done|]. split; [by apply text_Ok_or_None in Hpg|].
      apply text_find_Ok in Hsp as (xs & Hxs & <-). apply text_find_Ok in Hcn as (xn & Hxn & <-).
      exists (Element_text xs, Element_text xn), c. split_and!; [|  | done].
      + unfold commodity_key. simpl app. rewrite Hxs. simpl. by rewrite Hxn.
      + unfold dict_item in Hitem. by destruct (dict_get _ cd); [injection Hitem as -> |]. }
  unfold new_Account in Hnew. injection Hnew as <- <-.
  eexists. split_and!; [|done..]. unfold account_built. simpl.
  unfold account_name_of, account_guid_of, account_type_of.
  rewrite Hname, Hguid, Htype. by split_and!.
Qed.

Lemma lookup_total_snoc {A} `{Inhabited A} (l : list A) (x : A) :
  (l ++ [x]) !!! length l = x.
Proof. apply list_lookup_total_correct. by rewrite list_lookup_middle. Qed.

Lemma account_step_Ok (cd : CommodityDict) root ad pd (child : Element) (h : Heap)
    root' ad' pd' (h' : Heap) :
  account_step cd (root, ad, pd) child h = Ok ((root', ad', pd'), h') →
  ∃ pg a, account_built cd child pg a
          ∧ h' = with_accounts (fun l => l ++ [a]) h
          ∧ ad' = dict_set (Account_guid a) (length (heap_accounts h)) ad
          ∧ pd' = dict_set (Account_guid a) pg pd
          ∧ root' = if is_ROOT (Account_actype a) then Some (length (heap_accounts h))
                    else root.
Proof.
  intros H. unfold account_step in H.
  apply bindS_Ok in H as ([pg acc] & h1 & Hacc & H).
  apply _account_from_tree_Ok in Hacc as (a & Hbuilt & -> & ->).
  apply bindS_Ok in H as (a' & h2 & Hread & H).
  unfold read_account in Hread. injection Hread as <- <-.
  apply retS_Ok in H as [[= -> -> ->] ->].
  simpl. rewrite lookup_total_snoc. by exists pg, a.
Qed.

(** After pass 1 the store holds one account for each account element, in
    document order, and the two dictionaries are keyed by their guids. *)
Lemma pass1_spec (cd : CommodityDict) (es : list Element) (h : Heap) root ad pd (h' : Heap) :
  foldM (account_step cd) (None, [], []) es h = Ok ((root, ad, pd), h') →
  ∃ rs : list (option string * Account),
    Forall2 (fun child r => account_built cd child r.1 r.2) es rs
    ∧ h' = with_accounts (fun l => l ++ rs.*2) h
    ∧ ad = dict_of_pairs
             (imap (fun i r => (Account_guid r.2, (length (heap_accounts h) + i)%nat)) rs)
    ∧ pd = dict_of_pairs ((fun r => (Account_guid r.2, r.1)) <$> rs).
Proof.
  intros H.
  apply (foldM_invariant (fun done st h1 =>
    ∃ rs : list (option string * Account),
      Forall2 (fun child r => account_built cd child r.1 r.2) done rs
      ∧ h1 = with_accounts (fun l => l ++ rs.*2) h
      ∧ st.1.2 = dict_of_pairs
                 (imap (fun i r => (Account_guid r.2, (length (heap_accounts h) + i)%nat)) rs)
      ∧ st.2 = dict_of_pairs ((fun r => (Account_guid r.2, r.1)) <$> rs))) in H.
  - destruct H as (rs & ? & ? & ? & ?). by exists rs.
  - exists []. split_and!; [constructor | | done | done].
    destruct h. unfold with_accounts. simpl. by rewrite app_nil_r.
  - intros done child [[root1 ad1] pd1] h1 [[root2 ad2] pd2] h2 (rs & HF & -> & Had & Hpd) _ Hstep.
    simpl in Had, Hpd. subst ad1 pd1.
    apply account_step_Ok in Hstep as (pg & a & Hbuilt & -> & -> & -> & _).
    exists (rs ++ [(pg, a)]). split_and!.
    + apply Forall2_app; [done|]. by constructor.
    + unfold with_accounts. simpl. by rewrite fmap_app, app_assoc.
    + simpl. rewrite imap_app. simpl. rewrite dict_of_pairs_snoc.
      rewrite length_app, length_fmap, Nat.add_0_r. done.
    + simpl. rewrite fmap_app. simpl. by rewrite dict_of_pairs_snoc.
Qed.

(** ** Accounts: pass 2 *)

Lemma Forall2_alter_static (f : Account → Account) (i : nat) (l l' : list Account) :
  (∀ a, account_static (f a) = account_static a) →
  Forall2 (fun a a' => account_static a = account_static a') l l' →
  Forall2 (fun a a' => account_static a = account_static a') l (alter f i l').
Proof.
  intros Hf HF. apply Forall2_alter_r; [done|]. intros a a' _ _ ->. by rewrite Hf.
Qed.

Lemma link_step_Ok (ad : AccountDict) (pd : ParentDict) (accounts : list nat) (acc : nat)
    (h : Heap) (accounts' : list nat) (h' : Heap) (a : Account) :
  link_step ad pd accounts acc h = Ok (accounts', h') →
  heap_accounts h !! acc = Some a →
  (Account_parent a = None ∧ is_ROOT (Account_actype a) = false
   ∧ ∃ pg p, dict_get (Account_guid a) pd = Some pg ∧ dict_get pg ad = Some p
             ∧ accounts' = accounts ++ [acc]
             ∧ h' = with_accounts (fun l => alter (append_child acc) p
                                              (alter (set_parent p) acc l)) h)
  ∨ ((is_Some (Account_parent a) ∨ is_ROOT (Account_actype a) = true)
     ∧ accounts' = accounts ∧ h' = h).
Proof.
  intros H Ha. unfold link_step in H.
  apply bindS_Ok in H as (a' & h1 & Hread & H).
  unfold read_account in Hread. injection Hread as <- <-.
  rewrite (list_lookup_total_correct _ _ _ Ha) in H.
  destruct (Account_parent a) as [p0|] eqn:Hp; simpl in H.
  { apply retS_Ok in H as [-> ->]. right. split_and!; [left; by eexists | done..]. }
  destruct (is_ROOT (Account_actype a)) eqn:Hroot; simpl in H.
  { apply retS_Ok in H as [-> ->]. right. split_and!; [by right | done..]. }
  left. split_and!; [done..|].
  apply bindS_Ok in H as (pg & ? & Hpg & H). apply lift_Ok in Hpg as [Hpg ->].
  apply bindS_Ok in H as (p & ? & Hpar & H). apply lift_Ok in Hpar as [Hpar ->].
  apply bindS_Ok in H as ([] & h1 & Hu1 & H). unfold update_account in Hu1.
  injection Hu1 as <-.
  apply bindS_Ok in H as ([] & h2 & Hu2 & H). unfold update_account in Hu2.
  injection Hu2 as <-.
  apply retS_Ok in H as [-> ->].
  unfold dict_item in Hpg, Hpar.
  destruct (dict_get (Account_guid a) pd) as [pg'|] eqn:Hgpg; [injection Hpg as ->|done].
  destruct (dict_get pg ad) as [p'|] eqn:Hgp; [injection Hpar as ->|done].
  exists pg, p. split_and!; [done..|]. by destruct h.
Qed.

Lemma lookup_relink (acc p i : nat) (l : list Account) :
  alter (append_child acc) p (alter (set_parent p) acc l) !! i = relink acc p i <$> l !! i.
Proof.
  unfold relink. destruct (decide (i = p)) as [Hp|Hp], (decide (i = acc)) as [Hacc|Hacc].
  - subst p i. rewrite !list_lookup_alter_eq. by destruct (l !! acc).
  - subst p. rewrite list_lookup_alter_eq, list_lookup_alter_ne by done. by destruct (l !! i).
  - subst i. rewrite list_lookup_alter_ne, list_lookup_alter_eq by done. by destruct (l !! acc).
  - rewrite !list_lookup_alter_ne by done. by destruct (l !! i).
Qed.

Lemma relink_static (acc p i : nat) (a : Account) :
  account_static (relink acc p i a) = account_static a
  ∧ Account_splits (relink acc p i a) = Account_splits a.
Proof. unfold relink. by destruct (decide (i = p)), (decide (i = acc)). Qed.

Lemma relink_parent (acc p i : nat) (a : Account) :
  Account_parent (relink acc p i a) = if decide (i = acc) then Some p else Account_parent a.
Proof. unfold relink. by destruct (decide (i = p)), (decide (i = acc)). Qed.

Lemma relink_children (acc p i : nat) (a : Account) :
  Account_children (relink acc p i a)
  = if decide (i = p) then Account_children a ++ [acc] else Account_children a.
Proof. unfold relink. by destruct (decide (i = p)), (decide (i = acc)). Qed.

Lemma pass2_step (ad : AccountDict) (pd : ParentDict) (h3 : Heap) (done accounts : list nat)
    (h : Heap) (acc : nat) (accounts' : list nat) (h' : Heap) :
  (∀ v, v ∈ dict_values ad → (v < length (heap_accounts h3))%nat) →
  acc ∈ dict_values ad →
  pass2_invariant ad pd h3 done accounts h →
  link_step ad pd accounts acc h = Ok (accounts', h') →
  pass2_invariant ad pd h3 (done ++ [acc]) accounts' h'.
Proof.
  intros Hvalid Hacc (Hc & Ht & Hs & Hstatic & Hlinked & Hdone & Haccounts) Hstep.
  assert (length (heap_accounts h) = length (heap_accounts h3)) as Hlen.
  { symmetry. by eapply Forall2_length. }
  destruct (lookup_lt_is_Some_2 (heap_accounts h) acc) as [a Ha].
  { rewrite Hlen. by apply Hvalid. }
  destruct (link_step_Ok _ _ _ _ _ _ _ _ Hstep Ha)
    as [(Hpar & Hroot & pg & p & Hpg & Hp & -> & ->)|(Hcond & -> & ->)].
  - destruct (lookup_lt_is_Some_2 (heap_accounts h) p) as [pa Hpa].
    { rewrite Hlen. apply Hvalid. by eapply dict_get_values. }
    unfold pass2_invariant. simpl. split_and!; try done.
    + apply Forall2_same_length_lookup_2.
      { by rewrite !length_alter. }
      intros i a3 a' H3 H'. rewrite lookup_relink in H'.
      destruct (heap_accounts h !! i) as [a0|] eqn:H0; [|done]. injection H' as <-.
      pose proof (Forall2_lookup_lr _ _ _ _ _ _ Hstatic H3 H0) as [-> ->].
      by destruct (relink_static acc p i a0) as [-> ->].
    + intros acc1 a1 p1 H1 Hp1. cbn [heap_accounts with_accounts] in H1 |- *.
      rewrite lookup_relink in H1.
      destruct (heap_accounts h !! acc1) as [a0|] eqn:H0; [|done]. injection H1 as <-.
      rewrite relink_parent in Hp1.
      destruct (relink_static acc p acc1 a0) as [Hst _].
      assert (Account_actype (relink acc p acc1 a0) = Account_actype a0
              ∧ Account_guid (relink acc p acc1 a0) = Account_guid a0) as [-> ->].
      { unfold account_static in Hst. by injection Hst as _ -> -> _. }
      destruct (decide (acc1 = acc)) as [->|Hne].
      * injection Hp1 as <-. assert (a0 = a) as -> by congruence.
        split_and!; [done | by exists pg | | ].
        -- exists (relink acc p p pa). rewrite lookup_relink, Hpa. split; [done|].
           rewrite relink_children, decide_True by done. apply elem_of_app. right. left.
        -- apply elem_of_app. right. left.
      * destruct (Hlinked acc1 a0 p1 H0 Hp1) as (Hr & Hres & (pa1 & Hpa1 & Hin) & Hinacc).
        split_and!; [done | done | | ].
        -- exists (relink acc p p1 pa1). rewrite lookup_relink, Hpa1. split; [done|].
           rewrite relink_children. destruct (decide (p1 = p)); [|done].
           apply elem_of_app. by left.
        -- apply elem_of_app. by left.
    + intros acc1 a1 Hin H1 Hr1. rewrite lookup_relink in H1.
      destruct (heap_accounts h !! acc1) as [a0|] eqn:H0; [|done]. injection H1 as <-.
      rewrite relink_parent. destruct (decide (acc1 = acc)) as [->|Hne]; [by eexists|].
      apply elem_of_app in Hin as [Hin|Hin].
      * apply (Hdone acc1 a0 Hin H0).
        destruct (relink_static acc p acc1 a0) as [Hst _].
        unfold account_static in Hst. injection Hst as _ _ Hty _. by rewrite <- Hty.
      * apply list_elem_of_singleton in Hin. done.
    + intros acc1 Hin. rewrite lookup_relink.
      apply elem_of_app in Hin as [Hin|Hin].
      * destruct (Haccounts acc1 Hin) as (a1 & H1 & Hsome). rewrite H1.
        exists (relink acc p acc1 a1). split; [done|]. rewrite relink_parent.
        by destruct (decide (acc1 = acc)).
      * apply list_elem_of_singleton in Hin as ->. rewrite Ha.
        exists (relink acc p acc a). split; [done|]. rewrite relink_parent.
        by rewrite decide_True.
  - unfold pass2_invariant. split_and!; try done.
    intros acc1 a1 Hin H1 Hr1. apply elem_of_app in Hin as [Hin|Hin].
    + by apply (Hdone acc1 a1).
    + apply list_elem_of_singleton in Hin as ->. assert (a1 = a) as -> by congruence.
      destruct Hcond as [Hsome|Hr]; [done | congruence].
Qed.

Lemma pass2_spec (ad : AccountDict) (pd : ParentDict) (h3 : Heap) (accounts : list nat)
    (h4 : Heap) :
  (∀ v, v ∈ dict_values ad → (v < length (heap_accounts h3))%nat) →
  (∀ i a, heap_accounts h3 !! i = Some a → Account_parent a = None) →
  foldM (link_step ad pd) [] (dict_values ad) h3 = Ok (accounts, h4) →
  pass2_invariant ad pd h3 (dict_values ad) accounts h4.
Proof.
  intros Hvalid Hnone H.
  apply (foldM_invariant (fun done accounts h => pass2_invariant ad pd h3 done accounts h))
    in H; [done | |].
  - unfold pass2_invariant. split_and!; try done.
    + apply Forall2_same_length_lookup_2; [done|]. intros i a a' Ha Ha'. by simplify_eq.
    + intros acc a p Ha Hp. by rewrite (Hnone _ _ Ha) in Hp.
    + intros acc a Hin. by apply elem_of_nil in Hin.
    + intros acc Hin. by apply elem_of_nil in Hin.
  - intros done acc accounts1 h1 accounts2 h2 Hinv Hprefix Hstep.
    eapply pass2_step; [done | | done | done].
    destruct Hprefix as [rest ->]. apply elem_of_app. left. apply elem_of_app. right. left.
Qed.

(** ** Transactions and splits leave the tree alone *)

Lemma tx_frame_refl (h : Heap) : tx_frame h h.
Proof.
  split_and!; [done | | by eauto].
  apply Forall2_same_length_lookup_2; [done|]. intros i a a' Ha Ha'. by simplify_eq.
Qed.

Lemma tx_frame_trans (h1 h2 h3 : Heap) : tx_frame h1 h2 → tx_frame h2 h3 → tx_frame h1 h3.
Proof.
  intros (Hc1 & Ha1 & Ht1) (Hc2 & Ha2 & Ht2). split_and!.
  - congruence.
  - eapply Forall2_trans; [|done..]. intros a b c [-> ->] [-> ->]. done.
  - intros t tr Htr. destruct (Ht1 _ _ Htr) as (tr1 & Htr1 & <-).
    destruct (Ht2 _ _ Htr1) as (tr2 & Htr2 & <-). by exists tr2.
Qed.

Lemma foldM_frame {A B} (R : Heap → Heap → Prop) (f : B → A → M Heap B) (l : list A)
    (b b' : B) (h h' : Heap) :
  (∀ h, R h h) → (∀ h1 h2 h3, R h1 h2 → R h2 h3 → R h1 h3) →
  (∀ b x h b' h', f b x h = Ok (b', h') → R h h') →
  foldM f b l h = Ok (b', h') → R h h'.
Proof.
  intros Hrefl Htrans Hstep. revert b h. induction l as [|x l IH]; intros b h H; simpl in H.
  - apply retS_Ok in H as [_ ->]. apply Hrefl.
  - apply bindS_Ok in H as (b1 & h1 & Hx & H). eapply Htrans; [by eapply Hstep | by eapply IH].
Qed.

Lemma _split_from_tree_frame (tree : Element) (ad : AccountDict) (t : nat) (h : Heap)
    (s : nat) (h' : Heap) :
  _split_from_tree tree ad t h = Ok (s, h') → tx_frame h h'.
Proof.
  intros H. unfold _split_from_tree in H.
  apply bindS_Ok in H as (guid & ? & H1 & H). apply lift_Ok in H1 as [_ ->].
  apply bindS_Ok in H as (rs & ? & H1 & H). apply lift_Ok in H1 as [_ ->].
  apply bindS_Ok in H as (rd & ? & H1 & H). apply lift_Ok in H1 as [_ ->].
  apply bindS_Ok in H as (value & ? & H1 & H). apply lift_Ok in H1 as [_ ->].
  apply bindS_Ok in H as (quantity & ? & H1 & H). apply lift_Ok in H1 as [_ ->].
  apply bindS_Ok in H as (ag & ? & H1 & H). apply lift_Ok in H1 as [_ ->].
  apply bindS_Ok in H as (account & ? & H1 & H). apply lift_Ok in H1 as [_ ->].
  apply bindS_Ok in H as (slots & ? & H1 & H). apply lift_Ok in H1 as [_ ->].
  apply bindS_Ok in H as (split & h1 & Hnew & H). unfold new_Split in Hnew.
  injection Hnew as <- <-.
  apply bindS_Ok in H as ([] & h2 & Hupd & H). unfold update_account in Hupd.
  injection Hupd as <-. apply retS_Ok in H as [-> ->].
  split_and!; simpl; [done | | by eauto].
  apply Forall2_alter_r.
  - apply Forall2_same_length_lookup_2; [done|]. intros i a a' Ha Ha'. by simplify_eq.
  - intros a a' _ _ [-> ->]. done.
Qed.

Lemma split_step_frame (ad : AccountDict) (t : nat) (u : unit) (subtree : Element)
    (h : Heap) (u' : unit) (h' : Heap) :
  split_step ad t u subtree h = Ok (u', h') → tx_frame h h'.
Proof.
  intros H. unfold split_step in H.
  apply bindS_Ok in H as (s & h1 & Hs & H). apply _split_from_tree_frame in Hs.
  eapply tx_frame_trans; [done|]. unfold update_transaction in H. injection H as _ <-.
  split_and!; simpl; [done | | ].
  - apply Forall2_same_length_lookup_2; [done|]. intros i a a' Ha Ha'. by simplify_eq.
  - intros t1 tr Htr. destruct (decide (t1 = t)) as [->|Hne].
    + rewrite list_lookup_alter_eq, Htr. by eexists.
    + rewrite list_lookup_alter_ne by done. by exists tr.
Qed.

Lemma _transaction_from_tree_Ok (tree : Element) (ad : AccountDict) (cd : CommodityDict)
    (h : Heap) (t : nat) (h' : Heap) :
  _transaction_from_tree tree ad cd h = Ok (t, h') →
  tx_frame h h' ∧ transaction_currency_resolved cd h' tree t.
Proof.
  intros H. unfold _transaction_from_tree in H.
  apply bindS_Ok in H as (guid & ? & H1 & H). apply lift_Ok in H1 as [_ ->].
  apply bindS_Ok in H as (space & ? & Hsp & H). apply lift_Ok in Hsp as [Hsp ->].
  apply bindS_Ok in H as (cname & ? & Hcn & H). apply lift_Ok in Hcn as [Hcn ->].
  apply bindS_Ok in H as (currency & ? & Hcur & H). apply lift_Ok in Hcur as [Hcur ->].
  apply bindS_Ok in H as (date & ? & H1 & H). apply lift_Ok in H1 as [_ ->].
  apply bindS_Ok in H as (date_entered & ? & H1 & H). apply lift_Ok in H1 as [_ ->].
  apply bindS_Ok in H as (description & ? & H1 & H). apply lift_Ok in H1 as [_ ->].
  apply bindS_Ok in H as (slots & ? & H1 & H). apply lift_Ok in H1 as [_ ->].
  apply bindS_Ok in H as (t' & h1 & Hnew & H). unfold new_Transaction in Hnew.
  injection Hnew as <- <-.
  apply bindS_Ok in H as ([] & h2 & Hsplits & H). apply retS_Ok in H as [-> ->].
  apply (foldM_frame tx_frame) in Hsplits;
    [| apply tx_frame_refl | apply tx_frame_trans | apply split_step_frame].
  assert (tx_frame h (with_transactions
            (fun l => l ++ [mkTransaction guid currency date date_entered description
                              (or_None (text_or_None (find [trn +:+ "num"] tree))) [] slots])
            h)) as Hframe0.
  { split_and!; simpl; [done | | ].
    - apply Forall2_same_length_lookup_2; [done|]. intros i a a' Ha Ha'. by simplify_eq.
    - intros t1 tr Htr. exists tr. split; [by apply lookup_app_l_Some | done]. }
  split; [by eapply tx_frame_trans|].
  destruct Hsplits as (_ & _ & Htx).
  destruct (Htx (length (heap_transactions h))
              (mkTransaction guid currency date date_entered description
                 (or_None (text_or_None (find [trn +:+ "num"] tree))) [] slots))
    as (tr & Htr & Hcurr).
  { simpl. by rewrite list_lookup_middle. }
  simpl in Hcurr.
  apply text_find_Ok in Hsp as (xs & Hxs & <-). apply text_find_Ok in Hcn as (xn & Hxn & <-).
  exists tr, (Element_text xs, Element_text xn). split_and!; [done | |].
  - unfold commodity_key. simpl app. rewrite Hxs. simpl. by rewrite Hxn.
  - rewrite Hcurr. unfold dict_item in Hcur.
    by destruct (dict_get _ cd); [injection Hcur as -> |].
Qed.

Lemma transactions_spec (ad : AccountDict) (cd : CommodityDict) (es : list Element)
    (h : Heap) (ts : list nat) (h' : Heap) :
  foldM (transaction_step ad cd) [] es h = Ok (ts, h') →
  tx_frame h h' ∧ Forall2 (transaction_currency_resolved cd h') es ts.
Proof.
  intros H.
  apply (foldM_invariant (fun done ts h1 =>
    tx_frame h h1 ∧ Forall2 (transaction_currency_resolved cd h1) done ts)) in H; [done | |].
  - split; [apply tx_frame_refl | constructor].
  - intros done child ts1 h1 ts2 h2 [Hframe HF] _ Hstep. unfold transaction_step in Hstep.
    apply bindS_Ok in Hstep as (t & h1' & Ht & Hstep). apply retS_Ok in Hstep as [-> ->].
    apply _transaction_from_tree_Ok in Ht as [Hframe' Hres].
    split; [by eapply tx_frame_trans|].
    apply Forall2_app; [|by constructor].
    eapply Forall2_impl; [exact HF|]. intros child1 t1 (tr & key & Htr & Hkey & Hget).
    destruct Hframe' as (_ & _ & Htx). destruct (Htx _ _ Htr) as (tr' & Htr' & Hcurr).
    exists tr', key. by rewrite Hcurr.
Qed.

(** ** The commodity registry *)

Lemma commodity_frame_refl (h : Heap) : commodity_frame h h.
Proof. by split_and!. Qed.

Lemma commodity_frame_trans (h1 h2 h3 : Heap) :
  commodity_frame h1 h2 → commodity_frame h2 h3 → commodity_frame h1 h3.
Proof.
  intros (? & ? & ? & ?) (? & ? & ? & ?). split_and!; [congruence.. | by etrans].
Qed.

Lemma registry_ok_frame (cd : CommodityDict) (h h' : Heap) :
  commodity_frame h h' → registry_ok cd h → registry_ok cd h'.
Proof.
  intros (_ & _ & _ & [rest Hrest]) Hok k c Hget. rewrite Hrest.
  apply lookup_app_l_Some. by apply Hok.
Qed.

Lemma _commodity_find_Ok (space name : option string) (cd : CommodityDict) (h : Heap)
    (c : nat) (cd' : CommodityDict) (h' : Heap) :
  _commodity_find space name cd h = Ok ((c, cd'), h') →
  dict_get (space, name) cd' = Some c
  ∧ registry_le cd cd'
  ∧ commodity_frame h h'
  ∧ (registry_ok cd h → registry_ok cd' h').
Proof.
  intros H. unfold _commodity_find in H.
  apply bindS_Ok in H as (c0 & h1 & Hnew & H). unfold new_Commodity in Hnew.
  injection Hnew as <- <-. apply retS_Ok in H as [Hsd ->].
  assert (commodity_frame h
            (mkHeap (heap_commodities h ++ [mkCommodity name space]) (heap_accounts h)
               (heap_transactions h) (heap_splits h))) as Hframe.
  { split_and!; simpl; [done..|]. by exists [mkCommodity name space]. }
  unfold dict_setdefault in Hsd.
  destruct (dict_get (space, name) cd) as [c1|] eqn:Hget; injection Hsd as -> ->.
  - split_and!; [done | by intros ?? | done |]. intros Hok. by eapply registry_ok_frame.
  - split_and!; [apply dict_get_set_eq | | done |].
    + intros k c1 Hk. rewrite dict_get_set_ne; [done|]. intros <-. congruence.
    + intros Hok k c1 Hk. simpl. destruct (decide (k = (space, name))) as [->|Hne].
      * rewrite dict_get_set_eq in Hk. injection Hk as <-. by rewrite list_lookup_middle.
      * rewrite dict_get_set_ne in Hk by done. apply lookup_app_l_Some. by apply Hok.
Qed.

Lemma commodity_step_Ok commodities (cd : CommodityDict) (child : Element) (h : Heap)
    commodities' (cd' : CommodityDict) (h' : Heap) :
  commodity_step (commodities, cd) child h = Ok ((commodities', cd'), h') →
  ∃ key c, commodity_key [] child = Some key ∧ dict_get key cd' = Some c
           ∧ commodities' = commodities ++ [c]
           ∧ registry_le cd cd' ∧ commodity_frame h h'
           ∧ (registry_ok cd h → registry_ok cd' h').
Proof.
  intros H. unfold commodity_step in H.
  apply bindS_Ok in H as (comm & ? & Hcomm & H). apply lift_Ok in Hcomm as [Hcomm ->].
  apply bindS_Ok in H as ([c cd1] & h1 & Hfind & H). apply retS_Ok in H as [[= -> ->] ->].
  apply _commodity_find_Ok in Hfind as (Hget & Hle & Hframe & Hok).
  unfold _commodity_from_tree in Hcomm.
  apply bind_Ok in Hcomm as (name & Hname & Hcomm).
  apply bind_Ok in Hcomm as (space & Hspace & [= <-]). simpl in *.
  apply text_find_Ok in Hname as (xn & Hxn & <-).
  apply text_find_Ok in Hspace as (xs & Hxs & <-).
  exists (Element_text xs, Element_text xn), c. split_and!; try done.
  unfold commodity_key. simpl app. rewrite Hxs. simpl. by rewrite Hxn.
Qed.

Lemma commodities_spec (es : list Element) (h : Heap) commodities (cd : CommodityDict)
    (h' : Heap) :
  foldM commodity_step ([], []) es h = Ok ((commodities, cd), h') →
  commodity_frame h h'
  ∧ registry_ok cd h'
  ∧ Forall2 (fun child c => ∃ key, commodity_key [] child = Some key
                                   ∧ dict_get key cd = Some c) es commodities.
Proof.
  intros H.
  apply (foldM_invariant (fun done st h1 =>
    commodity_frame h h1 ∧ registry_ok st.2 h1
    ∧ Forall2 (fun child c => ∃ key, commodity_key [] child = Some key
                                     ∧ dict_get key st.2 = Some c) done st.1)) in H;
    [done | |].
  - split_and!; [apply commodity_frame_refl | done | constructor].
  - intros done child [cs1 cd1] h1 [cs2 cd2] h2 (Hframe & Hok & HF) _ Hstep. simpl in *.
    apply commodity_step_Ok in Hstep as (key & c & Hkey & Hget & -> & Hle & Hframe' & Hok').
    split_and!; [by eapply commodity_frame_trans | by apply Hok' |].
    apply Forall2_app; [|constructor; [by exists key | constructor]].
    eapply Forall2_impl; [exact HF|]. intros child1 c1 (key1 & Hkey1 & Hget1).
    exists key1. split; [done | by apply Hle].
Qed.

Lemma price_step_Ok prices (cd : CommodityDict) (child : Element) (h : Heap)
    prices' (cd' : CommodityDict) (h' : Heap) :
  price_step (prices, cd) child h = Ok ((prices', cd'), h') →
  ∃ p, price_resolved cd' child p ∧ prices' = prices ++ [p]
       ∧ registry_le cd cd' ∧ commodity_frame h h'
       ∧ (registry_ok cd h → registry_ok cd' h').
Proof.
  intros H. unfold price_step in H.
  apply bindS_Ok in H as ([p cd2] & h2 & Hp & H). apply retS_Ok in H as [[= -> ->] ->].
  unfold _price_from_tree in Hp.
  apply bindS_Ok in Hp as (guid & ? & H1 & Hp). apply lift_Ok in H1 as [_ ->].
  apply bindS_Ok in Hp as (value & ? & H1 & Hp). apply lift_Ok in H1 as [_ ->].
  apply bindS_Ok in Hp as (date & ? & H1 & Hp). apply lift_Ok in H1 as [_ ->].
  apply bindS_Ok in Hp as (cur_space & ? & Hcs & Hp). apply lift_Ok in Hcs as [Hcs ->].
  apply bindS_Ok in Hp as (cur_name & ? & Hcn & Hp). apply lift_Ok in Hcn as [Hcn ->].
  apply bindS_Ok in Hp as ([currency cd1] & h1 & Hf1 & Hp).
  apply bindS_Ok in Hp as (com_space & ? & Hms & Hp). apply lift_Ok in Hms as [Hms ->].
  apply bindS_Ok in Hp as (com_name & ? & Hmn & Hp). apply lift_Ok in Hmn as [Hmn ->].
  apply bindS_Ok in Hp as ([commodity cd2'] & h2' & Hf2 & Hp).
  apply retS_Ok in Hp as [[= -> ->] ->].
  apply _commodity_find_Ok in Hf1 as (Hget1 & Hle1 & Hframe1 & Hok1).
  apply _commodity_find_Ok in Hf2 as (Hget2 & Hle2 & Hframe2 & Hok2).
  apply text_find_Ok in Hcs as (xcs & Hxcs & <-). apply text_find_Ok in Hcn as (xcn & Hxcn & <-).
  apply text_find_Ok in Hms as (xms & Hxms & <-). apply text_find_Ok in Hmn as (xmn & Hxmn & <-).
  eexists. split_and!; [| reflexivity | | by eapply commodity_frame_trans | by auto].
  - split; simpl.
    + exists (Element_text xcs, Element_text xcn). split; [|by apply Hle2].
      unfold commodity_key. simpl app. rewrite Hxcs. simpl. by rewrite Hxcn.
    + exists (Element_text xms, Element_text xmn). split; [|done].
      unfold commodity_key. simpl app. rewrite Hxms. simpl. by rewrite Hxmn.
  - intros k c Hk. by apply Hle2, Hle1.
Qed.

Lemma load_prices_spec (tree : Element) (cd1 : CommodityDict) (h : Heap) prices
    (cd : CommodityDict) (h' : Heap) :
  load_prices tree cd1 h = Ok ((prices, cd), h') →
  registry_le cd1 cd ∧ commodity_frame h h'
  ∧ (registry_ok cd1 h → registry_ok cd h')
  ∧ Forall2 (price_resolved cd) (price_elements tree) prices.
Proof.
  unfold load_prices, price_elements.
  destruct (find [gnc +:+ "pricedb"] tree) as [t|].
  - intros H.
    apply (foldM_invariant (fun done st h1 =>
      registry_le cd1 st.2 ∧ commodity_frame h h1
      ∧ (registry_ok cd1 h → registry_ok st.2 h1)
      ∧ Forall2 (price_resolved st.2) done st.1)) in H; [done | |].
    + split_and!; [by intros ?? | apply commodity_frame_refl | done | constructor].
    + intros done child [ps1 cda] h1 [ps2 cdb] h2 (Hle & Hframe & Hok & HF) _ Hstep.
      simpl in *.
      apply price_step_Ok in Hstep as (p & Hres & -> & Hle' & Hframe' & Hok').
      split_and!.
      * intros k c Hk. by apply Hle', Hle.
      * by eapply commodity_frame_trans.
      * auto.
      * apply Forall2_app; [|by constructor].
        eapply Forall2_impl; [exact HF|].
        intros child1 p1 [(k1 & Hk1 & Hg1) (k2 & Hk2 & Hg2)]. split.
        -- exists k1. split; [done | by apply Hle'].
        -- exists k2. split; [done | by apply Hle'].
  - intros H. apply retS_Ok in H as [[= -> ->] ->].
    split_and!; [by intros ?? | apply commodity_frame_refl | done | constructor].
Qed.

(** ** A loaded book *)

Lemma linked_frame (ad : AccountDict) (pd : ParentDict) (accounts : list nat) (h h' : Heap) :
  tx_frame h h' → linked ad pd accounts h → linked ad pd accounts h'.
Proof.
  intros (_ & HF & _) Hlinked acc a' p Ha' Hp.
  destruct (Forall2_lookup_r _ _ _ _ _ HF Ha') as (a & Ha & Hst & Hlk).
  unfold account_static in Hst. unfold account_links in Hlk.
  injection Hst as _ Hguid Htype _. injection Hlk as Hpar Hch.
  rewrite <- Hpar in Hp. destruct (Hlinked acc a p Ha Hp) as (Hr & Hres & (pa & Hpa & Hin) & Hacc).
  rewrite <- Htype, <- Hguid. split_and!; [done | done | | done].
  destruct (Forall2_lookup_l _ _ _ _ _ HF Hpa) as (pa' & Hpa' & _ & Hlk').
  unfold account_links in Hlk'. injection Hlk' as _ Hch'.
  exists pa'. split; [done | by rewrite <- Hch'].
Qed.

Lemma dict_values_imap_valid (rs : list (option string * Account)) (v : nat) :
  v ∈ dict_values (dict_of_pairs (imap (fun i r => (Account_guid r.2, i)) rs)) →
  (v < length rs)%nat.
Proof.
  intros Hin. apply dict_values_elem in Hin as (k & Hget); [|apply dict_of_pairs_keys_NoDup].
  apply dict_of_pairs_spec in Hget as (i & Hi & _).
  rewrite list_lookup_imap in Hi. destruct (rs !! i) as [r|] eqn:Hr; [|done].
  injection Hi as _ <-. by eapply lookup_lt_Some.
Qed.

Lemma _book_from_tree_loaded (tree : Element) (book : Book) (h : Heap) :
  _book_from_tree (Some tree) empty_heap = Ok (book, h) → Loaded tree book h.
Proof.
  intros Hload. apply _book_from_tree_phases in Hload as []. subst book.
  apply commodities_spec in ph_commodities as (Hf1 & Hok1 & Hcs).
  apply load_prices_spec in ph_prices as (Hle & Hf2 & Hok2 & Hps).
  specialize (Hok2 Hok1).
  pose proof (commodity_frame_trans _ _ _ Hf1 Hf2) as (Hacc2 & Htr2 & Hsp2 & _).
  simpl in Hacc2, Htr2, Hsp2.
  apply pass1_spec in ph_pass1 as (rs & Hbuilt & -> & Had & Hpd).
  rewrite Hacc2 in Had. simpl in Had.
  apply pass2_spec in ph_pass2 as (Hc4 & Ht4 & Hs4 & Hst4 & Hlinked & Hproc & Haccs).
  2:{ intros v Hv. simpl. rewrite Hacc2. simpl. rewrite length_fmap.
      subst accountdict. by apply dict_values_imap_valid. }
  2:{ intros i a Ha. simpl in Ha. rewrite Hacc2 in Ha. simpl in Ha.
      rewrite list_lookup_fmap in Ha. destruct (rs !! i) as [r|] eqn:Hr; [|done].
      injection Ha as <-. destruct (Forall2_lookup_r _ _ _ _ _ Hbuilt Hr) as (child & _ & Hb).
      by destruct Hb as (_ & _ & _ & ? & _). }
  simpl in Hc4, Hst4. rewrite Hacc2 in Hst4. simpl in Hst4.
  apply transactions_spec in ph_transactions as (Hframe & Hts).
  pose proof Hframe as (Hc5 & Hst5 & _).
  eapply (mkLoaded tree _ h commoditydict accountdict parentdict rs); simpl; try done.
  - apply Forall2_fmap_l in Hst4.
    eapply Forall2_trans; [|exact Hst4|exact Hst5].
    simpl. intros r a a' [-> _] [-> _]. done.
  - by eapply linked_frame.
  - intros acc a' Hin Ha' Hr.
    destruct (Forall2_lookup_r _ _ _ _ _ Hst5 Ha') as (a & Ha & Hst & Hlk).
    unfold account_static in Hst. unfold account_links in Hlk.
    injection Hst as _ _ Htype _. injection Hlk as Hpar _.
    rewrite <- Hpar. apply (Hproc acc a Hin Ha). by rewrite Htype.
  - intros acc Hin. destruct (Haccs acc Hin) as (a & Ha & Hsome).
    destruct (Forall2_lookup_l _ _ _ _ _ Hst5 Ha) as (a' & Ha' & _ & Hlk).
    unfold account_links in Hlk. injection Hlk as Hpar _.
    exists a'. split; [done | by rewrite <- Hpar].
  - intros k c Hk. rewrite Hc5, Hc4. simpl. by apply Hok2.
  - eapply Forall2_impl; [exact Hcs|]. intros child c (key & Hkey & Hget).
    exists key. split; [done | by apply Hle].
Qed.

Lemma imap_keys {A K} (g : A → K) (F : nat → nat) (l : list A) :
  (imap (fun i r => (g r, F i)) l).*1 = g <$> l.
Proof.
  revert F. induction l as [|x l IH]; intros F; [done|].
  simpl. f_equal. apply (IH (F ∘ S)).
Qed.

Lemma built_guids (cd : CommodityDict) (es : list Element)
    (rs : list (option string * Account)) :
  Forall2 (fun child r => account_built cd child r.1 r.2) es rs →
  (imap (fun i r => (Account_guid r.2, i)) rs).*1 = account_guid_of <$> es
  ∧ ((fun r => (Account_guid r.2, r.1)) <$> rs).*1 = account_guid_of <$> es.
Proof.
  intros HF.
  assert ((fun r : option string * Account => Account_guid r.2) <$> rs
          = account_guid_of <$> es) as Hg.
  { induction HF as [|child r es rs Hb _ IH]; [done|].
    rewrite !fmap_cons, IH. f_equal. by destruct Hb as (_ & -> & _). }
  split.
  - by rewrite (imap_keys (fun r => Account_guid r.2) id).
  - by rewrite <- list_fmap_compose.
Qed.

(** C3, as the code has it: account-tree construction does not depend on
    the order of the records when their guids are pairwise distinct (of
    records that share a guid the guid map keeps the last, and the accounts
    of the others are never linked). In a document whose account records
    have pairwise distinct guids, loaded from an empty store, for every
    non-root account record whose declared parent guid is the guid of an
    account record (before or after it in the document), the account's
    parent is the account of that record, the account is among the children
    of that parent, and it is in the book's flat list of non-root
    accounts. *)
Theorem account_tree_two_pass (tree : Element) (book : Book) (h : Heap) (i j : nat)
    (child parent_elt : Element) :
  _book_from_tree (Some tree) empty_heap = Ok (book, h) →
  NoDup (account_guid_of <$> findall [gnc +:+ "account"] tree) →
  findall [gnc +:+ "account"] tree !! i = Some child →
  is_ROOT (account_type_of child) = false →
  findall [gnc +:+ "account"] tree !! j = Some parent_elt →
  declared_parent child = account_guid_of parent_elt →
  ∃ a pa,
    heap_accounts h !! i = Some a ∧ heap_accounts h !! j = Some pa
    ∧ Account_guid a = account_guid_of child ∧ Account_name a = account_name_of child
    ∧ Account_guid pa = account_guid_of parent_elt
    ∧ Account_name pa = account_name_of parent_elt
    ∧ Account_parent a = Some j
    ∧ i ∈ Account_children pa
    ∧ i ∈ Book_accounts book.
Proof.
  intros Hload Hnd Hi Hnonroot Hj Hdecl.
  apply _book_from_tree_loaded in Hload as [].
  destruct (built_guids _ _ _ ld_built) as [Hk1 Hk2].
  destruct (Forall2_lookup_l _ _ _ _ _ ld_built Hi) as ([pgi ai] & Hri & Hbi).
  destruct (Forall2_lookup_l _ _ _ _ _ ld_built Hj) as ([pgj aj] & Hrj & Hbj).
  destruct (Forall2_lookup_l _ _ _ _ _ ld_static Hri) as (a & Ha & Hsta).
  destruct (Forall2_lookup_l _ _ _ _ _ ld_static Hrj) as (pa & Hpa & Hstpa).
  simpl in Hbi, Hbj, Hsta, Hstpa.
  unfold account_static in Hsta, Hstpa.
  injection Hsta as Hname Hguid Htype _. injection Hstpa as Hpname Hpguid _ _.
  destruct Hbi as (Hni & Hgi & Hti & _ & _ & _ & Hpi).
  destruct Hbj as (Hnj & Hgj & _).
  rewrite Hnonroot in Hpi. destruct Hpi as [Hpgi _].
  assert (dict_get (Account_guid ai) ad = Some i) as Hadi.
  { subst ad. eapply (dict_of_pairs_NoDup_lookup _ i); [by rewrite Hk1|].
    rewrite list_lookup_imap, Hri. done. }
  assert (dict_get (Account_guid aj) ad = Some j) as Hadj.
  { subst ad. eapply (dict_of_pairs_NoDup_lookup _ j); [by rewrite Hk1|].
    rewrite list_lookup_imap, Hrj. done. }
  assert (dict_get (Account_guid ai) pd = Some pgi) as Hpdi.
  { subst pd. eapply (dict_of_pairs_NoDup_lookup _ i); [by rewrite Hk2|].
    rewrite list_lookup_fmap, Hri. done. }
  destruct (ld_processed i a) as [p Hp].
  { by eapply dict_get_values. }
  { done. }
  { by rewrite <- Htype, Hti. }
  destruct (ld_linked i a p Ha Hp) as (_ & (pg & Hpg & Hres) & (pa' & Hpa' & Hin) & Hacc).
  rewrite <- Hguid, Hpdi in Hpg. injection Hpg as <-.
  assert (p = j) as ->.
  { rewrite Hpgi, Hdecl, <- Hgj, Hadj in Hres. by injection Hres. }
  assert (pa' = pa) as -> by congruence.
  exists a, pa. split_and!; try done; congruence.
Qed.



(** ** Commodity references *)

Lemma location_registry (tree : Element) (book : Book) (h : Heap) :
  Loaded tree book h →
  ∃ cd : CommodityDict,
    registry_ok cd h
    ∧ ∀ loc k r, location_key tree loc = Some k → location_ref book h loc = Some r →
                 dict_get k cd = Some r.
Proof.
  intros []. exists cd. split; [done|]. intros loc k r Hk Hr.
  destruct loc as [i|i|i|i|i]; simpl in Hk, Hr.
  - destruct (findall [gnc +:+ "commodity"] tree !! i) as [child|] eqn:Hc; [|done].
    destruct (Forall2_lookup_lr _ _ _ _ _ _ ld_commodities Hc Hr) as (key & Hkey & Hget).
    simpl in Hk. congruence.
  - destruct (price_elements tree !! i) as [child|] eqn:Hc; [|done].
    destruct (Book_prices book !! i) as [p|] eqn:Hp; [|done]. injection Hr as <-.
    destruct (Forall2_lookup_lr _ _ _ _ _ _ ld_prices Hc Hp) as [_ (key & Hkey & Hget)].
    simpl in Hk. congruence.
  - destruct (price_elements tree !! i) as [child|] eqn:Hc; [|done].
    destruct (Book_prices book !! i) as [p|] eqn:Hp; [|done]. injection Hr as <-.
    destruct (Forall2_lookup_lr _ _ _ _ _ _ ld_prices Hc Hp) as [(key & Hkey & Hget) _].
    simpl in Hk. congruence.
  - destruct (findall [gnc +:+ "account"] tree !! i) as [child|] eqn:Hc; [|done].
    destruct (heap_accounts h !! i) as [a|] eqn:Ha; [|done]. simpl in Hk, Hr.
    destruct (Forall2_lookup_l _ _ _ _ _ ld_built Hc) as ([pg a0] & Hr0 & Hb).
    pose proof (Forall2_lookup_lr _ _ _ _ _ _ ld_static Hr0 Ha) as Hst.
    simpl in Hst, Hb. unfold account_static in Hst. injection Hst as _ _ _ Hcomm.
    destruct Hb as (_ & _ & _ & _ & _ & _ & Hb).
    destruct (is_ROOT (account_type_of child)).
    + destruct Hb as [_ Hnone]. congruence.
    + destruct Hb as (_ & key & c & Hkey & Hget & Hsome). congruence.
  - destruct (findall [gnc +:+ "transaction"] tree !! i) as [child|] eqn:Hc; [|done].
    destruct (Book_transactions book !! i) as [t|] eqn:Ht; [|done]. simpl in Hk, Hr.
    destruct (Forall2_lookup_lr _ _ _ _ _ _ ld_transactions Hc Ht)
      as (tr & key & Htr & Hkey & Hget).
    rewrite Htr in Hr. injection Hr as <-. congruence.
Qed.

(** C2: in a document loaded from an empty store, commodity references
    parsed from any two locations (top-level commodity declaration, price
    commodity or currency, account commodity, transaction currency) that
    carry the same (namespace, symbol) pair are the same object of the store,
    and that object has this symbol and namespace. *)
Theorem commodities_shared (tree : Element) (book : Book) (h : Heap)
    (loc1 loc2 : location) (k : option string * option string) (r1 r2 : nat) :
  _book_from_tree (Some tree) empty_heap = Ok (book, h) →
  location_key tree loc1 = Some k → location_key tree loc2 = Some k →
  location_ref book h loc1 = Some r1 → location_ref book h loc2 = Some r2 →
  r1 = r2 ∧ heap_commodities h !! r1 = Some (mkCommodity k.2 k.1).
Proof.
  intros Hload Hk1 Hk2 Hr1 Hr2. apply _book_from_tree_loaded in Hload.
  destruct (location_registry _ _ _ Hload) as (cd & Hok & Hreg).
  pose proof (Hreg _ _ _ Hk1 Hr1) as H1. pose proof (Hreg _ _ _ Hk2 Hr2) as H2.
  split; [congruence | by apply Hok].
Qed.

(** ** Digit strings *)

Section Digits.
Local Open Scope Z_scope.

Lemma digit_char_spec (d : Z) :
  0 <= d <= 9 → is_digit (digit_char d) = true ∧ digit_val (digit_char d) = d.
Proof.
  intros Hd.
  assert (d = 0 ∨ d = 1 ∨ d = 2 ∨ d = 3 ∨ d = 4 ∨ d = 5 ∨ d = 6 ∨ d = 7 ∨ d = 8 ∨ d = 9)
    as Hcases by lia.
  repeat (destruct Hcases as [->|Hcases]; [by vm_compute|]). subst d. by vm_compute.
Qed.

Lemma int_of_digits_fold (l : list ascii) (a : Z) :
  fold_left (fun a c => 10 * a + digit_val c) l a
  = a * 10 ^ Z.of_nat (length l) + int_of_digits l.
Proof.
  unfold int_of_digits. revert a. induction l as [|c l IH]; intros a.
  - simpl. lia.
  - cbn [fold_left length]. rewrite IH, (IH (10 * 0 + digit_val c)).
    rewrite Nat2Z.inj_succ, Z.pow_succ_r by lia. lia.
Qed.

Lemma int_of_digits_app (a b : list ascii) :
  int_of_digits (a ++ b) = int_of_digits a * 10 ^ Z.of_nat (length b) + int_of_digits b.
Proof.
  unfold int_of_digits at 1. rewrite fold_left_app. fold (int_of_digits a).
  apply int_of_digits_fold.
Qed.

Lemma int_of_digits_cons (c : ascii) (l : list ascii) :
  int_of_digits (c :: l) = digit_val c * 10 ^ Z.of_nat (length l) + int_of_digits l.
Proof.
  change (c :: l) with ([c] ++ l). rewrite int_of_digits_app.
  unfold int_of_digits at 1. simpl. lia.
Qed.

Lemma int_of_digits_zeros (k : nat) : int_of_digits (repeat "0"%char k) = 0.
Proof.
  induction k as [|k IH]; [done|]. simpl repeat. rewrite int_of_digits_cons, IH.
  by vm_compute digit_val.
Qed.

Lemma int_of_digits_nonneg (l : list ascii) :
  Forall (fun c => is_digit c = true) l → 0 <= int_of_digits l.
Proof.
  induction l as [|c l IH] using rev_ind; [done|]. intros HF.
  apply Forall_app in HF as [Hl Hc]. apply List.Forall_inv in Hc.
  rewrite int_of_digits_app. unfold int_of_digits at 2. simpl.
  change (10 ^ Z.of_nat 1) with 10.
  specialize (IH Hl). unfold is_digit in Hc. apply andb_true_iff in Hc as [H1 H2].
  apply Z.leb_le in H1, H2. unfold digit_val. lia.
Qed.

(** What the loop of [digits] computes. *)
Lemma digits_loop_spec (fuel : nat) (n : Z) (acc : list ascii) :
  0 <= n < 2 ^ Z.of_nat fuel → fuel ≠ O →
  ∃ ds, digits_loop fuel n acc = ds ++ acc
        ∧ Forall (fun c => is_digit c = true) ds
        ∧ int_of_digits ds = n
        ∧ (1 <= length ds)%nat
        ∧ (n = 0 → ds = ["0"%char])
        ∧ (0 < n → 10 ^ (Z.of_nat (length ds) - 1) <= n < 10 ^ Z.of_nat (length ds)).
Proof.
  revert n acc. induction fuel as [|fuel IH]; intros n acc Hn Hfuel; [done|].
  simpl digits_loop. destruct (n <? 10) eqn:Hlt.
  - apply Z.ltb_lt in Hlt. destruct (digit_char_spec n) as [Hd Hv]; [lia|].
    exists [digit_char n]. split_and!.
    + done.
    + by constructor.
    + unfold int_of_digits. simpl. lia.
    + simpl. lia.
    + by intros ->.
    + intros Hpos. simpl. lia.
  - apply Z.ltb_ge in Hlt.
    destruct (IH (n / 10) (digit_char (n mod 10) :: acc)) as (ds & Hds & HF & Hv & Hlen & _ & Hb).
    { rewrite Nat2Z.inj_succ, Z.pow_succ_r in Hn by lia. split; [apply Z.div_pos; lia|].
      apply Z.div_lt_upper_bound; lia. }
    { intros ->. simpl in Hn. lia. }
    destruct (digit_char_spec (n mod 10)) as [Hd Hdv].
    { pose proof (Z.mod_pos_bound n 10). lia. }
    exists (ds ++ [digit_char (n mod 10)]). split_and!.
    + by rewrite Hds, <- app_assoc.
    + apply Forall_app. split; [done | by constructor].
    + rewrite int_of_digits_app. unfold int_of_digits at 2. simpl. rewrite Hv, Hdv.
      pose proof (Z.div_mod n 10). lia.
    + rewrite length_app. simpl. lia.
    + intros ->. lia.
    + intros _. rewrite length_app. simpl length.
      assert (0 < n / 10) as Hq.
      { apply Z.div_str_pos. lia. }
      specialize (Hb Hq). rewrite Nat2Z.inj_add.
      replace (Z.of_nat (length ds) + Z.of_nat 1 - 1)
        with (Z.succ (Z.of_nat (length ds) - 1)) by lia.
      rewrite (Z.pow_succ_r 10 (Z.of_nat (length ds) - 1)) by lia.
      replace (Z.of_nat (length ds) + Z.of_nat 1) with (Z.succ (Z.of_nat (length ds))) by lia.
      rewrite (Z.pow_succ_r 10 (Z.of_nat (length ds))) by lia.
      pose proof (Z.div_mod n 10). pose proof (Z.mod_pos_bound n 10). lia.
Qed.

Lemma digits_spec (n : Z) :
  0 <= n →
  Forall (fun c => is_digit c = true) (digits n)
  ∧ int_of_digits (digits n) = n
  ∧ 1 <= ndigits n
  ∧ (n = 0 → digits n = ["0"%char])
  ∧ (0 < n → 10 ^ (ndigits n - 1) <= n < 10 ^ ndigits n).
Proof.
  intros Hn. unfold ndigits, digits.
  destruct (digits_loop_spec (S (Z.to_nat (Z.log2 n))) n []) as (ds & Hds & HF & Hv & Hlen & H0 & Hb).
  { split; [done|]. rewrite Nat2Z.inj_succ, Z2Nat.id by apply Z.log2_nonneg.
    destruct (Z.eq_dec n 0) as [->|Hne]; [done|].
    apply Z.log2_spec. lia. }
  { done. }
  rewrite app_nil_r in Hds. rewrite Hds. split_and!; try done. lia.
Qed.

Lemma pow10_pos (k : Z) : 0 <= k → 0 < 10 ^ k.
Proof. intros. apply Z.pow_pos_nonneg; lia. Qed.

Lemma ndigits_pos (n : Z) : 0 <= n → 1 <= ndigits n.
Proof. intros Hn. by destruct (digits_spec n Hn) as (_ & _ & ? & _). Qed.

Lemma ndigits_bounds (n : Z) : 0 < n → 10 ^ (ndigits n - 1) <= n < 10 ^ ndigits n.
Proof. intros Hn. destruct (digits_spec n) as (_ & _ & _ & _ & Hb); [lia|]. by apply Hb. Qed.

Lemma ndigits_unique (n k : Z) : 1 <= k → 10 ^ (k - 1) <= n < 10 ^ k → ndigits n = k.
Proof.
  intros Hk Hb. assert (0 < n) as Hn.
  { pose proof (pow10_pos (k - 1)). lia. }
  pose proof (ndigits_bounds n Hn) as Hb'. pose proof (ndigits_pos n) as Hp.
  destruct (Z.lt_trichotomy (ndigits n) k) as [Hlt|[Heq|Hgt]]; [exfalso | done | exfalso].
  - assert (10 ^ ndigits n <= 10 ^ (k - 1)) by (apply Z.pow_le_mono_r; lia). lia.
  - assert (10 ^ k <= 10 ^ (ndigits n - 1)) by (apply Z.pow_le_mono_r; lia). lia.
Qed.

Lemma ndigits_lt_pow (n k : Z) : 0 < n → n < 10 ^ k → ndigits n <= k.
Proof.
  intros Hn Hlt. pose proof (ndigits_bounds n Hn) as Hb.
  destruct (Z_le_gt_dec (ndigits n) k) as [|Hgt]; [done|exfalso].
  assert (0 <= k).
  { destruct (Z_le_gt_dec 0 k); [done|]. rewrite Z.pow_neg_r in Hlt; lia. }
  assert (10 ^ k <= 10 ^ (ndigits n - 1)) by (apply Z.pow_le_mono_r; lia). lia.
Qed.

Lemma ndigits_ge_pow (n k : Z) : 0 <= k → 10 ^ k <= n → k + 1 <= ndigits n.
Proof.
  intros Hk Hle. assert (0 < n) as Hn by (pose proof (pow10_pos k); lia).
  pose proof (ndigits_bounds n Hn) as Hb. pose proof (ndigits_pos n).
  destruct (Z_le_gt_dec (k + 1) (ndigits n)) as [|Hgt]; [done|exfalso].
  assert (10 ^ ndigits n <= 10 ^ k) by (apply Z.pow_le_mono_r; lia). lia.
Qed.

End Digits.

(** ** Strings the fraction parser reads *)

Lemma list_ascii_of_string_app (a b : string) :
  list_ascii_of_string (a +:+ b) = list_ascii_of_string a ++ list_ascii_of_string b.
Proof. induction a as [|c a IH]; [done|]. simpl. by rewrite IH. Qed.

Lemma split_on_length (sep : ascii) (l : list ascii) :
  length (split_on sep l) = S (length (filter (fun c => c = sep) l)).
Proof.
  induction l as [|c l IH]; [done|]. simpl split_on. rewrite filter_cons.
  destruct (Ascii.eqb c sep) eqn:Heq.
  - apply Ascii.eqb_eq in Heq. rewrite decide_True by done. simpl. by rewrite IH.
  - apply Ascii.eqb_neq in Heq. rewrite decide_False by done.
    destruct (split_on sep l) as [|p ps]; [done|]. simpl in *. done.
Qed.

Lemma split_on_no_sep (sep : ascii) (l : list ascii) :
  sep ∉ l → split_on sep l = [l].
Proof.
  induction l as [|c l IH]; [done|]. intros Hnin. apply not_elem_of_cons in Hnin as [Hne Hnin].
  simpl. assert (Ascii.eqb c sep = false) as -> by (apply Ascii.eqb_neq; congruence).
  by rewrite IH.
Qed.

Lemma split_on_app (sep : ascii) (a b : list ascii) :
  sep ∉ a → split_on sep (a ++ sep :: b) = a :: split_on sep b.
Proof.
  induction a as [|c a IH]; intros Hnin.
  - simpl. by rewrite Ascii.eqb_refl.
  - apply not_elem_of_cons in Hnin as [Hne Hnin]. simpl.
    assert (Ascii.eqb c sep = false) as -> by (apply Ascii.eqb_neq; congruence).
    by rewrite IH.
Qed.

Lemma py_split_two (num denum : string) :
  "/"%char ∉ list_ascii_of_string num → "/"%char ∉ list_ascii_of_string denum →
  py_split "/" (num +:+ "/" +:+ denum) = [num; denum].
Proof.
  intros Hn Hd. unfold py_split. rewrite !list_ascii_of_string_app. simpl.
  rewrite split_on_app, split_on_no_sep by done. simpl.
  by rewrite !string_of_list_ascii_of_string.
Qed.

Lemma slash_count_app (a b : string) :
  slash_count (a +:+ b) = (slash_count a + slash_count b)%nat.
Proof. unfold slash_count. by rewrite list_ascii_of_string_app, filter_app, length_app. Qed.

Lemma slash_count_zero (s : string) :
  slash_count s = O → "/"%char ∉ list_ascii_of_string s.
Proof.
  unfold slash_count. intros Hlen Hin.
  assert ("/"%char ∈ filter (fun c => c = "/"%char) (list_ascii_of_string s)) as Hf.
  { by apply list_elem_of_filter. }
  destruct (filter _ _); [by apply elem_of_nil in Hf | done].
Qed.

(** The errors of the [decimal] operations. *)
Lemma of_string_error (s : string) (e : exn) : of_string s = Raise e → e = InvalidOperation.
Proof.
  unfold of_string. destruct (filter _ _) as [|c l]; simpl.
  - by intros [= <-].
  - repeat case_match; try done; by intros [= <-].
Qed.

Lemma _fix_finite_error (s : bool) (c x : Z) (e : exn) :
  _fix_finite s c x = Raise e → e = Overflow.
Proof. unfold _fix_finite. repeat case_match; try done; by intros [= <-]. Qed.

Lemma truediv_error (a b : Decimal) (e : exn) : truediv a b = Raise e → arithmetic_error e.
Proof.
  unfold truediv, arithmetic_error.
  destruct a as [sa ca ea|sa|sa [] pa], b as [sb cb eb|sb|sb [] pb]; simpl;
    try (intros [= <-]; by auto); try done.
  repeat case_match; try (intros [= <-]; by auto);
    intros Hfix; apply _fix_finite_error in Hfix; auto.
Qed.

Lemma quantize_error (a q : Decimal) (r : rounding) (e : exn) :
  quantize a q r = Raise e → arithmetic_error e.
Proof.
  unfold quantize, arithmetic_error.
  destruct a as [sa ca ea|sa|sa [] pa], q as [sb cb eb|sb|sb [] pb]; simpl;
    try (intros [= <-]; by auto); try done.
  repeat case_match; try (intros [= <-]; by auto); try done;
    intros Hfix; apply _fix_finite_error in Hfix; auto.
Qed.

Lemma split_on_one (sep : ascii) (l b : list ascii) : split_on sep l = [b] → l = b.
Proof.
  revert b. induction l as [|c l IH]; intros b; simpl.
  - by intros [= <-].
  - destruct (Ascii.eqb c sep).
    + intros H. pose proof (split_on_length sep l) as Hlen.
      destruct (split_on sep l); [simpl in Hlen; lia | discriminate H].
    + pose proof (split_on_length sep l) as Hlen.
      destruct (split_on sep l) as [|p ps] eqn:Hs; [simpl in Hlen; lia|].
      intros [= <- ->]. by rewrite (IH p).
Qed.

Lemma split_on_two (sep : ascii) (l a b : list ascii) :
  split_on sep l = [a; b] → l = a ++ sep :: b.
Proof.
  revert a. induction l as [|c l IH]; intros a; simpl; [done|].
  destruct (Ascii.eqb c sep) eqn:Heq.
  - apply Ascii.eqb_eq in Heq as ->. intros [= <- Hb]. apply split_on_one in Hb as ->. done.
  - destruct (split_on sep l) as [|p ps] eqn:Hs; [done|].
    intros [= <- ->]. by rewrite (IH p).
Qed.

(** C8, as the code has it: on a string without exactly one ["/"] the
    fraction parser raises [ValueError]; on a string of ASCII text with one,
    it raises [decimal.InvalidOperation] when a side is not a numeric string
    of [Decimal] (integers are numeric strings, and so are decimal and
    exponent numerals, which are accepted); no error other than
    [ValueError] and the arithmetic errors of [decimal] is raised on a
    string. *)
Theorem parse_number_failures (s : string) :
  (slash_count s ≠ 1%nat → _parse_number (Some s) = Raise ValueError)
  ∧ (slash_count s = 1%nat →
       ∃ num denum, s = num +:+ "/" +:+ denum ∧ py_split "/" s = [num; denum])
  ∧ (∀ num denum, is_ascii s = true → py_split "/" s = [num; denum] →
       is_Ok (of_string num) = false ∨ is_Ok (of_string denum) = false →
       _parse_number (Some s) = Raise InvalidOperation)
  ∧ (∀ e, _parse_number (Some s) = Raise e → e = ValueError ∨ arithmetic_error e).
Proof.
  split_and!.
  - intros Hcount. unfold _parse_number, py_split.
    pose proof (split_on_length "/" (list_ascii_of_string s)) as Hlen.
    fold (slash_count s) in Hlen.
    destruct (split_on "/" (list_ascii_of_string s)) as [|a [|b [|c l]]]; simpl in *;
      try done. lia.
  - intros Hcount. unfold py_split.
    pose proof (split_on_length "/" (list_ascii_of_string s)) as Hlen.
    fold (slash_count s) in Hlen. rewrite Hcount in Hlen.
    destruct (split_on "/" (list_ascii_of_string s)) as [|a [|b [|c l]]] eqn:Hs;
      simpl in Hlen; try done.
    exists (string_of_list_ascii a), (string_of_list_ascii b). split; [|done].
    apply split_on_two in Hs.
    rewrite <- (string_of_list_ascii_of_string s), Hs.
    clear. induction a as [|c a IH]; [done|]. simpl. by rewrite IH.
  - intros num denum _ Hsplit Hbad. unfold _parse_number. rewrite Hsplit.
    destruct (of_string num) as [a|e] eqn:Ha.
    + destruct Hbad as [Hbad|Hbad]; [done|].
      destruct (of_string denum) as [b|e] eqn:Hb; [done|].
      simpl. by rewrite (of_string_error _ _ Hb).
    + simpl. by rewrite (of_string_error _ _ Ha).
  - intros e. unfold _parse_number.
    destruct (py_split "/" s) as [|num [|denum [|? ?]]]; try (intros [= <-]; by left).
    destruct (of_string num) as [a|e1] eqn:Ha; simpl.
    2:{ intros [= <-]. right. left. by eapply of_string_error. }
    destruct (of_string denum) as [b|e1] eqn:Hb; simpl.
    2:{ intros [= <-]. right. left. by eapply of_string_error. }
    destruct (truediv a b) as [q|e1] eqn:Hq; simpl.
    2:{ intros [= <-]. right. by eapply truediv_error. }
    destruct (of_string (to_str q)) as [q'|e1] eqn:Hq'; simpl.
    2:{ intros [= <-]. right. left. by eapply of_string_error. }
    intros H. right. by eapply quantize_error.
Qed.

(** ** Reading numerals *)

Section Numerals.
Local Open Scope Z_scope.

Lemma is_digit_code (c : ascii) : is_digit c = true ↔ 48 <= code c <= 57.
Proof. unfold is_digit. rewrite andb_true_iff, !Z.leb_le. done. Qed.

Lemma digit_plain (c : ascii) : is_digit c = true → plain c.
Proof.
  intros Hb. pose proof Hb as Hd. apply is_digit_code in Hd. split.
  - unfold is_space. apply orb_false_iff. split; apply andb_false_iff; rewrite !Z.leb_gt; lia.
  - intros ->. by vm_compute in Hb.
Qed.

Lemma digit_not_sign (c : ascii) :
  is_digit c = true → c ≠ "-"%char ∧ c ≠ "+"%char ∧ c ≠ "/"%char ∧ c ≠ "."%char.
Proof.
  intros Hb. split_and!; intros ->; by vm_compute in Hb.
Qed.

Lemma lstrip_plain (l : list ascii) :
  match l with [] => True | c :: _ => is_space c = false end → lstrip l = l.
Proof. destruct l as [|c l]; [done|]. simpl. by intros ->. Qed.

Lemma strip_plain (l : list ascii) : Forall plain l → strip l = l.
Proof.
  intros HF. unfold strip. rewrite (lstrip_plain l).
  2:{ destruct l as [|c l]; [done|]. apply List.Forall_inv in HF. by destruct HF. }
  rewrite lstrip_plain; [apply rev_involutive|].
  apply Forall_rev in HF. destruct (rev l) as [|c r]; [done|].
  apply List.Forall_inv in HF. by destruct HF.
Qed.

Lemma filter_plain (l : list ascii) :
  Forall plain l → filter (fun c => c ≠ "_"%char) l = l.
Proof.
  induction 1 as [|c l [_ Hc] _ IH]; [done|].
  rewrite filter_cons, decide_True by done. by rewrite IH.
Qed.

Lemma span_digits_app (ds rest : list ascii) :
  Forall (fun c => is_digit c = true) ds →
  match rest with [] => True | c :: _ => is_digit c = false end →
  span_digits (ds ++ rest) = (ds, rest).
Proof.
  intros HF Hrest. induction HF as [|c ds Hc _ IH]; simpl.
  - destruct rest as [|c r]; [done|]. simpl. by rewrite Hrest.
  - by rewrite Hc, IH.
Qed.

Lemma span_digits_all (ds : list ascii) :
  Forall (fun c => is_digit c = true) ds → span_digits ds = (ds, []).
Proof. intros HF. rewrite <- (app_nil_r ds) at 1. by apply span_digits_app. Qed.

(** The numeral of an integer literal. *)
Lemma of_string_int_literal (s : string) :
  is_int_literal s = true →
  of_string s = Ok (Finite (literal_negative s) (literal_magnitude s) 0)
  ∧ 0 <= literal_magnitude s
  ∧ "/"%char ∉ list_ascii_of_string s.
Proof.
  unfold is_int_literal, literal_negative, literal_magnitude, of_string.
  set (l := list_ascii_of_string s). intros Hlit.
  assert (unsigned_part l ≠ [] ∧ Forall (fun c => is_digit c = true) (unsigned_part l))
    as [Hne Hdigits].
  { unfold digits_only in Hlit. destruct (unsigned_part l) as [|c r]; [done|].
    split; [done|]. apply Forall_forall. intros x Hx.
    rewrite forallb_forall in Hlit. apply Hlit. by apply list_elem_of_In. }
  assert (Forall plain l ∧ "/"%char ∉ l) as [Hplain Hslash].
  { assert (Forall plain (unsigned_part l) ∧ "/"%char ∉ unsigned_part l) as [Hp Hs].
    { split.
      - eapply Forall_impl; [exact Hdigits|]. apply digit_plain.
      - intros Hin. rewrite Forall_forall in Hdigits.
        by destruct (digit_not_sign _ (Hdigits _ Hin)) as (_ & _ & ? & _). }
    destruct l as [|c r]; [done|]. unfold unsigned_part in Hp, Hs.
    destruct (decide (c = "-"%char)) as [->|Hm].
    { split; [constructor; [by vm_compute | done]|].
      apply not_elem_of_cons. split; [done | done]. }
    destruct (decide (c = "+"%char)) as [->|Hpl].
    { split; [constructor; [by vm_compute | done]|].
      apply not_elem_of_cons. split; [done | done]. }
    assert (match c with "-"%char | "+"%char => r | _ => c :: r end = c :: r) as Heq.
    { destruct c as [[] [] [] [] [] [] [] []]; try done. }
    by rewrite Heq in Hp, Hs. }
  rewrite strip_plain, filter_plain by done.
  assert (parse_finite (unsigned_part l) = Some (int_of_digits (unsigned_part l), 0)) as Hpf.
  { unfold parse_finite. rewrite span_digits_all by done. rewrite app_nil_r.
    destruct (unsigned_part l); [done|]. simpl. done. }
  split_and!; [| by apply int_of_digits_nonneg | done].
  destruct l as [|c r]; [done|].
  destruct (decide (c = "-"%char)) as [->|Hm].
  { simpl in *. by rewrite Hpf. }
  destruct (decide (c = "+"%char)) as [->|Hpl].
  { simpl in *. by rewrite Hpf. }
  assert (unsigned_part (c :: r) = c :: r) as Heq.
  { destruct c as [[] [] [] [] [] [] [] []]; try done. }
  rewrite Heq in Hpf.
  assert (match c with "-"%char => (true, r) | "+"%char => (false, r)
          | _ => (false, c :: r) end = (false, c :: r)) as ->.
  { destruct c as [[] [] [] [] [] [] [] []]; try done. }
  rewrite Hpf, Heq.
  by destruct c as [[] [] [] [] [] [] [] []].
Qed.

End Numerals.

(** ** [Decimal(str(d))] is [d] *)

Section RoundTrip.
Local Open Scope Z_scope.

Lemma digits_Forall (n : Z) : 0 <= n → Forall (fun c => is_digit c = true) (digits n).
Proof. intros Hn. by destruct (digits_spec n Hn) as (? & _). Qed.

Lemma digits_value (n : Z) : 0 <= n → int_of_digits (digits n) = n.
Proof. intros Hn. by destruct (digits_spec n Hn) as (_ & ? & _). Qed.

Lemma digits_nonempty (n : Z) : 0 <= n → digits n ≠ [].
Proof.
  intros Hn Hnil. pose proof (ndigits_pos n Hn) as Hp. unfold ndigits in Hp.
  rewrite Hnil in Hp. simpl in Hp. lia.
Qed.

Lemma parse_exponent_signed (x : Z) : parse_exponent (signed_chars x) = Some x.
Proof.
  unfold signed_chars, str_of_Z. destruct (x <? 0) eqn:Hx.
  - apply Z.ltb_lt in Hx. unfold parse_exponent.
    rewrite span_digits_all by (apply digits_Forall; lia).
    pose proof (digits_nonempty (- x)) as Hne.
    destruct (digits (- x)) as [|c l] eqn:Hd; [by destruct Hne; [lia|]|].
    rewrite <- Hd, digits_value by lia. f_equal. lia.
  - apply Z.ltb_ge in Hx. unfold parse_exponent.
    rewrite span_digits_all by (apply digits_Forall; lia).
    pose proof (digits_nonempty x) as Hne.
    destruct (digits x) as [|c l] eqn:Hd; [by destruct Hne; [lia|]|].
    by rewrite <- Hd, digits_value by lia.
Qed.

(** A mantissa [ip [. fp]] followed by an optional exponent. *)
Lemma parse_finite_mantissa (ip fp : list ascii) (dot : bool) (expo : list ascii) (x : Z) :
  Forall (fun c => is_digit c = true) ip →
  Forall (fun c => is_digit c = true) fp →
  ip ≠ [] →
  (dot = false → fp = []) →
  (expo = [] ∧ x = 0) ∨ expo = "E"%char :: signed_chars x →
  parse_finite (ip ++ (if dot then "."%char :: fp ++ expo else expo))
  = Some (int_of_digits (ip ++ fp), x - Z.of_nat (length fp)).
Proof.
  intros Hip Hfp Hne Hdot Hexpo. unfold parse_finite.
  assert (match expo with [] => True | c :: _ => is_digit c = false end) as Hexd.
  { destruct Hexpo as [[-> _]| ->]; done. }
  rewrite span_digits_app; [|done|by destruct dot].
  assert ((match (if dot then "."%char :: fp ++ expo else expo) with
           | "."%char :: r => span_digits r
           | _ => ([], if dot then "."%char :: fp ++ expo else expo)
           end) = (fp, expo)) as ->.
  { destruct dot.
    - by apply span_digits_app.
    - rewrite (Hdot eq_refl). destruct Hexpo as [[-> _]| ->]; done. }
  destruct (ip ++ fp) as [|c l] eqn:Hl.
  { apply app_eq_nil in Hl as [-> _]. done. }
  destruct Hexpo as [[-> ->]| ->]; [done|].
  simpl. by rewrite parse_exponent_signed.
Qed.

Lemma sign_split_digit (c : ascii) (r : list ascii) :
  is_digit c = true →
  match c :: r with
  | "-"%char :: r' => (true, r')
  | "+"%char :: r' => (false, r')
  | _ => (false, c :: r)
  end = (false, c :: r).
Proof. intros Hd. destruct c as [[] [] [] [] [] [] [] []]; try done. Qed.

Lemma take_drop_digits (n : nat) (l : list ascii) :
  Forall (fun c => is_digit c = true) l →
  Forall (fun c => is_digit c = true) (take n l)
  ∧ Forall (fun c => is_digit c = true) (drop n l).
Proof. intros HF. split; [by apply Forall_take | by apply Forall_drop]. Qed.

(** The string of a finite decimal: its sign, a mantissa and an exponent
    that denote the same coefficient and exponent. *)
Lemma to_chars_shape (s : bool) (c e : Z) :
  0 <= c →
  ∃ (ip fp : list ascii) (dot : bool) (expo : list ascii) (x : Z),
    to_chars (Finite s c e)
    = (if s then ["-"%char] else []) ++ ip ++ (if dot then "."%char :: fp ++ expo else expo)
    ∧ Forall (fun c => is_digit c = true) ip
    ∧ Forall (fun c => is_digit c = true) fp
    ∧ ip ≠ []
    ∧ (dot = false → fp = [])
    ∧ ((expo = [] ∧ x = 0) ∨ expo = "E"%char :: signed_chars x)
    ∧ int_of_digits (ip ++ fp) = c
    ∧ x - Z.of_nat (length fp) = e.
Proof.
  intros Hc. unfold to_chars.
  pose proof (digits_Forall c Hc) as HD. pose proof (digits_value c Hc) as HV.
  pose proof (digits_nonempty c Hc) as HN.
  set (D := digits c) in *. set (len := Z.of_nat (length D)).
  assert (1 <= len) as Hlen.
  { unfold len. destruct D; [done | simpl; lia]. }
  set (L := e + len).
  set (dotplace := if (e <=? 0) && (-6 <? L) then L else 1).
  set (expo := if L =? dotplace then []
             else "E"%char :: (if L - dotplace <? 0 then str_of_Z (L - dotplace)
                               else "+"%char :: str_of_Z (L - dotplace))).
  assert (((expo = [] ∧ (L - dotplace) = 0) ∨ expo = "E"%char :: signed_chars (L - dotplace)))
    as Hexpo.
  { unfold expo. destruct (L =? dotplace) eqn:HL.
    - apply Z.eqb_eq in HL. left. split; [done | lia].
    - by right. }
  assert (dotplace = L ∨ dotplace = 1) as Hdp.
  { unfold dotplace. destruct ((e <=? 0) && (-6 <? L)); auto. }
  assert (dotplace = L → e <= 0 ∨ L = 1) as HdpL.
  { unfold dotplace. destruct (e <=? 0) eqn:He; simpl.
    - apply Z.leb_le in He. auto.
    - intros <-. auto. }
  destruct (dotplace <=? 0) eqn:H1.
  - apply Z.leb_le in H1.
    exists ["0"%char], (repeat "0"%char (Z.to_nat (- dotplace)) ++ D), true, expo, (L - dotplace).
    split_and!; try done.
    + repeat constructor.
    + apply Forall_app. split; [|done]. apply Forall_forall. intros x Hx.
      apply list_elem_of_In, repeat_spec in Hx. by subst x.
    + simpl app. rewrite int_of_digits_cons, int_of_digits_app, int_of_digits_zeros, HV.
      change (digit_val "0") with 0. lia.
    + rewrite length_app, repeat_length, Nat2Z.inj_add, Z2Nat.id by lia. fold len.
      destruct Hdp as [Hdp|Hdp]; lia.
  - apply Z.leb_gt in H1. destruct (len <=? dotplace) eqn:H2.
    + apply Z.leb_le in H2.
      assert (Z.to_nat (dotplace - len) = O) as Hk.
      { destruct Hdp as [Hdp|Hdp]; [|lia]. specialize (HdpL Hdp). lia. }
      exists D, [], false, expo, (L - dotplace). rewrite Hk. simpl repeat.
      rewrite !app_nil_r. split_and!; try done.
      simpl length. destruct Hdp as [Hdp|Hdp]; [|lia]. specialize (HdpL Hdp). lia.
    + apply Z.leb_gt in H2.
      destruct (take_drop_digits (Z.to_nat dotplace) D HD) as [Ht Hd].
      exists (take (Z.to_nat dotplace) D), (drop (Z.to_nat dotplace) D), true, expo,
        (L - dotplace).
      split_and!; try done.
      * intros Hnil. apply (f_equal length) in Hnil. rewrite length_take in Hnil.
        simpl in Hnil. lia.
      * by rewrite take_drop.
      * rewrite length_drop. fold len. lia.
Qed.

Lemma to_chars_plain (s : bool) (c e : Z) : 0 <= c → Forall plain (to_chars (Finite s c e)).
Proof.
  intros Hc. destruct (to_chars_shape s c e Hc)
    as (ip & fp & dot & expo & x & -> & Hip & Hfp & _ & _ & Hexpo & _).
  assert (Forall plain expo) as Hexp.
  { destruct Hexpo as [[-> _]| ->]; [constructor|].
    constructor; [by vm_compute|]. unfold signed_chars, str_of_Z.
    destruct (x <? 0) eqn:Hx.
    - apply Z.ltb_lt in Hx. constructor; [by vm_compute|].
      eapply Forall_impl; [apply digits_Forall; lia | apply digit_plain].
    - apply Z.ltb_ge in Hx. constructor; [by vm_compute|].
      eapply Forall_impl; [apply digits_Forall; lia | apply digit_plain]. }
  apply Forall_app. split; [destruct s; repeat constructor; by vm_compute|].
  apply Forall_app. split; [eapply Forall_impl; [exact Hip | apply digit_plain]|].
  destruct dot; [|done]. constructor; [by vm_compute|].
  apply Forall_app. split; [|done]. eapply Forall_impl; [exact Hfp | apply digit_plain].
Qed.

Theorem of_string_to_str (s : bool) (c e : Z) :
  0 <= c → of_string (to_str (Finite s c e)) = Ok (Finite s c e).
Proof.
  intros Hc. unfold of_string, to_str.
  rewrite list_ascii_of_string_of_list_ascii.
  rewrite strip_plain, filter_plain by by apply to_chars_plain.
  destruct (to_chars_shape s c e Hc)
    as (ip & fp & dot & expo & x & -> & Hip & Hfp & Hne & Hdot & Hexpo & Hv & He).
  pose proof (parse_finite_mantissa ip fp dot expo x Hip Hfp Hne Hdot Hexpo) as Hpf.
  rewrite Hv, He in Hpf.
  destruct s; simpl app.
  - cbv iota beta. by rewrite Hpf.
  - destruct ip as [|c0 ip]; [done|]. simpl app in *.
    pose proof (List.Forall_inv Hip) as Hd. simpl in Hd.
    destruct c0 as [[] [] [] [] [] [] [] []]; try discriminate Hd;
      cbv iota beta; by rewrite Hpf.
Qed.

End RoundTrip.

(** ** The arithmetic of the fraction parser *)

Section Arithmetic.
Local Open Scope Z_scope.

Lemma pow10_add (a b : Z) : 0 <= a → 0 <= b → 10 ^ (a + b) = 10 ^ a * 10 ^ b.
Proof. intros. by apply Z.pow_add_r. Qed.

Lemma pow10_ge_1 (k : Z) : 0 <= k → 1 <= 10 ^ k.
Proof. intros Hk. pose proof (pow10_pos k Hk). lia. Qed.

Lemma pow10_mono (a b : Z) : 0 <= a <= b → 10 ^ a <= 10 ^ b.
Proof. intros. apply Z.pow_le_mono_r; lia. Qed.

(** [C = ceil(100 n / d)] *)
Lemma ceil_spec (n d : Z) :
  0 <= n → 0 < d →
  ((100 * n + d - 1) / d - 1) * d < 100 * n <= (100 * n + d - 1) / d * d.
Proof.
  intros Hn Hd. pose proof (Z.div_mod (100 * n + d - 1) d) as Hdm.
  pose proof (Z.mod_pos_bound (100 * n + d - 1) d Hd) as Hb. lia.
Qed.

Lemma ceil_unique (x P C : Z) : 0 < P → (C - 1) * P < x <= C * P → (x + P - 1) / P = C.
Proof.
  intros HP [Hlo Hhi]. symmetry. apply (Z.div_unique_pos _ _ _ (x + P - 1 - C * P)); lia.
Qed.

Lemma _fix_finite_cent (s : bool) (c : Z) :
  ndigits c <= prec → _fix_finite s c (-2) = Ok (Finite s c (-2)).
Proof.
  intros Hn. unfold _fix_finite.
  destruct (c =? 0) eqn:Hc.
  { apply Z.eqb_eq in Hc as ->. done. }
  assert ((Etop <? ndigits c + -2 - prec) = false) as ->.
  { apply Z.ltb_ge. unfold Etop, Emax, prec in *. lia. }
  destruct (ndigits c + -2 - prec <? Etiny).
  - by assert ((-2 <? Etiny) = false) as -> by done.
  - assert ((-2 <? ndigits c + -2 - prec) = false) as ->; [|done].
    apply Z.ltb_ge. unfold prec in *. lia.
Qed.

(** [_rescale] with [ROUND_UP] to a larger exponent is the ceiling. *)
Lemma _rescale_up (s : bool) (c e exp : Z) :
  0 < c → e < exp →
  _rescale s c e exp ROUND_UP = Finite s ((c + 10 ^ (exp - e) - 1) / 10 ^ (exp - e)) exp.
Proof.
  intros Hc He. unfold _rescale.
  assert ((exp <=? e) = false) as -> by (apply Z.leb_gt; lia).
  pose proof (ndigits_bounds c Hc) as Hb. pose proof (ndigits_pos c) as Hp.
  set (m := exp - e). assert (0 < m) as Hm by (unfold m; lia).
  pose proof (pow10_pos m) as HP.
  destruct (ndigits c + e - exp <? 0) eqn:Hd.
  - apply Z.ltb_lt in Hd. f_equal.
    assert (c < 10 ^ m) as Hcm.
    { assert (10 ^ ndigits c <= 10 ^ m) by (apply pow10_mono; lia). lia. }
    rewrite (ceil_unique c (10 ^ m) 1) by lia. done.
  - apply Z.ltb_ge in Hd. f_equal.
    replace (ndigits c - (ndigits c + e - exp)) with m by (unfold m; lia).
    simpl _pick_rounding_function. unfold _round_up.
    pose proof (Z.div_mod c (10 ^ m)) as Hdm.
    pose proof (Z.mod_pos_bound c (10 ^ m)) as Hmb.
    destruct (c mod 10 ^ m =? 0) eqn:Hr.
    + apply Z.eqb_eq in Hr. simpl. symmetry. apply ceil_unique; lia.
    + apply Z.eqb_neq in Hr. simpl. symmetry. apply ceil_unique; lia.
Qed.

Lemma quantize_bracket (s : bool) (c e C : Z) :
  0 < c → C < 10 ^ 27 → two_places_bracket c e C →
  quantize (Finite s c e) cent ROUND_UP = Ok (Finite s C (-2)).
Proof.
  intros Hc HC Hbr.
  assert (10 ^ 27 = 1000000000000000000000000000) as E27 by reflexivity.
  assert (0 < C ∧ ndigits c + e <= 25) as [HC0 Hadj].
  { destruct Hbr as [[He [Hlo Hhi]]|[He <-]].
    - pose proof (pow10_pos (-2 - e) ltac:(lia)) as HP.
      assert (0 < C).
      { destruct (Z_le_gt_dec C 0) as [Hle|]; [|lia].
        pose proof (Z.mul_nonpos_nonneg C _ Hle (Z.lt_le_incl _ _ HP)). lia. } split; [done|].
      assert (ndigits c <= 27 + (-2 - e)); [|lia].
      apply ndigits_lt_pow; [done|]. rewrite pow10_add by lia. nia.
    - pose proof (pow10_pos (e + 2) ltac:(lia)) as HP. split; [nia|].
      assert (e <= 25) as He'.
      { destruct (Z_le_gt_dec e 25); [done|exfalso].
        assert (10 ^ 27 <= 10 ^ (e + 2)) by (apply pow10_mono; lia). nia. }
      assert (ndigits c <= 25 - e); [|lia].
      apply ndigits_lt_pow; [done|].
      assert (10 ^ 27 = 10 ^ (25 - e) * 10 ^ (e + 2)) as E.
      { rewrite <- pow10_add by lia. f_equal. lia. }
      rewrite E in HC. nia. }
  assert (ndigits C <= 27) as HnC by (by apply ndigits_lt_pow).
  pose proof (ndigits_pos C) as HpC.
  assert (_rescale s c e (-2) ROUND_UP = Finite s C (-2)) as Hres.
  { destruct Hbr as [[He Hb]|[He <-]].
    - destruct (decide (e = -2)) as [->|Hne].
      + unfold _rescale. simpl. f_equal. change (10 ^ (-2 - -2)) with 1 in Hb. lia.
      + rewrite _rescale_up by lia. f_equal.
        apply ceil_unique; [apply pow10_pos; lia|done].
    - unfold _rescale. assert ((-2 <=? e) = true) as -> by (apply Z.leb_le; lia).
      by replace (e - -2) with (e + 2) by lia. }
  unfold quantize, cent. cbn [_check_nans].
  change (negb ((Etiny <=? -2) && (-2 <=? Emax))) with false. cbv iota.
  assert ((c =? 0) = false) as -> by (apply Z.eqb_neq; lia).
  assert ((Emax <? adjusted c e) = false) as ->.
  { apply Z.ltb_ge. unfold adjusted, Emax. lia. }
  assert ((prec <? adjusted c e - -2 + 1) = false) as ->.
  { apply Z.ltb_ge. unfold adjusted, prec. lia. }
  rewrite Hres.
  assert ((Emax <? adjusted C (-2)) = false) as ->.
  { apply Z.ltb_ge. unfold adjusted, Emax. lia. }
  assert ((prec <? ndigits C) = false) as ->.
  { apply Z.ltb_ge. unfold prec. lia. }
  apply _fix_finite_cent. unfold prec. lia.
Qed.

Lemma _fix_finite_keeps (s : bool) (c e : Z) :
  0 < c → ndigits c <= prec → Etiny <= e <= 0 →
  _fix_finite s c e = Ok (Finite s c e).
Proof.
  intros Hc Hn [He1 He2]. unfold _fix_finite.
  assert ((c =? 0) = false) as -> by (apply Z.eqb_neq; lia).
  assert ((Etop <? ndigits c + e - prec) = false) as ->.
  { apply Z.ltb_ge. unfold Etop, Emax, prec in *. lia. }
  destruct (ndigits c + e - prec <? Etiny).
  - by assert ((e <? Etiny) = false) as -> by (apply Z.ltb_ge; lia).
  - by assert ((e <? ndigits c + e - prec) = false) as -> by (apply Z.ltb_ge; lia).
Qed.

Lemma _round_half_even_up (c k : Z) :
  0 <= c → 0 <= k → 0 < _round_half_even c k → c mod 10 ^ k ≠ 0.
Proof.
  intros Hc Hk. unfold _round_half_even.
  pose proof (pow10_pos k Hk).
  destruct ((2 * (c mod 10 ^ k) =? 10 ^ k) && Z.even (c / 10 ^ k)); [done|].
  destruct (10 ^ k <=? 2 * (c mod 10 ^ k)) eqn:E.
  - apply Z.leb_le in E. lia.
  - by destruct (c mod 10 ^ k =? 0).
Qed.

(** Rounding a 29- or 30-digit coefficient to the precision keeps it inside
    the hundredth it lies in, provided it is not within [10^k] of the
    hundredth's lower end. *)
Lemma _fix_finite_rounds (s : bool) (c1 e1 C : Z) :
  10 ^ 28 <= c1 < 10 ^ 30 →
  Etiny <= e1 + (ndigits c1 - 28) <= -3 →
  c1 <= C * 10 ^ (-2 - e1) →
  (C - 1) * 10 ^ (-2 - e1) + 10 ^ (ndigits c1 - 28) <= c1 →
  ∃ c' e', _fix_finite s c1 e1 = Ok (Finite s c' e') ∧ 0 < c' ∧ two_places_bracket c' e' C.
Proof.
  intros [Hlo Hhi] [Het Hem] HU HL.
  assert (10 ^ 28 = 10000000000000000000000000000) as E28 by reflexivity.
  assert (0 < c1) as Hc1 by lia.
  assert (29 <= ndigits c1 <= 30) as Hnd.
  { split; [by apply (ndigits_ge_pow c1 28)|by apply ndigits_lt_pow]. }
  pose proof (ndigits_bounds c1 Hc1) as Hb.
  set (k := ndigits c1 - 28) in *.
  set (m := -2 - e1 - k). assert (1 <= m) as Hm by (unfold m; lia).
  set (P1 := 10 ^ (m - 1)). assert (0 < P1) as HP1 by (apply pow10_pos; lia).
  assert (10 ^ m = 10 * P1) as EP.
  { unfold P1. replace m with (1 + (m - 1)) at 1 by lia. by rewrite pow10_add by lia. }
  assert (10 ^ (-2 - e1) = 10 ^ k * (10 * P1)) as EQ.
  { rewrite <- EP, <- pow10_add by lia. f_equal. unfold m. lia. }
  assert (10 ^ (ndigits c1 - 1) = 10 ^ k * 1000000000000000000000000000
          ∧ 10 ^ ndigits c1 = 10 ^ k * 10000000000000000000000000000) as [Eb1 Eb2].
  { split.
    - replace (ndigits c1 - 1) with (k + 27) by (unfold k; lia). by rewrite pow10_add by lia.
    - replace (ndigits c1) with (k + 28) at 1 by (unfold k; lia). by rewrite pow10_add by lia. }
  rewrite Eb1, Eb2 in Hb. rewrite EQ in HU, HL.
  assert (10 ^ k = 10 ∨ 10 ^ k = 100) as HQ.
  { destruct (decide (k = 1)) as [->|]; [by left|right].
    by replace k with 2 by lia. }
  assert (0 <= k) as Hk0 by lia.
  pose proof (Z.div_mod c1 (10 ^ k)) as Hdm.
  pose proof (Z.mod_pos_bound c1 (10 ^ k)) as Hmb.
  unfold _fix_finite.
  assert ((c1 =? 0) = false) as -> by (apply Z.eqb_neq; lia).
  replace (ndigits c1 + e1 - prec) with (e1 + k) by (unfold k, prec; lia).
  assert ((Etop <? e1 + k) = false) as ->.
  { apply Z.ltb_ge. unfold Etop, Emax, prec. lia. }
  assert ((e1 + k <? Etiny) = false) as -> by (apply Z.ltb_ge; lia).
  assert ((e1 <? e1 + k) = true) as -> by (apply Z.ltb_lt; lia).
  replace (ndigits c1 + e1 - (e1 + k)) with 28 by (unfold k; lia).
  change (28 <? 0) with false. cbv beta iota zeta.
  replace (ndigits c1 - 28) with k by done.
  set (keep := c1 / 10 ^ k) in *. set (rem := c1 mod 10 ^ k) in *.
  assert ((C - 1) * (10 * P1) + 1 <= keep <= C * (10 * P1)) as Hkeep.
  { destruct HQ as [HQ|HQ]; rewrite HQ in *; lia. }
  assert (keep < 10 ^ 28) as Hk28.
  { destruct HQ as [HQ|HQ]; rewrite HQ in *; lia. }
  assert (∀ c' e', (Etop <? e') = false → 0 < c' → two_places_bracket c' e' C →
    ∃ c'' e'', (if Etop <? e' then Raise Overflow else Ok (Finite s c' e'))
               = Ok (Finite s c'' e'') ∧ 0 < c'' ∧ two_places_bracket c'' e'' C) as Hfin.
  { intros c' e' -> Hc' Hbr'. exists c', e'. split; [reflexivity|]. split; assumption. }
  destruct (0 <? _round_half_even c1 k) eqn:Hch.
  - apply Z.ltb_lt, _round_half_even_up in Hch; [|lia..]. fold rem in Hch.
    assert (keep + 1 <= C * (10 * P1)) as Hup.
    { destruct HQ as [HQ|HQ]; rewrite HQ in *; lia. }
    destruct (prec <? ndigits (keep + 1)) eqn:Hcar.
    + apply Z.ltb_lt in Hcar.
      assert (keep + 1 = 10 ^ 28) as Ecar.
      { destruct (Z_lt_le_dec (keep + 1) (10 ^ 28)) as [Hlt|]; [exfalso|lia].
        apply ndigits_lt_pow in Hlt; [|lia]. unfold prec in Hcar. lia. }
      rewrite Ecar. apply Hfin.
      * apply Z.ltb_ge. unfold Etop, Emax, prec. lia.
      * done.
      * left. split; [lia|].
        replace (-2 - (e1 + k + 1)) with (m - 1) by (unfold m; lia). fold P1.
        change (10 ^ 28 / 10) with 1000000000000000000000000000. lia.
    + apply Hfin.
      * apply Z.ltb_ge. unfold Etop, Emax, prec. lia.
      * lia.
      * left. split; [lia|].
        replace (-2 - (e1 + k)) with m by (unfold m; lia). rewrite EP. lia.
  - apply Hfin.
    + apply Z.ltb_ge. unfold Etop, Emax, prec. lia.
    + destruct HQ as [HQ|HQ]; rewrite HQ in *; lia.
    + left. split; [lia|].
      replace (-2 - (e1 + k)) with m by (unfold m; lia). rewrite EP. lia.
Qed.

Lemma strip_zeros_spec (fuel : nat) (c e ideal : Z) :
  0 < c →
  ∃ j c', strip_zeros fuel c e ideal = (c', e + j) ∧ 0 <= j <= Z.of_nat fuel
          ∧ c = c' * 10 ^ j ∧ 0 < c'.
Proof.
  revert c e. induction fuel as [|fuel IH]; intros c e Hc.
  { exists 0, c. simpl. rewrite Z.add_0_r. repeat split; lia. }
  cbn [strip_zeros].
  destruct ((e <? ideal) && (c mod 10 =? 0)) eqn:Ht.
  - apply andb_true_iff in Ht as [_ Hmod%Z.eqb_eq].
    pose proof (Z.div_mod c 10) as Hdm.
    destruct (IH (c / 10) (e + 1)) as (j & c' & -> & Hj & Hcc & Hc'); [lia|].
    exists (j + 1), c'. repeat split; [f_equal; lia|lia|lia| |done].
    rewrite pow10_add by lia. change (10 ^ 1) with 10. lia.
  - exists 0, c. rewrite Z.add_0_r. repeat split; lia.
Qed.

Lemma mul_cancel_le (a b d : Z) : 0 < d → a * d <= b * d → a <= b.
Proof. intros. by apply (Z.mul_le_mono_pos_r _ _ d). Qed.

Lemma mul_cancel_lt (a b d : Z) : 0 < d → a * d < b * d → a < b.
Proof. intros. by apply (Z.mul_lt_mono_pos_r d). Qed.

(** The quotient of two positive integers, as [__truediv__] rounds it to 28
    significant digits, still lies in the hundredth of the exact quotient
    when the numerator has at most 25 digits. *)
Lemma truediv_bracket (sa sb : bool) (n d : Z) :
  0 < n < 10 ^ 25 → 0 < d → ndigits d <= 999999 →
  ∃ c e, truediv (Finite sa n 0) (Finite sb d 0) = Ok (Finite (xorb sa sb) c e)
         ∧ 0 < c ∧ two_places_bracket c e ((100 * n + d - 1) / d).
Proof.
  intros [Hn0 Hn25] Hd0 HLd.
  assert (10 ^ 28 = 10000000000000000000000000000) as E28 by reflexivity.
  assert (10 ^ 30 = 1000000000000000000000000000000) as E30 by reflexivity.
  pose proof (ndigits_bounds n Hn0) as Hbn. pose proof (ndigits_bounds d Hd0) as Hbd.
  pose proof (ndigits_pos n ltac:(lia)) as Hpn. pose proof (ndigits_pos d ltac:(lia)) as Hpd.
  assert (ndigits n <= 25) as HLn by (by apply ndigits_lt_pow).
  pose proof (ceil_spec n d ltac:(lia) Hd0) as [HClo HChi].
  set (C := (100 * n + d - 1) / d) in *.
  set (Ln := ndigits n) in *. set (Ld := ndigits d) in *.
  set (s := Ld - Ln + 29). set (M := s - 2).
  assert (5 <= s <= Ld + 28) as Hs by (unfold s; lia).
  assert (0 < 10 ^ M) as HPM by (apply pow10_pos; unfold M; lia).
  assert (10 ^ s = 100 * 10 ^ M) as H100.
  { replace s with (2 + M) by (unfold M; lia). by rewrite pow10_add by (unfold M; lia). }
  assert (d * 100 <= 10 ^ M) as HK.
  { assert (10 ^ (Ld + 2) <= 10 ^ M) as Hle by (apply pow10_mono; unfold M, s; lia).
    rewrite pow10_add in Hle by lia. change (10 ^ 2) with 100 in Hle. lia. }
  set (N := n * 10 ^ s).
  assert (d * 10 ^ 28 <= N) as HN1.
  { assert (10 ^ (Ln - 1) * 10 ^ s = 10 ^ Ld * 10 ^ 28) as Heq.
    { rewrite <- !pow10_add by lia. f_equal. unfold s. lia. }
    assert (10 ^ (Ln - 1) * 10 ^ s <= N).
    { unfold N. apply Z.mul_le_mono_nonneg_r; [|lia]. rewrite H100. lia. }
    lia. }
  assert (N < d * 10 ^ 30) as HN2.
  { assert (10 ^ Ln * 10 ^ s = 10 ^ (Ld - 1) * 10 ^ 30) as Heq.
    { rewrite <- !pow10_add by lia. f_equal. unfold s. lia. }
    assert (N < 10 ^ Ln * 10 ^ s).
    { unfold N. apply Z.mul_lt_mono_pos_r; [|lia]. rewrite H100. lia. }
    assert (10 ^ (Ld - 1) * 10 ^ 30 <= d * 10 ^ 30) by (apply Z.mul_le_mono_nonneg_r; lia).
    lia. }
  unfold truediv. cbn [_check_nans].
  assert ((d =? 0) = false) as -> by (apply Z.eqb_neq; lia).
  assert ((n =? 0) = false) as -> by (apply Z.eqb_neq; lia).
  fold Ln Ld. replace (Ld - Ln + prec + 1) with s by (unfold s, prec; lia).
  cbv zeta. replace (0 - 0 - s) with (- s) by lia.
  assert ((0 <=? s) = true) as -> by (apply Z.leb_le; lia).
  fold N. destruct (Z.div_eucl N d) as [q r] eqn:Ediv.
  assert (q = N / d) as Eq by (unfold Z.div; by rewrite Ediv).
  assert (r = N mod d) as Er by (unfold Z.modulo; by rewrite Ediv).
  pose proof (Z.div_mod N d ltac:(lia)) as Hdm. rewrite <- Eq, <- Er in Hdm.
  pose proof (Z.mod_pos_bound N d Hd0) as Hrb. rewrite <- Er in Hrb.
  assert (10 ^ 28 <= q) as Hq28.
  { rewrite Eq. apply Z.div_le_lower_bound; lia. }
  assert (q < 10 ^ 30) as Hq30.
  { rewrite Eq. apply Z.div_lt_upper_bound; lia. }
  assert (N = 100 * n * 10 ^ M) as EN by (unfold N; rewrite H100; lia).
  destruct (r =? 0) eqn:Hr0; cbn [negb]; cbv iota.
  - (* the quotient is exact *)
    apply Z.eqb_eq in Hr0.
    replace (0 - 0 - - s) with s by lia.
    destruct (strip_zeros_spec (Z.to_nat s) q (- s) (0 - 0) ltac:(lia))
      as (j & c1 & -> & Hj & Hqc & Hc1).
    rewrite Z2Nat.id in Hj by lia.
    pose proof (pow10_pos j ltac:(lia)) as HT.
    assert (q * d = N) as HqN by lia.
    assert (c1 <= q) as Hc1q by nia.
    destruct (Z_le_gt_dec j M) as [HjM|HjM].
    + (* the result keeps an exponent of at most -2 *)
      set (P := 10 ^ (M - j)).
      assert (0 < P) as HP by (apply pow10_pos; lia).
      assert (10 ^ M = P * 10 ^ j) as EM.
      { unfold P. rewrite <- pow10_add by lia. f_equal. lia. }
      assert (c1 * d = 100 * n * P) as Hcd.
      { apply (Z.mul_cancel_r _ _ (10 ^ j)); [lia|].
        transitivity N; [rewrite <- HqN, Hqc; ring|rewrite EN, EM; ring]. }
      assert ((C - 1) * P < c1 <= C * P) as Hbr.
      { split.
        - apply (mul_cancel_lt _ _ d Hd0). rewrite Hcd.
          replace ((C - 1) * P * d) with ((C - 1) * d * P) by ring.
          by apply Z.mul_lt_mono_pos_r.
        - apply (mul_cancel_le _ _ d Hd0). rewrite Hcd.
          replace (C * P * d) with (C * d * P) by ring.
          apply Z.mul_le_mono_nonneg_r; lia. }
      destruct (Z_le_gt_dec (ndigits c1) 28) as [Hn28|Hn28].
      * exists c1, (- s + j). split; [|split; [done|]].
        -- apply _fix_finite_keeps; [done|done|].
           assert (1 <= j).
           { destruct (decide (j = 0)) as [->|]; [exfalso|lia].
             pose proof (ndigits_bounds c1 Hc1) as Hb1.
             assert (10 ^ ndigits c1 <= 10 ^ 28).
             { apply pow10_mono. pose proof (ndigits_pos c1). lia. }
             change (10 ^ 0) with 1 in Hqc. lia. }
           unfold Etiny, Emin, prec. lia.
        -- left. split; [lia|]. by replace (-2 - (- s + j)) with (M - j) by (unfold M; lia).
      * pose proof (ndigits_bounds c1 Hc1) as Hb1.
        assert (ndigits c1 <= 30) as Hn30 by (apply ndigits_lt_pow; lia).
        assert (10 ^ 28 <= c1) as Hc28.
        { assert (10 ^ 28 <= 10 ^ (ndigits c1 - 1)) by (apply pow10_mono; lia). lia. }
        set (k := ndigits c1 - 28).
        assert (j + k <= 2) as Hjk.
        { destruct (Z_le_gt_dec (j + k) 2) as [|Hgt]; [done|exfalso].
          assert (10 ^ 30 <= 10 ^ (ndigits c1 - 1 + j)) as Hle.
          { apply pow10_mono. unfold k in Hgt. lia. }
          rewrite pow10_add in Hle by lia.
          assert (10 ^ (ndigits c1 - 1) * 10 ^ j <= c1 * 10 ^ j)
            by (apply Z.mul_le_mono_nonneg_r; lia).
          lia. }
        apply _fix_finite_rounds; fold k.
        -- lia.
        -- unfold Etiny, Emin, prec, k. lia.
        -- replace (-2 - (- s + j)) with (M - j) by (unfold M; lia). apply Hbr.
        -- replace (-2 - (- s + j)) with (M - j) by (unfold M; lia). fold P.
           assert (d * 10 ^ k <= P) as HdP.
           { apply (mul_cancel_le _ _ (10 ^ j) HT). rewrite <- EM.
             rewrite <- Z.mul_assoc, <- pow10_add by (unfold k; lia).
             assert (10 ^ (k + j) <= 10 ^ 2) by (apply pow10_mono; unfold k; lia).
             change (10 ^ 2) with 100 in *. nia. }
           apply (mul_cancel_le _ _ d Hd0). rewrite Hcd.
           assert (((C - 1) * d + 1) * P <= 100 * n * P)
             by (apply Z.mul_le_mono_nonneg_r; lia).
           lia.
    + (* an exponent of -1 or 0 *)
      set (T := 10 ^ (j - M)).
      assert (0 < T) as HT' by (apply pow10_pos; lia).
      assert (10 ^ j = T * 10 ^ M) as Ej.
      { unfold T. rewrite <- pow10_add by (unfold M; lia). f_equal. lia. }
      assert (c1 * T * d = 100 * n) as Hcd.
      { apply (Z.mul_cancel_r _ _ (10 ^ M)); [lia|].
        transitivity N; [rewrite <- HqN, Hqc, Ej; ring|rewrite EN; ring]. }
      assert (c1 * T = C) as HC.
      { assert (C - 1 < c1 * T) by (apply (mul_cancel_lt _ _ d Hd0); lia).
        assert (c1 * T <= C) by (apply (mul_cancel_le _ _ d Hd0); lia). lia. }
      assert (c1 < 10 ^ 28) as Hc28.
      { assert (100 * n < 10 ^ 28) by (change (10 ^ 25) with 10000000000000000000000000 in Hn25; lia).
        nia. }
      exists c1, (- s + j). split; [|split; [done|]].
      * apply _fix_finite_keeps; [done|by apply ndigits_lt_pow|].
        unfold Etiny, Emin, prec, M in *. lia.
      * right. split; [unfold M in *; lia|].
        by replace (- s + j + 2) with (j - M) by (unfold M; lia).
  - (* a remainder is left: the sticky digit *)
    apply Z.eqb_neq in Hr0.
    set (c1 := if q mod 5 =? 0 then q + 1 else q).
    assert (q <= c1 <= q + 1 ∧ c1 < 10 ^ 30) as [Hc1 Hc30].
    { unfold c1. destruct (q mod 5 =? 0) eqn:H5; [|lia].
      apply Z.eqb_eq in H5. pose proof (Z.div_mod q 5 ltac:(lia)). lia. }
    assert (29 <= ndigits c1 <= 30) as Hnd.
    { split; [apply (ndigits_ge_pow c1 28); lia|apply ndigits_lt_pow; lia]. }
    assert (q < C * 10 ^ M) as Hup.
    { apply (mul_cancel_lt _ _ d Hd0).
      assert (100 * n * 10 ^ M <= C * d * 10 ^ M) by (apply Z.mul_le_mono_nonneg_r; lia).
      lia. }
    apply _fix_finite_rounds.
    + lia.
    + unfold Etiny, Emin, prec. lia.
    + replace (-2 - - s) with M by (unfold M; lia). lia.
    + replace (-2 - - s) with M by (unfold M; lia).
      assert (10 ^ (ndigits c1 - 28) <= 10 ^ 2) as Hk by (apply pow10_mono; lia).
      change (10 ^ 2) with 100 in Hk.
      assert ((C - 1) * 10 ^ M + 100 < q + 1); [|lia].
      apply (mul_cancel_lt _ _ d Hd0).
      assert (((C - 1) * d + 1) * 10 ^ M <= 100 * n * 10 ^ M)
        by (apply Z.mul_le_mono_nonneg_r; lia).
      lia.
Qed.

Lemma ceil_le (n d : Z) : 0 <= n → 0 < d → (100 * n + d - 1) / d <= 100 * n.
Proof.
  intros Hn Hd. destruct (ceil_spec n d Hn Hd) as [Hlo _].
  set (C := (100 * n + d - 1) / d) in *.
  destruct (Z_le_gt_dec C (100 * n)) as [|Hgt]; [done|exfalso].
  assert ((C - 1) * 1 <= (C - 1) * d) by (apply Z.mul_le_mono_nonneg_l; lia). lia.
Qed.

Lemma Ok_bind {A B} (a : A) (f : A → result B) : Ok a ≫= f = f a.
Proof. reflexivity. Qed.

(** C1, as the code has it: on ["<integer>/<integer>"] whose numerator has
    at most 25 digits and whose denominator is not zero and has at most
    999999 digits, the fraction parser returns the exact quotient quantized
    to two decimal places, rounding away from zero.  (On longer numerators
    the quotient is first rounded to 28 significant digits, and a zero
    denominator raises.) *)
Theorem parse_number_two_places_up (num denum : string) :
  is_int_literal num = true → is_int_literal denum = true →
  literal_magnitude num < 10 ^ 25 →
  0 < literal_magnitude denum → ndigits (literal_magnitude denum) <= 999999 →
  _parse_number (Some (num +:+ "/" +:+ denum))
  = Ok (exact_two_places_up (xorb (literal_negative num) (literal_negative denum))
          (literal_magnitude num) (literal_magnitude denum)).
Proof.
  intros Hnum Hdenum Hn25 Hd0 HLd.
  destruct (of_string_int_literal num Hnum) as (En & Hn0 & Hsn).
  destruct (of_string_int_literal denum Hdenum) as (Ed & _ & Hsd).
  set (n := literal_magnitude num) in *. set (d := literal_magnitude denum) in *.
  set (sa := literal_negative num) in *. set (sb := literal_negative denum) in *.
  unfold _parse_number, exact_two_places_up. rewrite py_split_two, En, Ed by done.
  rewrite !Ok_bind.
  destruct (decide (n = 0)) as [->|Hne].
  - assert (truediv (Finite sa 0 0) (Finite sb d 0) = Ok (Finite (xorb sa sb) 0 0)) as ->.
    { unfold truediv. cbn [_check_nans].
      by assert ((d =? 0) = false) as -> by (apply Z.eqb_neq; lia). }
    rewrite !Ok_bind.
    rewrite of_string_to_str by done.
    rewrite !Ok_bind.
    replace ((100 * 0 + d - 1) / d) with 0 by (symmetry; apply Z.div_small; lia).
    done.
  - destruct (truediv_bracket sa sb n d) as (c & e & -> & Hc & Hbr); [lia..|].
    rewrite !Ok_bind.
    rewrite of_string_to_str by lia.
    rewrite !Ok_bind.
    apply quantize_bracket; [done| |done].
    pose proof (ceil_le n d Hn0 Hd0).
    change (10 ^ 25) with 10000000000000000000000000 in Hn25.
    change (10 ^ 27) with 1000000000000000000000000000. lia.
Qed.

End Arithmetic.

(** * Further properties *)

(** ** Entries and invoices *)

Lemma dict_of_list_pairs {K V} `{EqDecision K} (key : V → K) (l : list V) :
  dict_of_list key l [] = dict_of_pairs ((fun y => (key y, y)) <$> l).
Proof.
  unfold dict_of_list, dict_of_pairs. generalize ([] : pydict K V).
  induction l as [|y l IH]; intros d; [done|]. rewrite fmap_cons. simpl. apply IH.
Qed.

Lemma dict_of_pairs_keyed {K V} `{EqDecision K} (key : V → K) (l : list V) (k : K) (v : V) :
  (k, v) ∈ dict_of_pairs ((fun y => (key y, y)) <$> l) → k = key v.
Proof.
  intros Hin.
  assert (dict_get k (dict_of_pairs ((fun y => (key y, y)) <$> l)) = Some v) as Hget.
  { apply dict_get_elem_NoDup; [apply dict_of_pairs_keys_NoDup|done]. }
  apply dict_of_pairs_spec in Hget as (i & Hi & _).
  rewrite list_lookup_fmap in Hi. destruct (l !! i); [|done]. by injection Hi as <- <-.
Qed.

(** The entries of the invoices of a loaded book, read off the dictionary of
    entries. *)
Lemma loaded_entries (tree : Element) (h0 : Heap) (book : Book) (h : Heap) :
  _book_from_tree (Some tree) h0 = Ok (book, h) →
  ∃ taxtablesdict (E : list Entry),
    Forall2 (fun child e => _entry_from_tree child taxtablesdict = Ok e)
      (findall [gnc +:+ "GncEntry"] tree) E
    ∧ (∀ t, t ∈ dict_values taxtablesdict →
         ∃ child, child ∈ findall [gnc +:+ "GncTaxTable"] tree
                  ∧ _taxtable_from_tree child = Ok t)
    ∧ ∀ inv, inv ∈ Book_invoices book →
        Invoice_entries inv
        = filter (fun e => Entry_invoice_guid e = Invoice_guid inv)
            (dict_values (dict_of_pairs ((fun e => (Entry_guid e, e)) <$> E))).
Proof.
  intros Hload. apply _book_from_tree_phases in Hload as []. subst book. simpl.
  apply foldR_dict in ph_entries as (E & HE & ->).
  apply foldR_dict in ph_taxtables as (T & HT & ->).
  apply foldR_collect in ph_invoices as (invs & Hinvs & ->). simpl.
  rewrite dict_of_list_pairs in Hinvs. rewrite dict_of_list_pairs in HE.
  exists (dict_of_pairs ((fun t => (Taxtable_guid t, t)) <$> T)), E. split_and!; [done| |].
  - intros t Ht.
    apply dict_values_elem in Ht as (k & Hk); [|apply dict_of_pairs_keys_NoDup].
    apply dict_of_pairs_spec in Hk as (i & Hi & _).
    rewrite list_lookup_fmap in Hi. destruct (T !! i) as [t'|] eqn:Hti; [|done].
    injection Hi as _ ->.
    destruct (Forall2_lookup_r _ _ _ _ _ HT Hti) as (child & Hchild & Hparse).
    exists child. split; [by eapply list_elem_of_lookup_2|done].
  - intros inv Hin. apply list_elem_of_lookup in Hin as (i & Hi).
    destruct (Forall2_lookup_r _ _ _ _ _ Hinvs Hi) as (child & _ & Hinv). simpl in Hinv.
    apply invoice_entries_filter in Hinv as [-> _]; [done|].
    apply dict_of_pairs_keys_NoDup.
Qed.

Lemma entry_guids_of_records (tree : Element) taxtablesdict (E : list Entry) :
  Forall2 (fun child e => _entry_from_tree child taxtablesdict = Ok e)
    (findall [gnc +:+ "GncEntry"] tree) E →
  Entry_guid <$> E = entry_guid <$> findall [gnc +:+ "GncEntry"] tree.
Proof.
  induction 1 as [|child e l E He _ IH]; [done|].
  rewrite !fmap_cons, IH. f_equal. by apply _entry_from_tree_guid in He as [-> _].
Qed.

(** When the entry records have pairwise distinct guids, the entry list of
    an invoice holds its entries in the order of the entry records of the
    document. *)
Theorem invoice_entries_in_document_order (tree : Element) (h0 : Heap) (book : Book)
    (h : Heap) :
  _book_from_tree (Some tree) h0 = Ok (book, h) →
  NoDup (entry_guid <$> findall [gnc +:+ "GncEntry"] tree) →
  ∃ taxtablesdict (E : list Entry),
    Forall2 (fun child e => _entry_from_tree child taxtablesdict = Ok e)
      (findall [gnc +:+ "GncEntry"] tree) E
    ∧ ∀ inv, inv ∈ Book_invoices book →
        Invoice_entries inv = filter (fun e => Entry_invoice_guid e = Invoice_guid inv) E.
Proof.
  intros Hload Hnd. apply loaded_entries in Hload as (taxtablesdict & E & HE & _ & Hinv).
  exists taxtablesdict, E. split; [done|]. intros inv Hin. rewrite (Hinv inv Hin).
  f_equal. rewrite <- dict_of_list_pairs, dict_of_list_NoDup.
  - unfold dict_values. simpl. rewrite <- list_fmap_compose.
    clear. induction E as [|e E IH]; [done|]. by rewrite fmap_cons, IH.
  - simpl. by rewrite (entry_guids_of_records _ _ _ HE).
Qed.

(** Of the entry records that share a guid only the last is kept: an entry
    is in the entry list of an invoice exactly when it names the invoice and
    is made of the last entry record with its guid; no two entries of the
    list have the same guid. *)
Theorem invoice_entries_last_record_wins (tree : Element) (h0 : Heap) (book : Book)
    (h : Heap) :
  _book_from_tree (Some tree) h0 = Ok (book, h) →
  ∃ taxtablesdict (E : list Entry),
    Forall2 (fun child e => _entry_from_tree child taxtablesdict = Ok e)
      (findall [gnc +:+ "GncEntry"] tree) E
    ∧ ∀ inv, inv ∈ Book_invoices book →
        NoDup (Entry_guid <$> Invoice_entries inv)
        ∧ ∀ e, e ∈ Invoice_entries inv ↔
               Entry_invoice_guid e = Invoice_guid inv
               ∧ ∃ i, E !! i = Some e
                      ∧ ∀ j e', (i < j)%nat → E !! j = Some e' → Entry_guid e' ≠ Entry_guid e.
Proof.
  intros Hload. apply loaded_entries in Hload as (taxtablesdict & E & HE & _ & Hinv).
  exists taxtablesdict, E. split; [done|]. intros inv Hin. rewrite (Hinv inv Hin).
  set (d := dict_of_pairs ((fun e => (Entry_guid e, e)) <$> E)).
  assert (NoDup (dict_keys d)) as Hkeys by apply dict_of_pairs_keys_NoDup.
  assert (Entry_guid <$> dict_values d = dict_keys d) as Hguids.
  { unfold dict_values, dict_keys. rewrite <- list_fmap_compose.
    apply list_fmap_ext. intros i [k e] Hi. simpl. symmetry.
    eapply (dict_of_pairs_keyed Entry_guid E). by eapply list_elem_of_lookup_2. }
  split.
  - eapply sublist_NoDup; [|apply fmap_sublist, sublist_filter]. by rewrite Hguids.
  - intros e. rewrite list_elem_of_filter. apply and_iff_compat_l. split.
    + intros He. apply dict_values_elem in He as (k & Hk); [|done].
      apply dict_of_pairs_spec in Hk as (i & Hi & Hlast).
      rewrite list_lookup_fmap in Hi. destruct (E !! i) as [e'|] eqn:Hei; [|done].
      injection Hi as <- ->. exists i. split; [done|].
      intros j e' Hj Hej. apply (Hlast j (Entry_guid e', e') Hj).
      by rewrite list_lookup_fmap, Hej.
    + intros (i & Hi & Hlast). apply (dict_get_values d (Entry_guid e)).
      apply dict_of_pairs_spec. exists i. split; [by rewrite list_lookup_fmap, Hi|].
      intros j [k e'] Hj Hej. rewrite list_lookup_fmap in Hej.
      destruct (E !! j) as [e''|] eqn:Hej'; [|done]. injection Hej as <- <-. simpl.
      by eapply Hlast.
Qed.

(** ** Amounts *)

Lemma optional_number_two_places (x : option Element) (d : Decimal) :
  optional_number x = Ok (Some d) → two_places_or_NaN d.
Proof.
  destruct x as [e|]; simpl; [|done]. intros H.
  apply fmap_Ok in H as (d' & Hd & [= ->]). by eapply _parse_number_two_places.
Qed.

Lemma _entry_from_tree_amounts (child : Element) taxtabledict (e : Entry) :
  _entry_from_tree child taxtabledict = Ok e →
  (∀ d, Entry_qty e = Some d → two_places_or_NaN d)
  ∧ (∀ d, Entry_price e = Some d → two_places_or_NaN d)
  ∧ (∀ t, Entry_taxtable e = Some t → t ∈ dict_values taxtabledict).
Proof.
  intros H. unfold _entry_from_tree in H.
  apply bind_Ok in H as (guid & Hguid & H).
  apply bind_Ok in H as (qty & Hqty & H).
  apply bind_Ok in H as (price & Hprice & H).
  apply bind_Ok in H as ([taxable taxtable] & Htax & [= <-]). simpl.
  split_and!.
  - intros d ->. by eapply optional_number_two_places.
  - intros d ->. by eapply optional_number_two_places.
  - intros t ->. destruct (find [xml_entry +:+ "i-taxable"] child); [|done].
    apply bind_Ok in Htax as (id & _ & Htax).
    apply bind_Ok in Htax as (t' & Hitem & [= _ ->]).
    unfold dict_item in Hitem.
    destruct (dict_get id taxtabledict) eqn:Hget; [|done]. injection Hitem as ->.
    by eapply dict_get_values.
Qed.

Lemma _taxtable_from_tree_amounts (child : Element) (t : Taxtable) :
  _taxtable_from_tree child = Ok t →
  ∀ te, te ∈ Taxtable_taxtable_entries t → two_places_or_NaN (Taxtableentry_amount te).
Proof.
  intros H. unfold _taxtable_from_tree in H.
  apply bind_Ok in H as (guid & _ & H). apply bind_Ok in H as (name & _ & H).
  destruct (find [taxtable_ns +:+ "entries"] child) as [entries_tree|]; [|done].
  apply bind_Ok in H as (tes & Htes & [= <-]). simpl.
  apply foldR_collect in Htes as (ys & HF & ->). simpl.
  intros te Hin. apply list_elem_of_lookup in Hin as (i & Hi).
  destruct (Forall2_lookup_r _ _ _ _ _ HF Hi) as (c & _ & Hte).
  unfold _taxtableentry_from_tree in Hte.
  apply bind_Ok in Hte as (amount & Hamount & Hte).
  apply bind_Ok in Hte as (ty & _ & [= <-]). simpl.
  apply bind_Ok in Hamount as (tx & _ & Hamount). by eapply _parse_number_two_places.
Qed.

Lemma price_step_value prices (cd : CommodityDict) (child : Element) (h : Heap)
    prices' (cd' : CommodityDict) (h' : Heap) :
  price_step (prices, cd) child h = Ok ((prices', cd'), h') →
  ∃ p, prices' = prices ++ [p] ∧ two_places_or_NaN (Price_value p).
Proof.
  intros H. unfold price_step in H.
  apply bindS_Ok in H as ([p cd2] & h2 & Hp & H). apply retS_Ok in H as [[= -> ->] ->].
  unfold _price_from_tree in Hp.
  apply bindS_Ok in Hp as (guid & ? & H1 & Hp). apply lift_Ok in H1 as [_ ->].
  apply bindS_Ok in Hp as (value & ? & Hv & Hp). apply lift_Ok in Hv as [Hv ->].
  apply bindS_Ok in Hp as (date & ? & H1 & Hp). apply lift_Ok in H1 as [_ ->].
  apply bindS_Ok in Hp as (cur_space & ? & H1 & Hp). apply lift_Ok in H1 as [_ ->].
  apply bindS_Ok in Hp as (cur_name & ? & H1 & Hp). apply lift_Ok in H1 as [_ ->].
  apply bindS_Ok in Hp as ([currency cd1] & h1 & Hf1 & Hp).
  apply bindS_Ok in Hp as (com_space & ? & H1 & Hp). apply lift_Ok in H1 as [_ ->].
  apply bindS_Ok in Hp as (com_name & ? & H1 & Hp). apply lift_Ok in H1 as [_ ->].
  apply bindS_Ok in Hp as ([commodity cd2'] & h2' & Hf2 & Hp).
  apply retS_Ok in Hp as [[= -> ->] ->].
  eexists. split; [reflexivity|]. simpl.
  apply bind_Ok in Hv as (t & _ & Hv). by eapply _parse_number_two_places.
Qed.

(** Every amount of a loaded book that the fraction parser made has two
    decimal places, or is a NaN: the values of the prices, the quantities
    and prices of the entries of the invoices, and the amounts of the tax
    table entries they refer to. *)
Theorem loaded_amounts_two_places (tree : Element) (h0 : Heap) (book : Book) (h : Heap) :
  _book_from_tree (Some tree) h0 = Ok (book, h) →
  (∀ p, p ∈ Book_prices book → two_places_or_NaN (Price_value p))
  ∧ ∀ inv e, inv ∈ Book_invoices book → e ∈ Invoice_entries inv →
      (∀ d, Entry_qty e = Some d → two_places_or_NaN d)
      ∧ (∀ d, Entry_price e = Some d → two_places_or_NaN d)
      ∧ (∀ t te, Entry_taxtable e = Some t → te ∈ Taxtable_taxtable_entries t →
           two_places_or_NaN (Taxtableentry_amount te)).
Proof.
  intros Hload. split.
  - apply _book_from_tree_phases in Hload as []. subst book. simpl.
    clear -ph_prices. unfold load_prices in ph_prices.
    destruct (find [gnc +:+ "pricedb"] tree) as [t|].
    2:{ apply retS_Ok in ph_prices as [Heq _]. simplify_eq. intros p Hp.
        by apply elem_of_nil in Hp. }
    apply (foldM_invariant (fun _ st _ =>
             Forall (fun p => two_places_or_NaN (Price_value p)) st.1)) in ph_prices.
    + intros p Hp. by eapply Forall_forall in ph_prices.
    + constructor.
    + intros done child [prices1 cd1'] h1' [prices2 cd2] h2' IH _ Hstep.
      apply price_step_value in Hstep as (p & -> & Hp). simpl in *.
      apply Forall_app. split; [done|]. by constructor.
  - apply loaded_entries in Hload as (taxtablesdict & E & HE & HT & Hinv).
    intros inv e Hin He. rewrite (Hinv inv Hin) in He.
    apply list_elem_of_filter in He as [_ He].
    apply dict_values_elem in He as (k & Hk); [|apply dict_of_pairs_keys_NoDup].
    apply dict_of_pairs_spec in Hk as (i & Hi & _).
    rewrite list_lookup_fmap in Hi. destruct (E !! i) as [e'|] eqn:Hei; [|done].
    injection Hi as _ ->.
    destruct (Forall2_lookup_r _ _ _ _ _ HE Hei) as (child & _ & Hparse).
    apply _entry_from_tree_amounts in Hparse as (Hqty & Hprice & Htt).
    split_and!; [done..|]. intros t te Ht Hte.
    destruct (HT t (Htt t Ht)) as (tchild & _ & Htparse).
    by eapply _taxtable_from_tree_amounts.
Qed.

(** ** The fraction parser on a zero denominator *)

(** A zero denominator raises [decimal.DivisionByZero], and
    [decimal.InvalidOperation] when the numerator is zero as well. *)
Theorem parse_number_zero_denominator (num denum : string) :
  is_int_literal num = true → is_int_literal denum = true →
  literal_magnitude denum = 0%Z →
  _parse_number (Some (num +:+ "/" +:+ denum))
  = Raise (if (literal_magnitude num =? 0)%Z then InvalidOperation else DivisionByZero).
Proof.
  intros Hnum Hdenum Hzero.
  destruct (of_string_int_literal num Hnum) as (En & _ & Hsn).
  destruct (of_string_int_literal denum Hdenum) as (Ed & _ & Hsd).
  unfold _parse_number. rewrite py_split_two, En, Ed, Hzero by done.
  rewrite !Ok_bind. unfold truediv. cbn [_check_nans]. simpl (0 =? 0)%Z. cbv iota.
  by destruct (literal_magnitude num =? 0)%Z.
Qed.

(** ** Searching the account tree *)

Lemma head_filter_None {A} (P : A → Prop) `{∀ x, Decision (P x)} (l : list A) :
  head (filter P l) = None ↔ ∀ x, x ∈ l → ¬ P x.
Proof.
  induction l as [|x l IH]; simpl.
  - split; [|done]. intros _ x Hx. by apply elem_of_nil in Hx.
  - rewrite filter_cons. destruct (decide (P x)) as [HP|HP]; simpl.
    + split; [done|]. intros Hall. exfalso. apply (Hall x); [left|done].
    + rewrite IH. split.
      * intros Hall y [->|Hy]%elem_of_cons; [done|by apply Hall].
      * intros Hall y Hy. apply Hall. by right.
Qed.

Lemma head_filter_Some {A} (P : A → Prop) `{∀ x, Decision (P x)} (l : list A) (x : A) :
  head (filter P l) = Some x → x ∈ l ∧ P x.
Proof.
  intros Hh. assert (x ∈ filter P l) as Hin.
  { destruct (filter P l) as [|y l']; [done|]. injection Hh as ->. left. }
  apply list_elem_of_filter in Hin as [? ?]. done.
Qed.

(** [find_account] sees the accounts that [walk] yields, up to the first
    with the name. *)
Lemma find_account_loop_walk (h : Heap) (name : option string) (fuel : nat) (l : list nat)
    (out : list (nat * list nat * list nat)) :
  walk_loop h fuel l = Some out →
  find_account_loop h name fuel l
  = Some (head (filter (fun acc => Account_name (heap_accounts h !!! acc) = name) out.*1.*1)).
Proof.
  revert l out. induction fuel as [|fuel IH]; intros l out.
  - destruct l; simpl; [|done]. by intros [= <-].
  - destruct l as [|acc l]; simpl.
    { by intros [= <-]. }
    destruct (walk_loop h fuel _) as [rest|] eqn:Hrest; [|done]. simpl.
    intros [= <-]. rewrite !fmap_cons. simpl. rewrite filter_cons.
    destruct (decide (Account_name (heap_accounts h !!! acc) = name)); [done|].
    by apply IH.
Qed.

Lemma find_account_loop_more_fuel (h : Heap) (name : option string) (fuel fuel' : nat)
    (l : list nat) (r : option nat) :
  find_account_loop h name fuel l = Some r → (fuel ≤ fuel')%nat →
  find_account_loop h name fuel' l = Some r.
Proof.
  revert fuel' l. induction fuel as [|fuel IH]; intros fuel' l.
  - destruct l; simpl; [|done]. intros [= <-] _. by destruct fuel'.
  - destruct l as [|acc l]; simpl.
    { intros [= <-] _. by destruct fuel'. }
    intros Hfind Hle. destruct fuel' as [|fuel']; [lia|]. simpl.
    destruct (decide (Account_name (heap_accounts h !!! acc) = name)); [done|].
    apply IH; [done|lia].
Qed.

(** On a finite tree of accounts [find_account] returns the first account in
    breadth-first order that has the name, and [None] when no account of the
    tree has it. *)
Theorem find_account_first_in_level_order (h : Heap) (t : AccountTree)
    (name : option string) :
  represents h t →
  ∃ r,
    (∀ fuel, (tree_size t ≤ fuel)%nat →
       Account_find_account h fuel (tree_root t) name = Some r)
    ∧ r = head (filter (fun acc => Account_name (heap_accounts h !!! acc) = name)
                  (level_order (tree_size t) [t]))
    ∧ (r = None ↔
       ∀ acc, acc ∈ tree_accounts t → Account_name (heap_accounts h !!! acc) ≠ name)
    ∧ (∀ acc, r = Some acc →
         acc ∈ tree_accounts t ∧ Account_name (heap_accounts h !!! acc) = name).
Proof.
  intros Hrep.
  assert (forest_represented h [t]) as Hq by (by split).
  assert (forest_size [t] = tree_size t) as Hsize by (simpl; lia).
  pose proof (walk_loop_level_order h (tree_size t) [t] Hq ltac:(lia)) as Hwalk.
  rewrite Hsize in Hwalk. simpl in Hwalk.
  apply (find_account_loop_walk h name) in Hwalk. rewrite yielded_accounts in Hwalk.
  assert (∀ acc, acc ∈ level_order (tree_size t) [t] ↔ acc ∈ tree_accounts t) as Hmem.
  { intros acc. rewrite (level_order_accounts (tree_size t) [t]) by lia.
    simpl. by rewrite app_nil_r. }
  eexists. split_and!; [|reflexivity| |].
  - intros fuel Hfuel. by eapply find_account_loop_more_fuel.
  - rewrite head_filter_None. by setoid_rewrite Hmem.
  - intros acc Hacc. apply head_filter_Some in Hacc as [Hin ?]. by rewrite <- Hmem.
Qed.

(** ** The flat list of accounts and the root account *)

Lemma pass1_root (cd : CommodityDict) (es : list Element) (h : Heap) root ad pd (h' : Heap) :
  heap_accounts h = [] →
  foldM (account_step cd) (None, [], []) es h = Ok ((root, ad, pd), h') →
  last_root_record es root.
Proof.
  intros Hempty H.
  apply (foldM_invariant (fun done st h1 =>
    length (heap_accounts h1) = length done ∧ last_root_record done st.1.1)) in H.
  - by destruct H.
  - split; [by rewrite Hempty|]. intros child Hin. by apply elem_of_nil in Hin.
  - intros done child [[root1 ad1] pd1] h1 [[root2 ad2] pd2] h2 [Hlen Hroot] _ Hstep.
    simpl in Hroot.
    apply account_step_Ok in Hstep as (pg & a & Hbuilt & -> & _ & _ & ->).
    destruct Hbuilt as (_ & _ & Htype & _). simpl. split.
    { rewrite !length_app. simpl. lia. }
    rewrite Htype, Hlen. destruct (is_ROOT (account_type_of child)) eqn:Hr.
    + exists child. split_and!; [by rewrite list_lookup_middle|done|].
      intros j child' Hj Hlook. apply lookup_lt_Some in Hlook.
      rewrite length_app in Hlook. simpl in Hlook. lia.
    + destruct root1 as [r|]; simpl in *.
      * destruct Hroot as (child0 & Hchild0 & Hr0 & Hlast).
        exists child0. split_and!; [by apply lookup_app_l_Some|done|].
        intros j child' Hj Hlook.
        destruct (decide (j < length done)%nat) as [Hlt|Hge].
        -- rewrite lookup_app_l in Hlook by done. by eapply Hlast.
        -- assert (j = length done) as ->.
           { apply lookup_lt_Some in Hlook. rewrite length_app in Hlook. simpl in Hlook. lia. }
           rewrite list_lookup_middle in Hlook by done. by injection Hlook as <-.
      * intros child' [Hin|Hin%list_elem_of_singleton]%elem_of_app; [by apply Hroot|by subst].
Qed.

Lemma pass2_NoDup (ad : AccountDict) (pd : ParentDict) (h3 : Heap) (accounts : list nat)
    (h4 : Heap) :
  (∀ v, v ∈ dict_values ad → (v < length (heap_accounts h3))%nat) →
  (∀ i a, heap_accounts h3 !! i = Some a → Account_parent a = None) →
  foldM (link_step ad pd) [] (dict_values ad) h3 = Ok (accounts, h4) →
  NoDup accounts.
Proof.
  intros Hvalid Hnone H.
  apply (foldM_invariant (fun done accounts h =>
           pass2_invariant ad pd h3 done accounts h ∧ NoDup accounts)) in H.
  - by destruct H.
  - split; [|constructor]. unfold pass2_invariant. split_and!; try done.
    + apply Forall2_same_length_lookup_2; [done|]. intros i a a' Ha Ha'. by simplify_eq.
    + intros acc a p Ha Hp. by rewrite (Hnone _ _ Ha) in Hp.
    + intros acc a Hin. by apply elem_of_nil in Hin.
    + intros acc Hin. by apply elem_of_nil in Hin.
  - intros done acc accounts1 h1 accounts2 h2 [Hinv Hnd] Hprefix Hstep.
    assert (acc ∈ dict_values ad) as Hacc.
    { destruct Hprefix as [rest ->]. apply elem_of_app. left. apply elem_of_app. right. left. }
    split; [by eapply pass2_step|].
    pose proof Hinv as (_ & _ & _ & Hstatic & _ & _ & Haccounts).
    destruct (lookup_lt_is_Some_2 (heap_accounts h1) acc) as [a Ha].
    { rewrite <- (Forall2_length _ _ _ Hstatic). by apply Hvalid. }
    destruct (link_step_Ok _ _ _ _ _ _ _ a Hstep Ha)
      as [(Hp & _ & pg & p & _ & _ & -> & _)|(_ & -> & _)]; [|done].
    apply NoDup_app. split_and!; [done| |apply NoDup_singleton].
    intros x Hx ->%list_elem_of_singleton.
    destruct (Haccounts _ Hx) as (a' & Ha' & [p' Hp']). congruence.
Qed.

Lemma loaded_account_lists (tree : Element) (book : Book) (h : Heap) :
  _book_from_tree (Some tree) empty_heap = Ok (book, h) →
  NoDup (Book_accounts book)
  ∧ last_root_record (findall [gnc +:+ "account"] tree) (Book_root_account book).
Proof.
  intros Hload. apply _book_from_tree_phases in Hload as []. subst book. simpl.
  apply commodities_spec in ph_commodities as (Hf1 & _ & _).
  apply load_prices_spec in ph_prices as (_ & Hf2 & _ & _).
  pose proof (commodity_frame_trans _ _ _ Hf1 Hf2) as (Hacc2 & _). simpl in Hacc2.
  split; [|by eapply pass1_root].
  apply pass1_spec in ph_pass1 as (rs & Hbuilt & -> & Had & Hpd).
  rewrite Hacc2 in Had. simpl in Had.
  eapply pass2_NoDup; [| |exact ph_pass2].
  - intros v Hv. simpl. rewrite Hacc2. simpl. rewrite length_fmap.
    subst accountdict. by apply dict_values_imap_valid.
  - intros i a Ha. simpl in Ha. rewrite Hacc2 in Ha. simpl in Ha.
    rewrite list_lookup_fmap in Ha. destruct (rs !! i) as [r|] eqn:Hr; [|done].
    injection Ha as <-. destruct (Forall2_lookup_r _ _ _ _ _ Hbuilt Hr) as (child & _ & Hb).
    by destruct Hb as (_ & _ & _ & ? & _).
Qed.

(** An account of the flat list is the account of a non-root record. *)
Lemma flat_list_member (tree : Element) (book : Book) (h : Heap) (acc : nat) :
  Loaded tree book h → acc ∈ Book_accounts book →
  ∃ a child, heap_accounts h !! acc = Some a
             ∧ findall [gnc +:+ "account"] tree !! acc = Some child
             ∧ Account_guid a = account_guid_of child
             ∧ Account_actype a = account_type_of child
             ∧ is_ROOT (account_type_of child) = false
             ∧ is_Some (Account_parent a).
Proof.
  intros [] Hin. destruct (ld_accounts acc Hin) as (a & Ha & [p Hp]).
  destruct (ld_linked acc a p Ha Hp) as (Hnonroot & _).
  destruct (Forall2_lookup_r _ _ _ _ _ ld_static Ha) as ([pg r] & Hr & Hst).
  destruct (Forall2_lookup_r _ _ _ _ _ ld_built Hr) as (child & Hchild & Hb).
  simpl in Hst, Hb. unfold account_static in Hst. injection Hst as _ Hguid Htype _.
  destruct Hb as (_ & Hg & Ht & _).
  exists a, child. rewrite <- Hguid, <- Htype, Hg, Ht in *. by split_and!.
Qed.

(** A non-root record with a guid of its own has its account in the flat
    list. *)
Lemma flat_list_complete (tree : Element) (book : Book) (h : Heap) (i : nat)
    (child : Element) :
  Loaded tree book h →
  NoDup (account_guid_of <$> findall [gnc +:+ "account"] tree) →
  findall [gnc +:+ "account"] tree !! i = Some child →
  is_ROOT (account_type_of child) = false →
  i ∈ Book_accounts book
  ∧ ∃ a, heap_accounts h !! i = Some a ∧ Account_guid a = account_guid_of child.
Proof.
  intros [] Hnd Hi Hnonroot.
  destruct (built_guids _ _ _ ld_built) as [Hk1 _].
  destruct (Forall2_lookup_l _ _ _ _ _ ld_built Hi) as ([pgi ai] & Hri & Hbi).
  destruct (Forall2_lookup_l _ _ _ _ _ ld_static Hri) as (a & Ha & Hsta).
  simpl in Hbi, Hsta. unfold account_static in Hsta. injection Hsta as _ Hguid Htype _.
  destruct Hbi as (_ & Hgi & Hti & _).
  assert (dict_get (Account_guid ai) ad = Some i) as Hadi.
  { subst ad. eapply (dict_of_pairs_NoDup_lookup _ i); [by rewrite Hk1|].
    rewrite list_lookup_imap, Hri. done. }
  destruct (ld_processed i a) as [p Hp].
  { by eapply dict_get_values. }
  { done. }
  { by rewrite <- Htype, Hti. }
  destruct (ld_linked i a p Ha Hp) as (_ & _ & _ & Hacc).
  split; [done|]. exists a. split; [done|congruence].
Qed.

(** The flat list of a book holds the accounts of the non-root records and
    nothing else, no account twice; when the records have pairwise distinct
    guids it holds the account of every non-root record. *)
Theorem flat_list_of_accounts (tree : Element) (book : Book) (h : Heap) :
  _book_from_tree (Some tree) empty_heap = Ok (book, h) →
  NoDup (Book_accounts book)
  ∧ (∀ acc, acc ∈ Book_accounts book →
       ∃ a child, heap_accounts h !! acc = Some a
                  ∧ findall [gnc +:+ "account"] tree !! acc = Some child
                  ∧ Account_guid a = account_guid_of child
                  ∧ is_ROOT (account_type_of child) = false
                  ∧ is_Some (Account_parent a))
  ∧ (NoDup (account_guid_of <$> findall [gnc +:+ "account"] tree) →
     ∀ i child, findall [gnc +:+ "account"] tree !! i = Some child →
                is_ROOT (account_type_of child) = false → i ∈ Book_accounts book).
Proof.
  intros Hload. pose proof (loaded_account_lists _ _ _ Hload) as [Hnd _].
  apply _book_from_tree_loaded in Hload. split_and!; [done| |].
  - intros acc Hin.
    destruct (flat_list_member _ _ _ _ Hload Hin) as (a & child & ? & ? & ? & ? & ? & ?).
    by exists a, child.
  - intros Hguids i child Hi Hnonroot.
    by destruct (flat_list_complete _ _ _ _ _ Hload Hguids Hi Hnonroot).
Qed.

(** The root account of a book is the account of the last record of type
    [ROOT]; it is not in the flat list. A book without such a record has no
    root account, and [Book.walk] raises [AttributeError] on it. *)
Theorem root_account_of_book (tree : Element) (book : Book) (h : Heap) :
  _book_from_tree (Some tree) empty_heap = Ok (book, h) →
  last_root_record (findall [gnc +:+ "account"] tree) (Book_root_account book)
  ∧ (∀ r, Book_root_account book = Some r → r ∉ Book_accounts book)
  ∧ (Book_root_account book = None → ∀ fuel, Book_walk h fuel book = Raise AttributeError).
Proof.
  intros Hload. pose proof (loaded_account_lists _ _ _ Hload) as [_ Hroot].
  apply _book_from_tree_loaded in Hload. split_and!; [done| |].
  - intros r Hr Hin. rewrite Hr in Hroot. destruct Hroot as (child & Hchild & Htype & _).
    destruct (flat_list_member _ _ _ _ Hload Hin) as (a & child' & _ & Hchild' & _ & _ & Hn & _).
    congruence.
  - intros Hnone fuel. unfold Book_walk. by rewrite Hnone.
Qed.

(** ** Looking up by guid *)

Lemma find_item_app (h : Heap) (guid : option string) (l1 l2 : list Item) :
  find_item h guid (l1 ++ l2)
  = match find_item h guid l1 with
    | Some x => Some x
    | None => find_item h guid l2
    end.
Proof.
  induction l1 as [|x l1 IH]; simpl; [done|].
  by destruct (decide (Item_guid h x = guid)).
Qed.

Lemma find_item_Some (h : Heap) (guid : option string) (l : list Item) (x : Item) :
  find_item h guid l = Some x → x ∈ l ∧ Item_guid h x = guid.
Proof.
  induction l as [|y l IH]; simpl; [done|].
  destruct (decide (Item_guid h y = guid)).
  - intros [= <-]. split; [left|done].
  - intros Hx. destruct (IH Hx). split; [by right|done].
Qed.

Lemma find_item_unique (h : Heap) (guid : option string) (l : list Item) (x : Item) :
  x ∈ l → Item_guid h x = guid → (∀ y, y ∈ l → Item_guid h y = guid → y = x) →
  find_item h guid l = Some x.
Proof.
  induction l as [|y l IH]; intros Hin Hx Huniq; [by apply elem_of_nil in Hin|].
  simpl. destruct (decide (Item_guid h y = guid)) as [Hy|Hy].
  - f_equal. apply Huniq; [left|done].
  - apply IH; [|done|].
    + apply elem_of_cons in Hin as [->|?]; [done|done].
    + intros z Hz. apply Huniq. by right.
Qed.

(** In a book whose account records have pairwise distinct guids,
    [find_guid] on the guid of a non-root account record returns the account
    of that record. *)
Theorem find_guid_of_account (tree : Element) (book : Book) (h : Heap) (i : nat)
    (child : Element) :
  _book_from_tree (Some tree) empty_heap = Ok (book, h) →
  NoDup (account_guid_of <$> findall [gnc +:+ "account"] tree) →
  findall [gnc +:+ "account"] tree !! i = Some child →
  is_ROOT (account_type_of child) = false →
  Book_find_guid h book (account_guid_of child) = Some (ItemAccount i).
Proof.
  intros Hload Hnd Hi Hnonroot. apply _book_from_tree_loaded in Hload.
  destruct (flat_list_complete _ _ _ _ _ Hload Hnd Hi Hnonroot) as (Hin & a & Ha & Hguid).
  unfold Book_find_guid. rewrite find_item_app.
  rewrite (find_item_unique h _ _ (ItemAccount i)); [done| | |].
  - apply list_elem_of_fmap. by exists i.
  - simpl. by rewrite (list_lookup_total_correct _ _ _ Ha).
  - intros y [j [-> Hj]]%list_elem_of_fmap Hy. simpl in Hy.
    destruct (flat_list_member _ _ _ _ Hload Hj) as (a' & child' & Ha' & Hchild' & Hg' & _).
    rewrite (list_lookup_total_correct _ _ _ Ha'), Hg' in Hy.
    f_equal. apply (NoDup_lookup _ j i (account_guid_of child) Hnd);
      rewrite list_lookup_fmap.
    + by rewrite Hchild', <- Hy.
    + by rewrite Hi.
Qed.

(** [find_guid] never returns the root account: it searches the flat list,
    which does not hold it. *)
Theorem find_guid_misses_root (tree : Element) (book : Book) (h : Heap) (r : nat)
    (guid : option string) :
  _book_from_tree (Some tree) empty_heap = Ok (book, h) →
  Book_root_account book = Some r →
  Book_find_guid h book guid ≠ Some (ItemAccount r).
Proof.
  intros Hload Hr Hfind. pose proof (loaded_account_lists _ _ _ Hload) as [_ Hroot].
  apply _book_from_tree_loaded in Hload.
  rewrite Hr in Hroot. destruct Hroot as (child & Hchild & Htype & _).
  unfold Book_find_guid in Hfind. apply find_item_Some in Hfind as [Hin _].
  apply elem_of_app in Hin as [Hin|Hin]; apply list_elem_of_fmap in Hin as (x & Hx & Hin);
    [|done].
  injection Hx as <-.
  destruct (flat_list_member _ _ _ _ Hload Hin) as (a & child' & _ & Hchild' & _ & _ & Hn & _).
  congruence.
Qed.

(** ** Splits, their accounts and their transactions *)

Lemma owner_lists_linked_empty (owners : list (list nat)) :
  Forall (fun l => l = []) owners → owner_lists_linked [] owners.
Proof.
  intros Hall. split_and!.
  - intros s o Hs. by rewrite lookup_nil in Hs.
  - intros o l s Hl Hs. rewrite Forall_lookup in Hall. rewrite (Hall o l Hl) in Hs.
    by apply elem_of_nil in Hs.
  - eapply Forall_impl; [exact Hall|]. intros l ->. constructor.
Qed.

Lemma owner_lists_linked_new_owner (owner_of : list nat) (owners : list (list nat)) :
  owner_lists_linked owner_of owners → owner_lists_linked owner_of (owners ++ [[]]).
Proof.
  intros (H1 & H2 & H3). split_and!.
  - intros s o Hs. destruct (H1 s o Hs) as (l & Hl & Hin).
    exists l. split; [by apply lookup_app_l_Some|done].
  - intros o l s Hl Hs. destruct (decide (o < length owners)%nat) as [Hlt|Hge].
    + rewrite lookup_app_l in Hl by done. by eapply H2.
    + assert (o = length owners) as ->.
      { apply lookup_lt_Some in Hl. rewrite length_app in Hl. simpl in Hl. lia. }
      rewrite list_lookup_middle in Hl by done. injection Hl as <-.
      by apply elem_of_nil in Hs.
  - apply Forall_app. split; [done|]. repeat constructor.
Qed.

Lemma owner_lists_linked_add (owner_of : list nat) (owners : list (list nat)) (o : nat) :
  owner_lists_linked owner_of owners → (o < length owners)%nat →
  owner_lists_linked (owner_of ++ [o])
    (alter (fun l => l ++ [length owner_of]) o owners).
Proof.
  intros (H1 & H2 & H3) Ho.
  destruct (lookup_lt_is_Some_2 owners o Ho) as [lo Hlo].
  assert (∀ s, s ∈ lo → (s < length owner_of)%nat) as Hold.
  { intros s Hs. by eapply lookup_lt_Some, H2. }
  split_and!.
  - intros s o' Hs. destruct (decide (s < length owner_of)%nat) as [Hlt|Hge].
    + rewrite lookup_app_l in Hs by done. destruct (H1 s o' Hs) as (l & Hl & Hin).
      destruct (decide (o = o')) as [<-|Hne].
      * rewrite list_lookup_alter_eq, Hl. eexists. split; [done|].
        apply elem_of_app. by left.
      * rewrite list_lookup_alter_ne by done. by exists l.
    + assert (s = length owner_of) as ->.
      { apply lookup_lt_Some in Hs. rewrite length_app in Hs. simpl in Hs. lia. }
      rewrite list_lookup_middle in Hs by done. injection Hs as <-.
      rewrite list_lookup_alter_eq, Hlo. eexists. split; [done|].
      apply elem_of_app. right. left.
  - intros o' l s Hl Hs. destruct (decide (o = o')) as [<-|Hne].
    + rewrite list_lookup_alter_eq, Hlo in Hl. injection Hl as <-.
      apply elem_of_app in Hs as [Hs|Hs].
      * apply lookup_app_l_Some. by eapply H2.
      * apply list_elem_of_singleton in Hs as ->. by rewrite list_lookup_middle.
    + rewrite list_lookup_alter_ne in Hl by done.
      apply lookup_app_l_Some. by eapply H2.
  - apply Forall_lookup. intros o' l Hl. rewrite Forall_lookup in H3.
    destruct (decide (o = o')) as [<-|Hne].
    + rewrite list_lookup_alter_eq, Hlo in Hl. injection Hl as <-.
      apply NoDup_app. split_and!; [by eapply H3| |apply NoDup_singleton].
      intros s Hs ->%list_elem_of_singleton. apply Hold in Hs. lia.
    + rewrite list_lookup_alter_ne in Hl by done. by eapply H3.
Qed.

Lemma split_step_Ok (ad : AccountDict) (t : nat) (u : unit) (subtree : Element)
    (h : Heap) (u' : unit) (h' : Heap) :
  split_step ad t u subtree h = Ok (u', h') →
  ∃ sp, Split_account sp ∈ dict_values ad ∧ Split_transaction sp = t
        ∧ two_places_or_NaN (Split_value sp) ∧ two_places_or_NaN (Split_quantity sp)
        ∧ heap_commodities h' = heap_commodities h
        ∧ heap_splits h' = heap_splits h ++ [sp]
        ∧ heap_accounts h'
          = alter (append_split (length (heap_splits h))) (Split_account sp) (heap_accounts h)
        ∧ heap_transactions h'
          = alter (append_transaction_split (length (heap_splits h))) t (heap_transactions h).
Proof.
  intros H. unfold split_step in H.
  apply bindS_Ok in H as (s & h1 & Hs & H). unfold update_transaction in H.
  injection H as _ <-. unfold _split_from_tree in Hs.
  apply bindS_Ok in Hs as (guid & ? & H1 & Hs). apply lift_Ok in H1 as [_ ->].
  apply bindS_Ok in Hs as (rs & ? & H1 & Hs). apply lift_Ok in H1 as [_ ->].
  apply bindS_Ok in Hs as (rd & ? & H1 & Hs). apply lift_Ok in H1 as [_ ->].
  apply bindS_Ok in Hs as (value & ? & Hv & Hs). apply lift_Ok in Hv as [Hv ->].
  apply bindS_Ok in Hs as (quantity & ? & Hq & Hs). apply lift_Ok in Hq as [Hq ->].
  apply bindS_Ok in Hs as (ag & ? & H1 & Hs). apply lift_Ok in H1 as [_ ->].
  apply bindS_Ok in Hs as (account & ? & Hacc & Hs). apply lift_Ok in Hacc as [Hacc ->].
  apply bindS_Ok in Hs as (slots & ? & H1 & Hs). apply lift_Ok in H1 as [_ ->].
  apply bindS_Ok in Hs as (split & h2 & Hnew & Hs). unfold new_Split in Hnew.
  injection Hnew as <- <-.
  apply bindS_Ok in Hs as ([] & h3 & Hupd & Hs). unfold update_account in Hupd.
  injection Hupd as <-. apply retS_Ok in Hs as [-> ->].
  apply bind_Ok in Hv as (tv & _ & Hv). apply bind_Ok in Hq as (tq & _ & Hq).
  eexists (mkSplit _ _ _ _ value quantity account t _ _). simpl. split_and!; try done.
  - unfold dict_item in Hacc. destruct (dict_get ag ad) eqn:Hget; [|done].
    injection Hacc as ->. by eapply dict_get_values.
  - by eapply _parse_number_two_places.
  - by eapply _parse_number_two_places.
Qed.

Lemma split_step_linked (ad : AccountDict) (t : nat) (u : unit) (subtree : Element)
    (h : Heap) (u' : unit) (h' : Heap) :
  (∀ v, v ∈ dict_values ad → (v < length (heap_accounts h))%nat) →
  (t < length (heap_transactions h))%nat →
  splits_linked h →
  split_step ad t u subtree h = Ok (u', h') →
  splits_linked h'
  ∧ length (heap_accounts h') = length (heap_accounts h)
  ∧ length (heap_transactions h') = length (heap_transactions h).
Proof.
  intros Hvalid Ht (Hacc & Htr & Hamounts) Hstep.
  apply split_step_Ok in Hstep
    as (sp & Hin & Hspt & Hv & Hq & _ & Hsplits & Haccounts & Htransactions).
  rewrite Haccounts, Htransactions, !length_alter. split; [|done].
  unfold splits_linked. rewrite Hsplits, Haccounts, Htransactions, !fmap_app. simpl.
  rewrite (list_fmap_alter Account_splits _
             (fun l => l ++ [length (Split_account <$> heap_splits h)])).
  2:{ apply Forall_forall. intros a _. simpl. by rewrite length_fmap. }
  rewrite (list_fmap_alter Transaction_splits _
             (fun l => l ++ [length (Split_transaction <$> heap_splits h)])).
  2:{ apply Forall_forall. intros tr _. simpl. by rewrite length_fmap. }
  split_and!.
  - apply owner_lists_linked_add; [done|]. rewrite length_fmap. by apply Hvalid.
  - rewrite Hspt. apply owner_lists_linked_add; [done|]. by rewrite length_fmap.
  - apply Forall_app. split; [done|]. by constructor.
Qed.

Lemma _transaction_from_tree_linked (tree : Element) (ad : AccountDict) (cd : CommodityDict)
    (h : Heap) (t : nat) (h' : Heap) :
  (∀ v, v ∈ dict_values ad → (v < length (heap_accounts h))%nat) →
  splits_linked h →
  _transaction_from_tree tree ad cd h = Ok (t, h') →
  splits_linked h' ∧ length (heap_accounts h') = length (heap_accounts h).
Proof.
  intros Hvalid Hlinked H. unfold _transaction_from_tree in H.
  apply bindS_Ok in H as (guid & ? & H1 & H). apply lift_Ok in H1 as [_ ->].
  apply bindS_Ok in H as (space & ? & H1 & H). apply lift_Ok in H1 as [_ ->].
  apply bindS_Ok in H as (cname & ? & H1 & H). apply lift_Ok in H1 as [_ ->].
  apply bindS_Ok in H as (currency & ? & H1 & H). apply lift_Ok in H1 as [_ ->].
  apply bindS_Ok in H as (date & ? & H1 & H). apply lift_Ok in H1 as [_ ->].
  apply bindS_Ok in H as (date_entered & ? & H1 & H). apply lift_Ok in H1 as [_ ->].
  apply bindS_Ok in H as (description & ? & H1 & H). apply lift_Ok in H1 as [_ ->].
  apply bindS_Ok in H as (slots & ? & H1 & H). apply lift_Ok in H1 as [_ ->].
  apply bindS_Ok in H as (t' & h1 & Hnew & H). unfold new_Transaction in Hnew.
  injection Hnew as <- <-.
  apply bindS_Ok in H as ([] & h2 & Hsplits & H). apply retS_Ok in H as [-> ->].
  apply (foldM_invariant (fun _ _ h1 =>
           splits_linked h1
           ∧ length (heap_accounts h1) = length (heap_accounts h)
           ∧ (length (heap_transactions h) < length (heap_transactions h1))%nat))
    in Hsplits.
  - by destruct Hsplits as (? & ? & _).
  - destruct Hlinked as (Hacc & Htr & Hamounts). split_and!.
    + split_and!; simpl; [done| |done]. rewrite fmap_app. simpl.
      by apply owner_lists_linked_new_owner.
    + done.
    + simpl. rewrite length_app. simpl. lia.
  - intros done subtree [] h3 [] h4 (Hl1 & Hlen1 & Hlt1) _ Hstep.
    apply split_step_linked in Hstep as (? & Hlen2 & Hlt2); [|by rewrite Hlen1|lia|done].
    split_and!; [done|congruence|lia].
Qed.

Lemma transactions_linked (ad : AccountDict) (cd : CommodityDict) (es : list Element)
    (h : Heap) (ts : list nat) (h' : Heap) :
  (∀ v, v ∈ dict_values ad → (v < length (heap_accounts h))%nat) →
  splits_linked h →
  foldM (transaction_step ad cd) [] es h = Ok (ts, h') →
  splits_linked h'.
Proof.
  intros Hvalid Hlinked H.
  apply (foldM_invariant (fun _ _ h1 =>
           splits_linked h1 ∧ length (heap_accounts h1) = length (heap_accounts h))) in H.
  - by destruct H.
  - done.
  - intros done child ts1 h1 ts2 h2 [Hl1 Hlen1] _ Hstep. unfold transaction_step in Hstep.
    apply bindS_Ok in Hstep as (t & h1' & Ht & Hstep). apply retS_Ok in Hstep as [-> ->].
    apply _transaction_from_tree_linked in Ht as [? Hlen2]; [|by rewrite Hlen1|done].
    split; [done|congruence].
Qed.

Lemma _book_from_tree_splits_linked (tree : Element) (book : Book) (h : Heap) :
  _book_from_tree (Some tree) empty_heap = Ok (book, h) → splits_linked h.
Proof.
  intros Hload. apply _book_from_tree_phases in Hload as []. subst book.
  apply commodities_spec in ph_commodities as (Hf1 & _ & _).
  apply load_prices_spec in ph_prices as (_ & Hf2 & _ & _).
  pose proof (commodity_frame_trans _ _ _ Hf1 Hf2) as (Hacc2 & Htr2 & Hsp2 & _).
  simpl in Hacc2, Htr2, Hsp2.
  apply pass1_spec in ph_pass1 as (rs & Hbuilt & -> & Had & Hpd).
  rewrite Hacc2 in Had. simpl in Had.
  apply pass2_spec in ph_pass2 as (_ & Ht4 & Hs4 & Hst4 & _).
  2:{ intros v Hv. simpl. rewrite Hacc2. simpl. rewrite length_fmap.
      subst accountdict. by apply dict_values_imap_valid. }
  2:{ intros i a Ha. simpl in Ha. rewrite Hacc2 in Ha. simpl in Ha.
      rewrite list_lookup_fmap in Ha. destruct (rs !! i) as [r|] eqn:Hr; [|done].
      injection Ha as <-. destruct (Forall2_lookup_r _ _ _ _ _ Hbuilt Hr) as (child & _ & Hb).
      by destruct Hb as (_ & _ & _ & ? & _). }
  simpl in Ht4, Hs4, Hst4. rewrite Hacc2 in Hst4. simpl in Hst4.
  eapply transactions_linked; [| |exact ph_transactions].
  - intros v Hv. rewrite <- (Forall2_length _ _ _ Hst4), length_fmap.
    subst accountdict. by apply dict_values_imap_valid.
  - unfold splits_linked. rewrite Hs4, Ht4, Hsp2, Htr2. simpl. split_and!.
    + apply owner_lists_linked_empty. apply Forall_fmap, Forall_lookup.
      intros i a' Ha'. simpl.
      destruct (Forall2_lookup_r _ _ _ _ _ Hst4 Ha') as (a & Ha & _ & <-).
      rewrite list_lookup_fmap in Ha. destruct (rs !! i) as [r|] eqn:Hr; [|done].
      injection Ha as <-. destruct (Forall2_lookup_r _ _ _ _ _ Hbuilt Hr) as (child & _ & Hb).
      by destruct Hb as (_ & _ & _ & _ & _ & ? & _).
    + by apply owner_lists_linked_empty.
    + constructor.
Qed.

(** In a loaded book every split is listed by its account and by its
    transaction, once; the split list of an account holds the splits of that
    account and nothing else, and the split list of a transaction the splits
    of that transaction. The value and the quantity of a split have two
    decimal places (or are NaN). *)
Theorem splits_of_loaded_book (tree : Element) (book : Book) (h : Heap) :
  _book_from_tree (Some tree) empty_heap = Ok (book, h) →
  (∀ s sp, heap_splits h !! s = Some sp →
     (∃ a, heap_accounts h !! Split_account sp = Some a ∧ s ∈ Account_splits a)
     ∧ (∃ tr, heap_transactions h !! Split_transaction sp = Some tr
              ∧ s ∈ Transaction_splits tr)
     ∧ two_places_or_NaN (Split_value sp) ∧ two_places_or_NaN (Split_quantity sp))
  ∧ (∀ acc a, heap_accounts h !! acc = Some a →
       NoDup (Account_splits a)
       ∧ ∀ s, s ∈ Account_splits a →
              ∃ sp, heap_splits h !! s = Some sp ∧ Split_account sp = acc)
  ∧ (∀ t tr, heap_transactions h !! t = Some tr →
       NoDup (Transaction_splits tr)
       ∧ ∀ s, s ∈ Transaction_splits tr →
              ∃ sp, heap_splits h !! s = Some sp ∧ Split_transaction sp = t).
Proof.
  intros Hload. apply _book_from_tree_splits_linked in Hload
    as ((Ha1 & Ha2 & Ha3) & (Ht1 & Ht2 & Ht3) & Hamounts).
  split_and!.
  - intros s sp Hs. split_and!.
    + destruct (Ha1 s (Split_account sp)) as (l & Hl & Hin).
      { by rewrite list_lookup_fmap, Hs. }
      rewrite list_lookup_fmap in Hl.
      destruct (heap_accounts h !! Split_account sp) as [a|]; [|done].
      injection Hl as <-. by exists a.
    + destruct (Ht1 s (Split_transaction sp)) as (l & Hl & Hin).
      { by rewrite list_lookup_fmap, Hs. }
      rewrite list_lookup_fmap in Hl.
      destruct (heap_transactions h !! Split_transaction sp) as [tr|]; [|done].
      injection Hl as <-. by exists tr.
    + rewrite Forall_lookup in Hamounts. by destruct (Hamounts s sp Hs).
    + rewrite Forall_lookup in Hamounts. by destruct (Hamounts s sp Hs).
  - intros acc a Ha. split.
    + rewrite Forall_lookup in Ha3. apply (Ha3 acc). by rewrite list_lookup_fmap, Ha.
    + intros s Hs. specialize (Ha2 acc (Account_splits a) s).
      rewrite !list_lookup_fmap, Ha in Ha2. specialize (Ha2 eq_refl Hs).
      destruct (heap_splits h !! s) as [sp|]; [|done]. injection Ha2 as <-. by exists sp.
  - intros t tr Htr. split.
    + rewrite Forall_lookup in Ht3. apply (Ht3 t). by rewrite list_lookup_fmap, Htr.
    + intros s Hs. specialize (Ht2 t (Transaction_splits tr) s).
      rewrite !list_lookup_fmap, Htr in Ht2. specialize (Ht2 eq_refl Hs).
      destruct (heap_splits h !! s) as [sp|]; [|done]. injection Ht2 as <-. by exists sp.
Qed.

(** ** Slots that do not parse *)

Lemma slot_value_known_type (rec : option Element → result Slots) (value : Element)
    (v : SlotValue) :
  slot_value rec value = Ok v → known_slot_type (Element_get "type" "string" value).
Proof.
  unfold slot_value, known_slot_type. intros H.
  repeat match type of H with
  | context [String.eqb ?a ?b] =>
      let E := fresh "E" in
      destruct (String.eqb a b) eqn:E;
        [apply String.eqb_eq in E; rewrite E; repeat first [by left|right]|simpl in H]
  end.
  done.
Qed.

Lemma slot_value_unknown_type (rec : option Element → result Slots) (value : Element) :
  ¬ known_slot_type (Element_get "type" "string" value) →
  slot_value rec value = Raise RuntimeError.
Proof.
  unfold slot_value, known_slot_type. intros Hunknown.
  repeat match goal with
  | |- context [String.eqb ?a ?b] =>
      let E := fresh "E" in
      destruct (String.eqb a b) eqn:E;
        [apply String.eqb_eq in E; exfalso; apply Hunknown; rewrite E;
         repeat first [by left|right]|simpl]
  end.
  done.
Qed.

Lemma slots_fold_well_formed (rec : option Element → result Slots) (l : list Element)
    (m : Slots) :
  foldR (slot_step rec) [] l = Ok m →
  NoDup (dict_keys m)
  ∧ ∀ elt, elt ∈ l →
      ∃ k value v, slot_key elt = Ok k ∧ find [slot +:+ "value"] elt = Some value
                   ∧ slot_value rec value = Ok v ∧ is_Some (dict_get k m).
Proof.
  apply (foldR_invariant (fun done m =>
    NoDup (dict_keys m)
    ∧ ∀ elt, elt ∈ done →
        ∃ k value v, slot_key elt = Ok k ∧ find [slot +:+ "value"] elt = Some value
                     ∧ slot_value rec value = Ok v ∧ is_Some (dict_get k m))).
  - split; [constructor|]. intros elt Hin. by apply elem_of_nil in Hin.
  - intros done elt m1 m2 [Hnd IH] _ Hstep.
    apply slot_step_Ok in Hstep as (k & value & v & Hk & Hvalue & Hv & ->).
    split; [by apply dict_keys_set_NoDup|].
    intros elt' [Hin|Hin]%elem_of_app.
    + destruct (IH elt' Hin) as (k' & value' & v' & ? & ? & ? & Hsome).
      exists k', value', v'. split_and!; [done..|].
      destruct (decide (k = k')) as [->|Hne].
      * by rewrite dict_get_set_eq.
      * by rewrite dict_get_set_ne.
    + apply list_elem_of_singleton in Hin as ->. exists k, value, v.
      split_and!; [done..|]. by rewrite dict_get_set_eq.
Qed.

(** A slots element parses only when every slot of it has a key element and
    a value element of a known type whose value parses, and then every key
    is bound; a value of any other type raises [RuntimeError], so that a
    slots element with such a slot does not parse. *)
Theorem slots_parse_only_known_types (tree : Element) :
  (∀ m, _slots_from_tree (Some tree) = Ok m →
        NoDup (dict_keys m)
        ∧ ∀ elt, elt ∈ findall ["slot"%string] tree →
            ∃ k value, slot_key elt = Ok k ∧ find [slot +:+ "value"] elt = Some value
                       ∧ known_slot_type (Element_get "type" "string" value)
                       ∧ is_Some (dict_get k m))
  ∧ (∀ elt value, elt ∈ findall ["slot"%string] tree →
       find [slot +:+ "value"] elt = Some value →
       ¬ known_slot_type (Element_get "type" "string" value) →
       slot_value _slots_from_tree value = Raise RuntimeError
       ∧ is_Ok (_slots_from_tree (Some tree)) = false).
Proof.
  split.
  - intros m Hm. rewrite _slots_from_tree_unfold in Hm.
    apply slots_fold_well_formed in Hm as [Hnd Hall]. split; [done|].
    intros elt Hin. destruct (Hall elt Hin) as (k & value & v & ? & ? & Hv & ?).
    exists k, value. split_and!; [done..| |done]. by eapply slot_value_known_type.
  - intros elt value Hin Hvalue Hunknown. split; [by apply slot_value_unknown_type|].
    destruct (_slots_from_tree (Some tree)) as [m|e] eqn:Hm; [exfalso|done].
    rewrite _slots_from_tree_unfold in Hm.
    apply slots_fold_well_formed in Hm as [_ Hall].
    destruct (Hall elt Hin) as (k & value' & v & _ & Hvalue' & Hv & _).
    rewrite Hvalue in Hvalue'. injection Hvalue' as <-.
    by apply slot_value_known_type in Hv.
Qed.

(** ** The detour of the fraction parser through [str] *)

Section Specials.
Local Open Scope Z_scope.

Lemma to_lower_digit (c : ascii) : is_digit c = true → to_lower c = c.
Proof.
  intros Hd. apply is_digit_code in Hd. unfold to_lower.
  assert ((65 <=? code c) = false) as -> by (apply Z.leb_gt; lia). done.
Qed.

Lemma map_to_lower_digits (ds : list ascii) :
  Forall (fun c => is_digit c = true) ds → map to_lower ds = ds.
Proof.
  induction 1 as [|c ds Hc _ IH]; [done|]. simpl. by rewrite IH, to_lower_digit.
Qed.

Lemma parse_special_NaN (sign sg : bool) (ds : list ascii) :
  Forall (fun c => is_digit c = true) ds →
  parse_special sign ((if sg then ["s"%char] else []) ++ list_ascii_of_string "NaN" ++ ds)
  = Some (NaN sign sg (int_of_digits ds)).
Proof.
  intros Hds. unfold parse_special. rewrite !map_app, (map_to_lower_digits ds Hds).
  destruct sg; simpl; by rewrite (span_digits_all ds Hds).
Qed.

Lemma plain_letters (sign sg : bool) :
  Forall plain ((if sign then ["-"%char] else [])
                ++ (if sg then ["s"%char] else []) ++ list_ascii_of_string "NaN").
Proof. destruct sign, sg; simpl; repeat constructor; done. Qed.

Lemma of_string_to_str_NaN (s sg : bool) (p : Z) :
  0 <= p → of_string (to_str (NaN s sg p)) = Ok (NaN s sg p).
Proof.
  intros Hp. unfold of_string, to_str, to_chars.
  rewrite list_ascii_of_string_of_list_ascii.
  set (ds := if p =? 0 then [] else digits p).
  assert (Forall (fun c => is_digit c = true) ds) as Hds.
  { unfold ds. destruct (p =? 0); [constructor|by apply digits_Forall]. }
  assert (int_of_digits ds = p) as Hval.
  { unfold ds. destruct (p =? 0) eqn:E; [by apply Z.eqb_eq in E as ->|by apply digits_value]. }
  rewrite strip_plain, filter_plain.
  2,3: rewrite !app_assoc; apply Forall_app; split;
    [rewrite <- app_assoc; apply plain_letters
    |eapply Forall_impl; [exact Hds|apply digit_plain]].
  pose proof (parse_special_NaN true sg ds Hds) as Ht.
  pose proof (parse_special_NaN false sg ds Hds) as Hf.
  rewrite Hval in Ht, Hf.
  destruct s, sg; simpl app in *; cbv iota beta.
  - change (parse_finite ("s" :: "N" :: "a" :: "N" :: ds)%char) with (@None (Z * Z)).
    by rewrite Ht.
  - change (parse_finite ("N" :: "a" :: "N" :: ds)%char) with (@None (Z * Z)).
    by rewrite Ht.
  - change (parse_finite ("s" :: "N" :: "a" :: "N" :: ds)%char) with (@None (Z * Z)).
    by rewrite Hf.
  - change (parse_finite ("N" :: "a" :: "N" :: ds)%char) with (@None (Z * Z)).
    by rewrite Hf.
Qed.

Lemma of_string_to_str_Infinity (s : bool) :
  of_string (to_str (Infinity s)) = Ok (Infinity s).
Proof. by destruct s. Qed.

Lemma of_string_to_str_written (d : Decimal) :
  digits_written d → of_string (to_str d) = Ok d.
Proof.
  destruct d as [s c e|s|s sg p]; simpl; intros Hd.
  - by apply of_string_to_str.
  - apply of_string_to_str_Infinity.
  - by apply of_string_to_str_NaN.
Qed.

Lemma span_digits_Forall (l : list ascii) :
  Forall (fun c => is_digit c = true) (span_digits l).1.
Proof.
  induction l as [|c l IH]; simpl; [constructor|].
  destruct (is_digit c) eqn:Hc; [|constructor].
  destruct (span_digits l) as [ds rest]. simpl in *. by constructor.
Qed.

Lemma parse_finite_written (l : list ascii) (c e : Z) :
  parse_finite l = Some (c, e) → 0 <= c.
Proof.
  unfold parse_finite. pose proof (span_digits_Forall l) as Hip.
  destruct (span_digits l) as [intpart r1]. simpl in Hip.
  assert (Forall (fun c => is_digit c = true)
            (match r1 with
             | "."%char :: r => span_digits r
             | _ => ([], r1)
             end).1) as Hfp.
  { repeat case_match; try constructor. apply span_digits_Forall. }
  destruct (match r1 with
            | "."%char :: r => span_digits r
            | _ => ([], r1)
            end) as [fracpart r2]. simpl in Hfp.
  destruct (intpart ++ fracpart) as [|d ds] eqn:Hds; [done|].
  destruct (match r2 with
            | [] => Some 0
            | c0 :: r => if Ascii.eqb (to_lower c0) "e" then parse_exponent r else None
            end) as [x|]; [|done].
  simpl. intros [= <- _]. apply int_of_digits_nonneg. rewrite <- Hds.
  apply Forall_app. by split.
Qed.

Lemma parse_special_written (sign : bool) (l : list ascii) (d : Decimal) :
  parse_special sign l = Some d → digits_written d.
Proof.
  unfold parse_special. destruct (_ || _)%bool; [by intros [= <-]|].
  destruct (match map to_lower l with
            | "s"%char :: r => (true, r)
            | r => (false, r)
            end) as [sg r].
  repeat (case_match; try done). intros [= <-]. simpl. apply int_of_digits_nonneg.
  match goal with H : span_digits ?x = (?ds, _) |- _ =>
    pose proof (span_digits_Forall x) as HF; by rewrite H in HF end.
Qed.

Lemma of_string_written (s : string) (d : Decimal) :
  of_string s = Ok d → digits_written d.
Proof.
  unfold of_string.
  destruct (match filter (fun c => c ≠ "_"%char) (strip (list_ascii_of_string s)) with
            | "-"%char :: r => (true, r)
            | "+"%char :: r => (false, r)
            | _ => (false, filter (fun c => c ≠ "_"%char) (strip (list_ascii_of_string s)))
            end) as [sign r].
  destruct (parse_finite r) as [[c e]|] eqn:Hpf.
  - intros [= <-]. simpl. by eapply parse_finite_written.
  - destruct (parse_special sign r) as [d'|] eqn:Hps; [|done].
    intros [= <-]. by eapply parse_special_written.
Qed.

Lemma _fix_nan_written (s sg : bool) (p : Z) : 0 <= p → digits_written (_fix_nan s sg p).
Proof.
  intros Hp. unfold _fix_nan. simpl. destruct (prec <? ndigits p); [|done].
  by apply Z.mod_pos_bound.
Qed.

Lemma _fix_finite_written (s : bool) (c e : Z) (d : Decimal) :
  0 <= c → _fix_finite s c e = Ok d → digits_written d.
Proof.
  intros Hc. unfold _fix_finite.
  assert (∀ a k, 0 <= a → 0 <= a / 10 ^ k) as Hdiv.
  { intros a k Ha. apply Z_div_nonneg_nonneg; [done|]. apply Z.pow_nonneg. lia. }
  destruct (c =? 0); [by intros [= <-]|].
  destruct (Etop <? _); [done|].
  destruct (e <? _); [|by intros [= <-]].
  destruct (_ <? 0); cbv zeta iota beta.
  - pose proof (Hdiv 1 (ndigits 1 - 0) ltac:(lia)) as Hco. revert Hco.
    generalize (1 / 10 ^ (ndigits 1 - 0)). intros co Hco.
    destruct (0 <? _); [destruct (prec <? _)|]; destruct (Etop <? _); try done;
      intros [= <-]; simpl; [apply Z_div_nonneg_nonneg; lia|lia|done].
  - match goal with |- context [c / 10 ^ ?k] =>
      pose proof (Hdiv c k Hc) as Hco; revert Hco; generalize (c / 10 ^ k) end.
    intros co Hco.
    destruct (0 <? _); [destruct (prec <? _)|]; destruct (Etop <? _); try done;
      intros [= <-]; simpl; [apply Z_div_nonneg_nonneg; lia|lia|done].
Qed.

Lemma strip_zeros_written (fuel : nat) (c e ideal : Z) :
  0 <= c → 0 <= (strip_zeros fuel c e ideal).1.
Proof.
  revert c e. induction fuel as [|fuel IH]; intros c e Hc; simpl; [done|].
  destruct (_ && _); [|done]. apply IH. apply Z_div_nonneg_nonneg; lia.
Qed.

Lemma truediv_written (a b q : Decimal) :
  digits_written a → digits_written b → truediv a b = Ok q → digits_written q.
Proof.
  unfold truediv.
  destruct a as [sa ca ea|sa|sa [] pa], b as [sb cb eb|sb|sb [] pb]; simpl;
    intros Ha Hb; try done; try (intros [= <-]; simpl; try done; by apply _fix_nan_written).
  destruct (cb =? 0) eqn:Hcb.
  { by destruct (ca =? 0). }
  apply Z.eqb_neq in Hcb.
  destruct (ca =? 0).
  { by apply _fix_finite_written. }
  set (shift := ndigits cb - ndigits ca + prec + 1).
  assert (∃ x y, (if 0 <=? shift then Z.div_eucl (ca * 10 ^ shift) cb
                  else Z.div_eucl ca (cb * 10 ^ (- shift))) = (x, y) ∧ 0 <= x)
    as (x & y & -> & Hx).
  { destruct (0 <=? shift) eqn:Hs.
    - apply Z.leb_le in Hs. destruct (Z.div_eucl (ca * 10 ^ shift) cb) as [x y] eqn:E.
      exists x, y. split; [done|].
      assert (x = ca * 10 ^ shift / cb) as -> by (unfold Z.div; by rewrite E).
      apply Z_div_nonneg_nonneg; [|lia]. apply Z.mul_nonneg_nonneg; [done|].
      apply Z.pow_nonneg. lia.
    - destruct (Z.div_eucl ca (cb * 10 ^ (- shift))) as [x y] eqn:E.
      exists x, y. split; [done|].
      assert (x = ca / (cb * 10 ^ (- shift))) as -> by (unfold Z.div; by rewrite E).
      apply Z_div_nonneg_nonneg; [done|]. apply Z.mul_nonneg_nonneg; [lia|].
      apply Z.pow_nonneg. lia. }
  destruct (negb (y =? 0)).
  - apply _fix_finite_written. destruct (x mod 5 =? 0); lia.
  - pose proof (strip_zeros_written (Z.to_nat (ea - eb - (ea - eb - shift))) x
                  (ea - eb - shift) (ea - eb) Hx) as Hsz.
    destruct (strip_zeros _ x _ _) as [c1 e1]. by apply _fix_finite_written.
Qed.

Lemma _fix_nan_idempotent (s sg : bool) (p : Z) :
  0 <= p →
  match _fix_nan s sg p with
  | NaN s' sg' p' => _fix_nan s' sg' p' = _fix_nan s sg p
  | _ => False
  end.
Proof.
  intros Hp. unfold _fix_nan. destruct (prec <? ndigits p) eqn:Hlong.
  - assert ((prec <? ndigits (p mod 10 ^ prec)) = false) as ->; [|done].
    apply Z.ltb_ge. pose proof (Z.mod_pos_bound p (10 ^ prec) ltac:(done)) as Hb.
    destruct (decide (p mod 10 ^ prec = 0)) as [->|Hne]; [done|].
    apply ndigits_lt_pow; lia.
  - by rewrite Hlong.
Qed.

(** [Decimal(str(d))] is [d] again. The fraction parser takes the quotient
    through a string and back: this changes nothing, and for two sides that
    are numbers within the limits of the constructor the parser returns
    their quotient quantized to two places. *)
Theorem parse_number_str_detour (s num denum : string) (a b q : Decimal) :
  py_split "/" s = [num; denum] →
  of_string num = Ok a → of_string denum = Ok b →
  within_limits a = true → within_limits b = true →
  truediv a b = Ok q →
  of_string (to_str q) = Ok q
  ∧ _parse_number (Some s) = quantize q cent ROUND_UP.
Proof.
  intros Hsplit Ha Hb _ _ Hq.
  assert (of_string (to_str q) = Ok q) as Hround.
  { apply of_string_to_str_written.
    eapply truediv_written; [| |exact Hq]; by eapply of_string_written. }
  split; [done|]. unfold _parse_number. rewrite Hsplit, Ha, Hb. rewrite !Ok_bind.
  rewrite Hq, Ok_bind, Hround. by rewrite Ok_bind.
Qed.

(** NaN and infinite sides, the numbers within the limits of the
    constructor. A quiet NaN as numerator comes out as a NaN, not as an
    error; an infinite numerator over a finite denominator raises
    [InvalidOperation]; a finite numerator over an infinite denominator
    gives zero. *)
Theorem parse_number_special_values (num denum : string) :
  "/"%char ∉ list_ascii_of_string num → "/"%char ∉ list_ascii_of_string denum →
  (∀ s p b, of_string num = Ok (NaN s false p) → of_string denum = Ok b →
            within_limits (NaN s false p) = true → within_limits b = true →
            (∀ sb pb, b ≠ NaN sb true pb) →
            _parse_number (Some (num +:+ "/" +:+ denum)) = Ok (_fix_nan s false p))
  ∧ (∀ sa sb cb eb, of_string num = Ok (Infinity sa) →
                    of_string denum = Ok (Finite sb cb eb) →
                    within_limits (Finite sb cb eb) = true →
                    _parse_number (Some (num +:+ "/" +:+ denum)) = Raise InvalidOperation)
  ∧ (∀ sa ca ea sb, of_string num = Ok (Finite sa ca ea) →
                    of_string denum = Ok (Infinity sb) →
                    within_limits (Finite sa ca ea) = true →
                    _parse_number (Some (num +:+ "/" +:+ denum))
                    = Ok (Finite (xorb sa sb) 0 (-2))).
Proof.
  intros Hsn Hsd. split_and!.
  - intros s p b Ha Hb _ _ Hquiet.
    assert (0 <= p) as Hp by (by apply of_string_written in Ha).
    unfold _parse_number. rewrite py_split_two, Ha, Hb by done. rewrite !Ok_bind.
    assert (truediv (NaN s false p) b = Ok (_fix_nan s false p)) as ->.
    { unfold truediv. destruct b as [| |sb [] pb]; try done. by destruct (Hquiet sb pb). }
    rewrite Ok_bind, of_string_to_str_written by (by apply _fix_nan_written).
    rewrite Ok_bind. pose proof (_fix_nan_idempotent s false p Hp) as Hidem.
    destruct (_fix_nan s false p) as [| |s' sg' p'] eqn:Hfix; [done..|].
    assert (sg' = false) as -> by (unfold _fix_nan in Hfix; by injection Hfix).
    unfold quantize, cent. simpl. by rewrite Hidem.
  - intros sa sb cb eb Ha Hb _.
    unfold _parse_number. rewrite py_split_two, Ha, Hb by done. rewrite !Ok_bind.
    change (truediv (Infinity sa) (Finite sb cb eb)) with (Ok (Infinity (xorb sa sb))).
    rewrite Ok_bind, of_string_to_str_Infinity, Ok_bind. done.
  - intros sa ca ea sb Ha Hb _.
    unfold _parse_number. rewrite py_split_two, Ha, Hb by done. rewrite !Ok_bind.
    change (truediv (Finite sa ca ea) (Infinity sb)) with (Ok (Finite (xorb sa sb) 0 Etiny)).
    rewrite Ok_bind, of_string_to_str by done. rewrite Ok_bind. done.
Qed.

End Specials.

(** ** The accounts under the root account of a loaded book *)

Lemma ancestor_add (h : Heap) (k1 k2 : nat) (acc : nat) :
  ancestor h (k1 + k2) acc = ancestor h k1 acc ≫= ancestor h k2.
Proof.
  revert acc. induction k1 as [|k1 IH]; intros acc; [done|].
  simpl. destruct (Account_parent (heap_accounts h !!! acc)) as [p|]; [|done].
  simpl. apply IH.
Qed.

(** The chain of parents of an account ends in at most one place. *)
Lemma ancestor_top_unique (h : Heap) (r : nat) (acc : nat) (d1 d2 : nat) :
  Account_parent (heap_accounts h !!! r) = None →
  ancestor h d1 acc = Some r → ancestor h d2 acc = Some r → d1 = d2.
Proof.
  intros Hr.
  assert (∀ d k, ancestor h d acc = Some r → ancestor h (d + S k) acc = None) as Hbeyond.
  { intros d k Hd. rewrite ancestor_add, Hd. simpl. by rewrite Hr. }
  intros H1 H2. destruct (Nat.lt_trichotomy d1 d2) as [Hlt|[->|Hlt]]; [|done|].
  - replace d2 with (d1 + S (d2 - d1 - 1))%nat in H2 by lia. by rewrite Hbeyond in H2.
  - replace d1 with (d2 + S (d1 - d2 - 1))%nat in H1 by lia. by rewrite Hbeyond in H1.
Qed.

Lemma ancestor_lt (h : Heap) (k acc z : nat) :
  parents_linked h → ancestor h k acc = Some z →
  (acc < length (heap_accounts h))%nat → (z < length (heap_accounts h))%nat.
Proof.
  intros Hpl. revert acc. induction k as [|k IH]; intros acc Hk Hacc; simpl in Hk.
  { by injection Hk as <-. }
  destruct (lookup_lt_is_Some_2 _ _ Hacc) as [a Ha].
  rewrite (list_lookup_total_correct _ _ _ Ha) in Hk.
  destruct (Account_parent a) as [p|] eqn:Hp; [|done]. simpl in Hk.
  destruct (Hpl _ _ _ Ha Hp) as (pa & Hpa & _).
  apply (IH p Hk). by eapply lookup_lt_Some.
Qed.

Lemma NoDup_bounded_length (l : list nat) (n : nat) :
  NoDup l → (∀ x, x ∈ l → (x < n)%nat) → (length l ≤ n)%nat.
Proof.
  intros Hnd Hlt. trans (length (seq 0 n)); [|by rewrite length_seq].
  apply submseteq_length, NoDup_submseteq; [done|].
  intros x Hx. apply elem_of_seq. specialize (Hlt x Hx). lia.
Qed.

(** An account whose parents lead to a parentless account is fewer links
    away from it than the store has accounts. *)
Lemma ancestor_depth_lt (h : Heap) (r acc d : nat) :
  parents_linked h → Account_parent (heap_accounts h !!! r) = None →
  (acc < length (heap_accounts h))%nat → ancestor h d acc = Some r →
  (d < length (heap_accounts h))%nat.
Proof.
  intros Hpl Hr Hacc Hd.
  assert (∀ i, (i ≤ d)%nat →
            ∃ z, ancestor h i acc = Some z ∧ ancestor h (d - i) z = Some r) as Hchain.
  { intros i Hi. replace d with (i + (d - i))%nat in Hd by lia. rewrite ancestor_add in Hd.
    destruct (ancestor h i acc) as [z|]; [|done]. by exists z. }
  assert (length ((fun i => default 0%nat (ancestor h i acc)) <$> seq 0 (S d))
          ≤ length (heap_accounts h))%nat as Hlen.
  { apply NoDup_bounded_length.
    - apply NoDup_fmap_2_strong; [|apply NoDup_seq].
      intros i j Hi%elem_of_seq Hj%elem_of_seq Heq.
      destruct (Hchain i) as (zi & Hzi & Hri); [lia|].
      destruct (Hchain j) as (zj & Hzj & Hrj); [lia|].
      rewrite Hzi, Hzj in Heq. simpl in Heq. subst zj.
      pose proof (ancestor_top_unique h r zi _ _ Hr Hri Hrj). lia.
    - intros x (i & -> & Hi%elem_of_seq)%list_elem_of_fmap.
      destruct (Hchain i) as (z & Hz & _); [lia|]. rewrite Hz. simpl.
      by eapply ancestor_lt. }
  rewrite length_fmap, length_seq in Hlen. lia.
Qed.

Lemma forest_represented_Forall (h : Heap) (q : list AccountTree) :
  forest_represented h q ↔ Forall (represents h) q.
Proof.
  induction q as [|t q IH]; simpl.
  - split; [constructor|done].
  - rewrite Forall_cons. by rewrite <- IH.
Qed.

Lemma elem_of_forest_accounts (y : nat) (q : list AccountTree) :
  y ∈ forest_accounts q ↔ ∃ t, t ∈ q ∧ y ∈ tree_accounts t.
Proof.
  induction q as [|t q IH]; simpl.
  - split; [by intros ?%elem_of_nil | by intros (t & ?%elem_of_nil & _)].
  - rewrite elem_of_app, IH. split.
    + intros [Hy|(t' & Ht' & Hy)]; [exists t; split; [left|done] | exists t'; split; [by right|done]].
    + intros (t' & [->|Ht']%elem_of_cons & Hy); [by left | right; by exists t'].
Qed.

Lemma tree_root_subtree (h : Heap) (f x : nat) : tree_root (subtree h f x) = x.
Proof. by destruct f. Qed.

Lemma subtree_accounts (h : Heap) (f x : nat) :
  tree_accounts (subtree h (S f) x)
  = x :: forest_accounts (subtree h f <$> Account_children (heap_accounts h !!! x)).
Proof. done. Qed.

Lemma subtree_size (h : Heap) (f x : nat) :
  tree_size (subtree h f x) = length (tree_accounts (subtree h f x)).
Proof.
  revert x. induction f as [|f IH]; intros x; [done|].
  rewrite subtree_accounts. cbn [subtree tree_size length]. f_equal.
  induction (Account_children (heap_accounts h !!! x)) as [|c cs IHcs]; [done|].
  rewrite fmap_cons. cbn [foldr forest_accounts]. rewrite length_app, <- IH. f_equal. apply IHcs.
Qed.

(** The children lists below an account whose parents lead to a parentless
    account hold a finite tree. *)
Lemma subtree_represents (h : Heap) (r : nat) :
  parents_linked h → children_linked h →
  Account_parent (heap_accounts h !!! r) = None →
  ∀ f x d, (x < length (heap_accounts h))%nat → ancestor h d x = Some r →
           (length (heap_accounts h) ≤ d + f)%nat → represents h (subtree h f x).
Proof.
  intros Hpl Hcl Hr. induction f as [|f IH]; intros x d Hx Hd Hn.
  { pose proof (ancestor_depth_lt h r x d Hpl Hr Hx Hd). lia. }
  cbn [subtree represents]. split.
  - rewrite <- list_fmap_compose. symmetry. etrans; [|apply list_fmap_id].
    apply list_fmap_ext. intros i c _. simpl. apply tree_root_subtree.
  - apply forest_represented_Forall, Forall_fmap, Forall_forall. intros c Hc.
    destruct (lookup_lt_is_Some_2 _ _ Hx) as [a Ha].
    rewrite (list_lookup_total_correct _ _ _ Ha) in Hc.
    destruct (Hcl x a Ha) as [_ Hch]. destruct (Hch c Hc) as (ca & Hca & Hpar).
    apply (IH c (S d)); [by eapply lookup_lt_Some| |lia].
    simpl. by rewrite (list_lookup_total_correct _ _ _ Hca), Hpar.
Qed.

Lemma subtree_accounts_ancestor (h : Heap) :
  children_linked h →
  ∀ f x y, (x < length (heap_accounts h))%nat → y ∈ tree_accounts (subtree h f x) →
           ∃ k, (k ≤ f)%nat ∧ ancestor h k y = Some x ∧ (y < length (heap_accounts h))%nat.
Proof.
  intros Hcl. induction f as [|f IH]; intros x y Hx Hy.
  { apply list_elem_of_singleton in Hy as ->. by exists 0%nat. }
  rewrite subtree_accounts in Hy. apply elem_of_cons in Hy as [->|Hy].
  { exists 0%nat. split_and!; [lia|done|done]. }
  apply elem_of_forest_accounts in Hy as (t & Ht & Hy).
  apply list_elem_of_fmap in Ht as (c & -> & Hc).
  destruct (lookup_lt_is_Some_2 _ _ Hx) as [a Ha].
  rewrite (list_lookup_total_correct _ _ _ Ha) in Hc.
  destruct (Hcl x a Ha) as [_ Hch]. destruct (Hch c Hc) as (ca & Hca & Hpar).
  destruct (IH c y) as (k & Hk & Hanc & Hlt); [by eapply lookup_lt_Some|done|].
  exists (k + 1)%nat. split_and!; [lia| |done].
  rewrite ancestor_add, Hanc. simpl. by rewrite (list_lookup_total_correct _ _ _ Hca), Hpar.
Qed.

Lemma ancestor_subtree_accounts (h : Heap) (y : nat) :
  parents_linked h → (y < length (heap_accounts h))%nat →
  ∀ k f x, ancestor h k y = Some x → (k ≤ f)%nat → y ∈ tree_accounts (subtree h f x).
Proof.
  intros Hpl Hy. induction k as [|k IH]; intros f x Hk Hf.
  { injection Hk as <-. destruct f; left. }
  destruct f as [|f]; [lia|].
  replace (S k) with (k + 1)%nat in Hk by lia. rewrite ancestor_add in Hk.
  destruct (ancestor h k y) as [c|] eqn:Hc; [|done]. simpl in Hk.
  pose proof (ancestor_lt h k y c Hpl Hc Hy) as Hclt.
  destruct (lookup_lt_is_Some_2 _ _ Hclt) as [ca Hca].
  rewrite (list_lookup_total_correct _ _ _ Hca) in Hk.
  destruct (Account_parent ca) as [p|] eqn:Hp; [|done]. simpl in Hk. injection Hk as ->.
  destruct (Hpl _ _ _ Hca Hp) as (pa & Hpa & Hin).
  rewrite subtree_accounts. right. apply elem_of_forest_accounts.
  exists (subtree h f c). split; [|apply IH; [done|lia]].
  apply list_elem_of_fmap. exists c. split; [done|].
  by rewrite (list_lookup_total_correct _ _ _ Hpa).
Qed.

Lemma forest_accounts_NoDup (T : nat → AccountTree) (cs : list nat) :
  NoDup cs → (∀ c, c ∈ cs → NoDup (tree_accounts (T c))) →
  (∀ c1 c2 y, c1 ∈ cs → c2 ∈ cs → y ∈ tree_accounts (T c1) → y ∈ tree_accounts (T c2) →
              c1 = c2) →
  NoDup (forest_accounts (T <$> cs)).
Proof.
  induction cs as [|c cs IH]; intros Hnd Heach Hapart; [constructor|].
  apply NoDup_cons in Hnd as [Hc Hnd]. rewrite fmap_cons. cbn [forest_accounts foldr].
  apply NoDup_app. split_and!.
  - apply Heach. left.
  - intros y Hy (t & (c' & -> & Hc')%list_elem_of_fmap & Hy')%elem_of_forest_accounts.
    assert (c = c') as <-; [|done].
    apply (Hapart c c' y); [left|by right|done|done].
  - apply IH; [done| |].
    + intros c' Hc'. apply Heach. by right.
    + intros c1 c2 y H1 H2. apply Hapart; by right.
Qed.

Lemma subtree_NoDup (h : Heap) (r : nat) :
  children_linked h → Account_parent (heap_accounts h !!! r) = None →
  ∀ f x d, (x < length (heap_accounts h))%nat → ancestor h d x = Some r →
           NoDup (tree_accounts (subtree h f x)).
Proof.
  intros Hcl Hr. induction f as [|f IH]; intros x d Hx Hd.
  { apply NoDup_singleton. }
  rewrite subtree_accounts.
  destruct (lookup_lt_is_Some_2 _ _ Hx) as [a Ha].
  rewrite (list_lookup_total_correct _ _ _ Ha).
  destruct (Hcl x a Ha) as [Hnd Hch].
  assert (∀ c, c ∈ Account_children a →
            (c < length (heap_accounts h))%nat ∧ ancestor h (S d) c = Some r
            ∧ ancestor h 1 c = Some x) as Hchild.
  { intros c Hc. destruct (Hch c Hc) as (ca & Hca & Hpar).
    split_and!; [by eapply lookup_lt_Some|..]; simpl;
      by rewrite (list_lookup_total_correct _ _ _ Hca), Hpar. }
  apply NoDup_cons. split.
  - intros (t & (c & -> & Hc)%list_elem_of_fmap & Hy)%elem_of_forest_accounts.
    destruct (Hchild c Hc) as (Hclt & _ & Hone).
    destruct (subtree_accounts_ancestor h Hcl f c x Hclt Hy) as (k & _ & Hk & _).
    assert (ancestor h (k + 1 + d) x = Some r) as Hloop.
    { rewrite !ancestor_add, Hk. change (Some c ≫= ancestor h 1) with (ancestor h 1 c).
      rewrite Hone. exact Hd. }
    pose proof (ancestor_top_unique h r x _ _ Hr Hd Hloop). lia.
  - apply forest_accounts_NoDup; [done| |].
    + intros c Hc. destruct (Hchild c Hc) as (Hclt & Hroot & _). by apply (IH c (S d)).
    + intros c1 c2 y Hc1 Hc2 Hy1 Hy2.
      destruct (Hchild c1 Hc1) as (Hlt1 & Hroot1 & _).
      destruct (Hchild c2 Hc2) as (Hlt2 & Hroot2 & _).
      destruct (subtree_accounts_ancestor h Hcl f c1 y Hlt1 Hy1) as (k1 & _ & Hk1 & _).
      destruct (subtree_accounts_ancestor h Hcl f c2 y Hlt2 Hy2) as (k2 & _ & Hk2 & _).
      assert (ancestor h (k1 + S d) y = Some r) as Hr1 by (by rewrite ancestor_add, Hk1).
      assert (ancestor h (k2 + S d) y = Some r) as Hr2 by (by rewrite ancestor_add, Hk2).
      pose proof (ancestor_top_unique h r y _ _ Hr Hr1 Hr2).
      assert (k1 = k2) as -> by lia. congruence.
Qed.

Lemma pass2_children (ad : AccountDict) (pd : ParentDict) (h3 : Heap) (accounts : list nat)
    (h4 : Heap) :
  (∀ v, v ∈ dict_values ad → (v < length (heap_accounts h3))%nat) →
  (∀ i a, heap_accounts h3 !! i = Some a → Account_parent a = None ∧ Account_children a = []) →
  foldM (link_step ad pd) [] (dict_values ad) h3 = Ok (accounts, h4) →
  children_linked h4.
Proof.
  intros Hvalid Hnone H.
  apply (foldM_invariant (fun done accounts h =>
           pass2_invariant ad pd h3 done accounts h ∧ children_linked h)) in H.
  - by destruct H.
  - split.
    + unfold pass2_invariant. split_and!; try done.
      * apply Forall2_same_length_lookup_2; [done|]. intros i a a' Ha Ha'. by simplify_eq.
      * intros acc a p Ha Hp. destruct (Hnone _ _ Ha) as [Hn _]. by rewrite Hn in Hp.
      * intros acc a Hin. by apply elem_of_nil in Hin.
      * intros acc Hin. by apply elem_of_nil in Hin.
    + intros p pa Hpa. destruct (Hnone _ _ Hpa) as [_ ->]. split; [constructor|].
      intros c Hc. by apply elem_of_nil in Hc.
  - intros done acc accounts1 h1 accounts2 h2 [Hinv Hcl] Hprefix Hstep.
    assert (acc ∈ dict_values ad) as Hacc.
    { destruct Hprefix as [rest ->]. apply elem_of_app. left. apply elem_of_app. right. left. }
    split; [by eapply pass2_step|].
    pose proof Hinv as (_ & _ & _ & Hstatic & _).
    destruct (lookup_lt_is_Some_2 (heap_accounts h1) acc) as [a Ha].
    { rewrite <- (Forall2_length _ _ _ Hstatic). by apply Hvalid. }
    destruct (link_step_Ok _ _ _ _ _ _ _ a Hstep Ha)
      as [(Hp & _ & pg & p & _ & _ & -> & ->)|(_ & -> & ->)]; [|done].
    intros i ia Hi. cbn [heap_accounts with_accounts] in Hi |- *.
    rewrite lookup_relink in Hi.
    destruct (heap_accounts h1 !! i) as [a0|] eqn:H0; [|done]. injection Hi as <-.
    destruct (Hcl i a0 H0) as [Hnd Hch].
    assert (acc ∉ Account_children a0) as Hfresh.
    { intros Hin. destruct (Hch _ Hin) as (a' & Ha' & Hpar). congruence. }
    rewrite relink_children. split.
    + destruct (decide (i = p)); [|done].
      apply NoDup_app. split_and!; [done| |apply NoDup_singleton].
      intros x Hx Hx'. apply list_elem_of_singleton in Hx'. by subst x.
    + intros c Hc. rewrite lookup_relink.
      destruct (decide (c = acc)) as [->|Hne].
      * rewrite Ha. eexists. split; [done|]. rewrite relink_parent, decide_True by done.
        destruct (decide (i = p)) as [->|Hip]; [done|]. by destruct Hfresh.
      * assert (c ∈ Account_children a0) as Hc0.
        { destruct (decide (i = p)); [|done].
          apply elem_of_app in Hc as [Hc|Hc]; [done|].
          apply list_elem_of_singleton in Hc. done. }
        destruct (Hch c Hc0) as (a' & Ha' & Hpar). rewrite Ha'.
        eexists. split; [done|]. by rewrite relink_parent, decide_False.
Qed.

Lemma children_linked_frame (h h' : Heap) :
  Forall2 (fun a a' => account_static a = account_static a'
                       ∧ account_links a = account_links a')
    (heap_accounts h) (heap_accounts h') →
  children_linked h → children_linked h'.
Proof.
  intros HF Hcl p pa' Hpa'.
  destruct (Forall2_lookup_r _ _ _ _ _ HF Hpa') as (pa & Hpa & _ & Hlk).
  unfold account_links in Hlk. injection Hlk as _ Hch. rewrite <- Hch.
  destruct (Hcl p pa Hpa) as [Hnd Hc]. split; [done|].
  intros c Hin. destruct (Hc c Hin) as (a & Ha & Hpar).
  destruct (Forall2_lookup_l _ _ _ _ _ HF Ha) as (a' & Ha' & _ & Hlk').
  unfold account_links in Hlk'. injection Hlk' as Hp' _.
  exists a'. split; [done|congruence].
Qed.

Lemma loaded_children (tree : Element) (book : Book) (h : Heap) :
  _book_from_tree (Some tree) empty_heap = Ok (book, h) → children_linked h.
Proof.
  intros Hload. apply _book_from_tree_phases in Hload as []. subst book.
  apply commodities_spec in ph_commodities as (Hf1 & _ & _).
  apply load_prices_spec in ph_prices as (_ & Hf2 & _ & _).
  pose proof (commodity_frame_trans _ _ _ Hf1 Hf2) as (Hacc2 & _). simpl in Hacc2.
  apply pass1_spec in ph_pass1 as (rs & Hbuilt & -> & Had & Hpd).
  rewrite Hacc2 in Had. simpl in Had.
  apply transactions_spec in ph_transactions as ((_ & Hst5 & _) & _).
  eapply children_linked_frame; [exact Hst5|].
  eapply pass2_children; [| |exact ph_pass2].
  - intros v Hv. simpl. rewrite Hacc2. simpl. rewrite length_fmap.
    subst accountdict. by apply dict_values_imap_valid.
  - intros i a Ha. simpl in Ha. rewrite Hacc2 in Ha. simpl in Ha.
    rewrite list_lookup_fmap in Ha. destruct (rs !! i) as [r|] eqn:Hr; [|done].
    injection Ha as <-. destruct (Forall2_lookup_r _ _ _ _ _ Hbuilt Hr) as (child & _ & Hb).
    by destruct Hb as (_ & _ & _ & ? & ? & _).
Qed.

Lemma loaded_parents (tree : Element) (book : Book) (h : Heap) :
  Loaded tree book h → parents_linked h.
Proof.
  intros [] acc a p Ha Hp. by destruct (ld_linked acc a p Ha Hp) as (_ & _ & ? & _).
Qed.

(** The root account of a loaded book has no parent. *)
Lemma loaded_root (tree : Element) (book : Book) (h : Heap) (r : nat) :
  _book_from_tree (Some tree) empty_heap = Ok (book, h) →
  Book_root_account book = Some r →
  (r < length (heap_accounts h))%nat ∧ Account_parent (heap_accounts h !!! r) = None.
Proof.
  intros Hload Hroot.
  destruct (loaded_account_lists _ _ _ Hload) as [_ Hlast].
  rewrite Hroot in Hlast. destruct Hlast as (child & Hchild & Htype & _).
  apply _book_from_tree_loaded in Hload as [].
  destruct (Forall2_lookup_l _ _ _ _ _ ld_built Hchild) as ([pg ar] & Hr & Hb).
  destruct (Forall2_lookup_l _ _ _ _ _ ld_static Hr) as (ra & Hra & Hst).
  simpl in Hb, Hst. unfold account_static in Hst. injection Hst as _ _ Hty _.
  destruct Hb as (_ & _ & Hty' & _).
  split; [by eapply lookup_lt_Some|].
  rewrite (list_lookup_total_correct _ _ _ Hra).
  destruct (Account_parent ra) as [p|] eqn:Hp; [|done].
  destruct (ld_linked r ra p Hra Hp) as (Hnonroot & _). congruence.
Qed.

Lemma ancestor_Some_lt (h : Heap) (k acc r : nat) :
  ancestor h k acc = Some r → (r < length (heap_accounts h))%nat →
  (acc < length (heap_accounts h))%nat.
Proof.
  intros Hk Hr. destruct k as [|k]; simpl in Hk; [by injection Hk as ->|].
  destruct (decide (acc < length (heap_accounts h))%nat) as [|Hge]; [done|].
  rewrite list_lookup_total_alt, lookup_ge_None_2 in Hk by lia. done.
Qed.

(** The accounts whose parents lead to the root account of a loaded book
    form a finite tree, which the children lists hold. *)
Lemma loaded_account_tree (tree : Element) (book : Book) (h : Heap) (r : nat) :
  _book_from_tree (Some tree) empty_heap = Ok (book, h) →
  Book_root_account book = Some r →
  ∃ t, tree_root t = r ∧ represents h t ∧ NoDup (tree_accounts t)
       ∧ (tree_size t ≤ length (heap_accounts h))%nat
       ∧ ∀ acc, acc ∈ tree_accounts t ↔ ∃ k, ancestor h k acc = Some r.
Proof.
  intros Hload Hroot.
  destruct (loaded_root _ _ _ _ Hload Hroot) as [Hr Hnone].
  pose proof (loaded_children _ _ _ Hload) as Hcl.
  pose proof (loaded_parents _ _ _ (_book_from_tree_loaded _ _ _ Hload)) as Hpl.
  set (n := length (heap_accounts h)) in *. exists (subtree h n r).
  split_and!.
  - apply tree_root_subtree.
  - apply (subtree_represents h r Hpl Hcl Hnone n r 0%nat); [done|done|lia].
  - by apply (subtree_NoDup h r Hcl Hnone n r 0%nat).
  - rewrite subtree_size. apply NoDup_bounded_length.
    + by apply (subtree_NoDup h r Hcl Hnone n r 0%nat).
    + intros acc Hin.
      by destruct (subtree_accounts_ancestor h Hcl n r acc Hr Hin) as (_ & _ & _ & ?).
  - intros acc. split.
    + intros Hin. destruct (subtree_accounts_ancestor h Hcl n r acc Hr Hin) as (k & _ & Hk & _).
      by exists k.
    + intros [k Hk]. pose proof (ancestor_Some_lt h k acc r Hk Hr) as Hacc.
      pose proof (ancestor_depth_lt h r acc k Hpl Hnone Hacc Hk).
      apply (ancestor_subtree_accounts h acc Hpl Hacc k); [done|unfold n; lia].
Qed.

(** What [walk] yields from the root of a finite tree. *)
Lemma walk_of_tree (h : Heap) (t : AccountTree) :
  represents h t →
  walk_loop h (tree_size t) [tree_root t] = Some (yielded h <$> level_order (tree_size t) [t])
  ∧ level_order (tree_size t) [t] ≡ₚ tree_accounts t.
Proof.
  intros Hrep.
  assert (forest_represented h [t]) as Hq by (by split).
  assert (forest_size [t] = tree_size t) as Hfs by (simpl; lia).
  pose proof (walk_loop_level_order h (tree_size t) [t] Hq ltac:(lia)) as Hwalk.
  rewrite Hfs in Hwalk. split; [exact Hwalk|].
  rewrite level_order_accounts by lia. simpl. by rewrite app_nil_r.
Qed.

(** On a loaded book with a root account [Book.walk] stops, within as many
    turns as the store has accounts, whatever parents the records declare.
    It yields no account twice, and yields exactly the accounts whose chain
    of parents leads to the root account: the root account itself and
    accounts of the flat list. *)
Theorem walk_of_loaded_book (tree : Element) (book : Book) (h : Heap) (r : nat) :
  _book_from_tree (Some tree) empty_heap = Ok (book, h) →
  Book_root_account book = Some r →
  ∃ out,
    (∀ fuel, (length (heap_accounts h) ≤ fuel)%nat → Book_walk h fuel book = Ok (Some out))
    ∧ NoDup (out.*1.*1)
    ∧ (∀ acc, acc ∈ out.*1.*1 ↔ ∃ k, ancestor h k acc = Some r)
    ∧ (∀ acc, acc ∈ out.*1.*1 → acc = r ∨ acc ∈ Book_accounts book).
Proof.
  intros Hload Hroot.
  destruct (loaded_account_tree _ _ _ _ Hload Hroot) as (t & Ht & Hrep & Hnd & Hsize & Hmem).
  destruct (walk_of_tree h t Hrep) as [Hwalk Hperm]. rewrite Ht in Hwalk.
  exists (yielded h <$> level_order (tree_size t) [t]).
  rewrite yielded_accounts. split_and!.
  - intros fuel Hfuel. unfold Book_walk, Account_walk. rewrite Hroot. f_equal.
    eapply walk_loop_more_fuel; [exact Hwalk|lia].
  - by rewrite Hperm.
  - intros acc. by rewrite Hperm.
  - intros acc Hin. rewrite Hperm in Hin. apply Hmem in Hin as [k Hk].
    destruct k as [|k]; simpl in Hk; [left; by injection Hk|right].
    destruct (loaded_root _ _ _ _ Hload Hroot) as [Hr _].
    pose proof (ancestor_Some_lt h (S k) acc r) as Hacc. simpl in Hacc.
    specialize (Hacc Hk Hr).
    destruct (lookup_lt_is_Some_2 _ _ Hacc) as [a Ha].
    rewrite (list_lookup_total_correct _ _ _ Ha) in Hk.
    destruct (Account_parent a) as [p|] eqn:Hp; [|done].
    destruct (_book_from_tree_loaded _ _ _ Hload).
    by destruct (ld_linked acc a p Ha Hp) as (_ & _ & _ & ?).
Qed.


(** ** Full names along the chain of parents *)

Lemma string_app_assoc (a b c : string) : (a +:+ b) +:+ c = a +:+ (b +:+ c).
Proof.
  induction a as [|x a IH]; [done|].
  change (String x ((a +:+ b) +:+ c) = String x (a +:+ (b +:+ c))). by rewrite IH.
Qed.

Lemma concat_snoc (sep : string) (l : list string) (x : string) :
  l ≠ [] → String.concat sep (l ++ [x]) = String.concat sep l +:+ sep +:+ x.
Proof.
  induction l as [|a l IH]; [done|]. intros _.
  destruct l as [|b l]; [done|].
  change (String.concat sep ((a :: b :: l) ++ [x]))
    with (a +:+ sep +:+ String.concat sep ((b :: l) ++ [x])).
  rewrite IH by done.
  change (String.concat sep (a :: b :: l)) with (a +:+ sep +:+ String.concat sep (b :: l)).
  by rewrite !string_app_assoc.
Qed.

Lemma concat_nonempty (sep : string) (l : list string) :
  l ≠ [] → Forall (fun s => String.eqb s "" = false) l →
  String.eqb (String.concat sep l) "" = false.
Proof.
  destruct l as [|a [|b l]]; [done| |]; intros _ [Ha _]%Forall_cons; [done|].
  cbn [String.concat]. by destruct a.
Qed.

Lemma lineage_cons (h : Heap) (k acc p : nat) :
  Account_parent (heap_accounts h !!! acc) = Some p →
  lineage h (S k) acc = acc :: lineage h k p.
Proof. intros Hp. simpl. by rewrite Hp. Qed.

(** The full name of an account whose parents lead to a parentless account,
    when the accounts below that one all have a non-empty name: the names
    from the top down to the account, joined with colons. The parentless
    account itself has the empty full name. *)
Theorem fullname_joins_names (h : Heap) (k limit A r : nat) :
  ancestor h k A = Some r → Account_parent (heap_accounts h !!! r) = None →
  Forall (fun acc => truthy (Account_name (heap_accounts h !!! acc)) = true) (lineage h k A) →
  (k < limit)%nat →
  Account_fullname h limit A = Ok (Some (joined_names h (rev (lineage h k A)))).
Proof.
  intros Hanc Hr. revert A limit Hanc.
  induction k as [|k IH]; intros A limit Hanc Hnames Hlimit;
    (destruct limit as [|limit]; [lia|]); simpl in Hanc.
  { injection Hanc as ->. simpl. by rewrite Hr. }
  destruct (Account_parent (heap_accounts h !!! A)) as [p|] eqn:Hp; [|done]. simpl in Hanc.
  rewrite (lineage_cons h k A p Hp) in Hnames |- *.
  apply Forall_cons in Hnames as [HA Hnames].
  cbn [Account_fullname]. rewrite Hp, (IH p limit Hanc Hnames) by lia. simpl.
  destruct (Account_name (heap_accounts h !!! A)) as [name|] eqn:Hname; [|done].
  simpl in HA. unfold joined_names. rewrite fmap_app. simpl. rewrite Hname. simpl.
  destruct k as [|k]; [done|].
  simpl in Hanc. destruct (Account_parent (heap_accounts h !!! p)) as [pp|] eqn:Hpp; [|done].
  rewrite (lineage_cons h k p pp Hpp) in Hnames |- *.
  assert ((fun acc => py_format (Account_name (heap_accounts h !!! acc)))
            <$> rev (p :: lineage h k pp) ≠ []) as Hne.
  { simpl. rewrite fmap_app. by destruct (_ <$> rev _). }
  rewrite concat_snoc by done.
  rewrite concat_nonempty; [done|done|].
  apply Forall_fmap, Forall_rev. eapply Forall_impl; [exact Hnames|].
  intros acc Hacc. simpl in Hacc |- *.
  destruct (Account_name (heap_accounts h !!! acc)); [|done].
  simpl in Hacc |- *. by apply negb_true_iff.
Qed.

Lemma ancestor_prefix (h : Heap) (k1 k2 acc : nat) :
  is_Some (ancestor h (k1 + k2) acc) → is_Some (ancestor h k1 acc).
Proof. rewrite ancestor_add. destruct (ancestor h k1 acc); [by eexists|by intros [? ?]]. Qed.

Lemma ancestor_cycle (h : Heap) (j c : nat) :
  ancestor h (S j) c = Some c → ∀ k, is_Some (ancestor h k c).
Proof.
  intros Hcycle k. induction (lt_wf k) as [k _ IH].
  destruct (decide (k ≤ S j)%nat) as [Hle|Hgt].
  - apply (ancestor_prefix h k (S j - k)). replace (k + (S j - k))%nat with (S j) by lia.
    by rewrite Hcycle.
  - replace k with (S j + (k - S j))%nat by lia. rewrite ancestor_add, Hcycle. simpl.
    apply IH. lia.
Qed.

Lemma fullname_endless (h : Heap) (limit A : nat) :
  (∀ k, is_Some (ancestor h k A)) → Account_fullname h limit A = Raise RecursionError.
Proof.
  revert A. induction limit as [|limit IH]; intros A Hall; [done|].
  simpl. destruct (Hall 1%nat) as [p Hp]. simpl in Hp.
  destruct (Account_parent (heap_accounts h !!! A)) as [p'|] eqn:Hp'; [|done].
  rewrite IH; [done|]. intros k. specialize (Hall (S k)). simpl in Hall.
  by rewrite Hp' in Hall.
Qed.

(** An account on a cycle of parents, or whose parents lead to one, has no
    full name: [fullname] recurses until the interpreter raises
    [RecursionError], whatever the recursion limit. *)
Theorem fullname_on_parent_cycle (h : Heap) (A c i j : nat) :
  ancestor h i A = Some c → ancestor h (S j) c = Some c →
  ∀ limit, Account_fullname h limit A = Raise RecursionError.
Proof.
  intros HA Hcycle limit. apply fullname_endless. intros k.
  apply (ancestor_prefix h k i). replace (k + i)%nat with (i + k)%nat by lia.
  rewrite ancestor_add, HA. simpl. by apply (ancestor_cycle h j).
Qed.

(** ** The commodities the registry holds *)

Lemma _commodity_find_keys (space name : option string) (cd : CommodityDict) (h : Heap)
    (c : nat) (cd' : CommodityDict) (h' : Heap) :
  _commodity_find space name cd h = Ok ((c, cd'), h') →
  ∀ k, is_Some (dict_get k cd') → k = (space, name) ∨ is_Some (dict_get k cd).
Proof.
  intros H k Hk. unfold _commodity_find in H.
  apply bindS_Ok in H as (c0 & h1 & Hnew & H). unfold new_Commodity in Hnew.
  injection Hnew as <- <-. apply retS_Ok in H as [Hsd ->].
  unfold dict_setdefault in Hsd.
  destruct (dict_get (space, name) cd) as [c1|] eqn:Hget; injection Hsd as -> ->.
  - by right.
  - destruct (decide (k = (space, name))) as [->|Hne]; [by left|right].
    by rewrite dict_get_set_ne in Hk.
Qed.

Lemma commodity_step_keys commodities (cd : CommodityDict) (child : Element) (h : Heap)
    commodities' (cd' : CommodityDict) (h' : Heap) :
  commodity_step (commodities, cd) child h = Ok ((commodities', cd'), h') →
  ∀ k, is_Some (dict_get k cd') → commodity_key [] child = Some k ∨ is_Some (dict_get k cd).
Proof.
  intros H k Hk. unfold commodity_step in H.
  apply bindS_Ok in H as (comm & ? & Hcomm & H). apply lift_Ok in Hcomm as [Hcomm ->].
  apply bindS_Ok in H as ([c cd1] & h1 & Hfind & H). apply retS_Ok in H as [[= -> ->] ->].
  destruct (_commodity_find_keys _ _ _ _ _ _ _ Hfind k Hk) as [->|Hold]; [left|by right].
  unfold _commodity_from_tree in Hcomm.
  apply bind_Ok in Hcomm as (name & Hname & Hcomm).
  apply bind_Ok in Hcomm as (space & Hspace & [= <-]). simpl.
  apply text_find_Ok in Hname as (xn & Hxn & <-).
  apply text_find_Ok in Hspace as (xs & Hxs & <-).
  unfold commodity_key. simpl app. rewrite Hxs. simpl. by rewrite Hxn.
Qed.

Lemma price_step_keys prices (cd : CommodityDict) (child : Element) (h : Heap)
    prices' (cd' : CommodityDict) (h' : Heap) :
  price_step (prices, cd) child h = Ok ((prices', cd'), h') →
  ∀ k, is_Some (dict_get k cd') →
       commodity_key [price_ns +:+ "currency"] child = Some k
       ∨ commodity_key [price_ns +:+ "commodity"] child = Some k
       ∨ is_Some (dict_get k cd).
Proof.
  intros H k Hk. unfold price_step in H.
  apply bindS_Ok in H as ([p cd2] & h2 & Hp & H). apply retS_Ok in H as [[= -> ->] ->].
  unfold _price_from_tree in Hp.
  apply bindS_Ok in Hp as (guid & ? & H1 & Hp). apply lift_Ok in H1 as [_ ->].
  apply bindS_Ok in Hp as (value & ? & H1 & Hp). apply lift_Ok in H1 as [_ ->].
  apply bindS_Ok in Hp as (date & ? & H1 & Hp). apply lift_Ok in H1 as [_ ->].
  apply bindS_Ok in Hp as (cur_space & ? & Hcs & Hp). apply lift_Ok in Hcs as [Hcs ->].
  apply bindS_Ok in Hp as (cur_name & ? & Hcn & Hp). apply lift_Ok in Hcn as [Hcn ->].
  apply bindS_Ok in Hp as ([currency cd1] & h1 & Hf1 & Hp).
  apply bindS_Ok in Hp as (com_space & ? & Hms & Hp). apply lift_Ok in Hms as [Hms ->].
  apply bindS_Ok in Hp as (com_name & ? & Hmn & Hp). apply lift_Ok in Hmn as [Hmn ->].
  apply bindS_Ok in Hp as ([commodity cd2'] & h2' & Hf2 & Hp).
  apply retS_Ok in Hp as [[= -> ->] ->].
  apply text_find_Ok in Hcs as (xcs & Hxcs & <-). apply text_find_Ok in Hcn as (xcn & Hxcn & <-).
  apply text_find_Ok in Hms as (xms & Hxms & <-). apply text_find_Ok in Hmn as (xmn & Hxmn & <-).
  destruct (_commodity_find_keys _ _ _ _ _ _ _ Hf2 k Hk) as [->|Hk1].
  { right. left. unfold commodity_key. simpl app. rewrite Hxms. simpl. by rewrite Hxmn. }
  destruct (_commodity_find_keys _ _ _ _ _ _ _ Hf1 k Hk1) as [->|Hk0]; [|by right; right].
  left. unfold commodity_key. simpl app. rewrite Hxcs. simpl. by rewrite Hxcn.
Qed.

Lemma commodities_declared (tree : Element) (h : Heap) commodities (cd : CommodityDict)
    (h' : Heap) :
  foldM commodity_step ([], []) (findall [gnc +:+ "commodity"] tree) h
  = Ok ((commodities, cd), h') →
  registry_declared tree cd.
Proof.
  intros H.
  apply (foldM_invariant (fun done st h1 => registry_declared tree st.2)) in H; [done| |].
  - by intros k [? ?].
  - intros done child [cs1 cd1] h1 [cs2 cd2] h2 Hinv Hprefix Hstep k Hk.
    assert (findall [gnc +:+ "commodity"] tree !! length done = Some child) as Hchild.
    { destruct Hprefix as [rest Heq]. rewrite Heq, <- app_assoc. by apply list_lookup_middle. }
    destruct (commodity_step_keys _ _ _ _ _ _ _ Hstep k Hk) as [Hkey|Hold]; [|by apply Hinv].
    exists (TopLevelCommodity (length done)). split; [done|]. simpl. by rewrite Hchild.
Qed.

Lemma prices_declared (tree : Element) (cd1 : CommodityDict) (h : Heap) prices
    (cd : CommodityDict) (h' : Heap) :
  load_prices tree cd1 h = Ok ((prices, cd), h') →
  registry_declared tree cd1 → registry_declared tree cd.
Proof.
  unfold load_prices. intros H Hcd1.
  destruct (find [gnc +:+ "pricedb"] tree) as [t|] eqn:Hdb.
  - apply (foldM_invariant (fun done st h1 => registry_declared tree st.2)) in H; [done|done|].
    intros done child [ps1 cda] h1 [ps2 cdb] h2 Hinv Hprefix Hstep k Hk.
    assert (price_elements tree !! length done = Some child) as Hchild.
    { unfold price_elements. rewrite Hdb. destruct Hprefix as [rest Heq].
      rewrite Heq, <- app_assoc. by apply list_lookup_middle. }
    destruct (price_step_keys _ _ _ _ _ _ _ Hstep k Hk) as [Hkey|[Hkey|Hold]]; [| |by apply Hinv].
    + exists (PriceCurrency (length done)). split; [done|]. simpl. by rewrite Hchild.
    + exists (PriceCommodity (length done)). split; [done|]. simpl. by rewrite Hchild.
  - apply retS_Ok in H as [[= _ <-] _]. done.
Qed.

(** The loader resolves the commodity of an account and the currency of a
    transaction in the registry without adding to it: in a loaded book the
    (space, id) pair of every non-root account record and of every
    transaction record is written in a commodity record or in a price of
    the document. *)
Theorem commodity_references_declared (tree : Element) (h0 : Heap) (book : Book)
    (h : Heap) :
  _book_from_tree (Some tree) h0 = Ok (book, h) →
  (∀ child, child ∈ findall [gnc +:+ "account"] tree →
     is_ROOT (account_type_of child) = false →
     ∃ key loc, commodity_key [act +:+ "commodity"] child = Some key
                ∧ declares loc = true ∧ location_key tree loc = Some key)
  ∧ (∀ child, child ∈ findall [gnc +:+ "transaction"] tree →
     ∃ key loc, commodity_key [trn +:+ "currency"] child = Some key
                ∧ declares loc = true ∧ location_key tree loc = Some key).
Proof.
  intros Hload. apply _book_from_tree_phases in Hload as [].
  pose proof (prices_declared _ _ _ _ _ _ ph_prices
                (commodities_declared _ _ _ _ _ ph_commodities)) as Hdecl.
  apply pass1_spec in ph_pass1 as (rs & Hbuilt & _).
  apply transactions_spec in ph_transactions as (_ & Hts).
  split.
  - intros child [i Hi]%list_elem_of_lookup Hnonroot.
    destruct (Forall2_lookup_l _ _ _ _ _ Hbuilt Hi) as (r & _ & Hb).
    destruct Hb as (_ & _ & _ & _ & _ & _ & Hb). rewrite Hnonroot in Hb.
    destruct Hb as (_ & key & c & Hkey & Hget & _).
    destruct (Hdecl key) as (loc & Hloc & Hk); [by eexists|]. by exists key, loc.
  - intros child [i Hi]%list_elem_of_lookup.
    destruct (Forall2_lookup_l _ _ _ _ _ Hts Hi) as (t & _ & tr & key & _ & Hkey & Hget).
    destruct (Hdecl key) as (loc & Hloc & Hk); [by eexists|]. by exists key, loc.
Qed.

(** ** Transactions by guid *)

Lemma guid_frame_refl (h : Heap) : guid_frame h h.
Proof. intros t tr Htr. by exists tr. Qed.

Lemma guid_frame_trans (h1 h2 h3 : Heap) :
  guid_frame h1 h2 → guid_frame h2 h3 → guid_frame h1 h3.
Proof.
  intros H12 H23 t tr Htr. destruct (H12 _ _ Htr) as (tr1 & Htr1 & <-).
  destruct (H23 _ _ Htr1) as (tr2 & Htr2 & <-). by exists tr2.
Qed.

Lemma split_step_guid (ad : AccountDict) (t : nat) (u : unit) (subtree : Element)
    (h : Heap) (u' : unit) (h' : Heap) :
  split_step ad t u subtree h = Ok (u', h') → guid_frame h h'.
Proof.
  intros H. unfold split_step in H.
  apply bindS_Ok in H as (s & h1 & Hs & H).
  assert (heap_transactions h1 = heap_transactions h) as Hsame.
  { unfold _split_from_tree in Hs.
    apply bindS_Ok in Hs as (guid & ? & H1 & Hs). apply lift_Ok in H1 as [_ ->].
    apply bindS_Ok in Hs as (rs & ? & H1 & Hs). apply lift_Ok in H1 as [_ ->].
    apply bindS_Ok in Hs as (rd & ? & H1 & Hs). apply lift_Ok in H1 as [_ ->].
    apply bindS_Ok in Hs as (value & ? & H1 & Hs). apply lift_Ok in H1 as [_ ->].
    apply bindS_Ok in Hs as (quantity & ? & H1 & Hs). apply lift_Ok in H1 as [_ ->].
    apply bindS_Ok in Hs as (ag & ? & H1 & Hs). apply lift_Ok in H1 as [_ ->].
    apply bindS_Ok in Hs as (account & ? & H1 & Hs). apply lift_Ok in H1 as [_ ->].
    apply bindS_Ok in Hs as (slots & ? & H1 & Hs). apply lift_Ok in H1 as [_ ->].
    apply bindS_Ok in Hs as (split & h0 & Hnew & Hs). unfold new_Split in Hnew.
    injection Hnew as <- <-.
    apply bindS_Ok in Hs as ([] & h2 & Hupd & Hs). unfold update_account in Hupd.
    injection Hupd as <-. by apply retS_Ok in Hs as [-> ->]. }
  unfold update_transaction in H. injection H as _ <-.
  intros t1 tr Htr. simpl. rewrite Hsame. destruct (decide (t1 = t)) as [->|Hne].
  - rewrite list_lookup_alter_eq, Htr. by eexists.
  - rewrite list_lookup_alter_ne by done. by exists tr.
Qed.

Lemma _transaction_from_tree_guid (tree : Element) (ad : AccountDict) (cd : CommodityDict)
    (h : Heap) (t : nat) (h' : Heap) :
  _transaction_from_tree tree ad cd h = Ok (t, h') →
  guid_frame h h' ∧ transaction_guid_kept h' tree t.
Proof.
  intros H. unfold _transaction_from_tree in H.
  apply bindS_Ok in H as (guid & ? & Hguid & H). apply lift_Ok in Hguid as [Hguid ->].
  apply bindS_Ok in H as (space & ? & H1 & H). apply lift_Ok in H1 as [_ ->].
  apply bindS_Ok in H as (cname & ? & H1 & H). apply lift_Ok in H1 as [_ ->].
  apply bindS_Ok in H as (currency & ? & H1 & H). apply lift_Ok in H1 as [_ ->].
  apply bindS_Ok in H as (date & ? & H1 & H). apply lift_Ok in H1 as [_ ->].
  apply bindS_Ok in H as (date_entered & ? & H1 & H). apply lift_Ok in H1 as [_ ->].
  apply bindS_Ok in H as (description & ? & H1 & H). apply lift_Ok in H1 as [_ ->].
  apply bindS_Ok in H as (slots & ? & H1 & H). apply lift_Ok in H1 as [_ ->].
  apply bindS_Ok in H as (t' & h1 & Hnew & H). unfold new_Transaction in Hnew.
  injection Hnew as <- <-.
  apply bindS_Ok in H as ([] & h2 & Hsplits & H). apply retS_Ok in H as [-> ->].
  apply (foldM_frame guid_frame) in Hsplits;
    [| apply guid_frame_refl | apply guid_frame_trans | apply split_step_guid].
  split.
  - eapply guid_frame_trans; [|exact Hsplits].
    intros t1 tr Htr. exists tr. split; [by apply lookup_app_l_Some | done].
  - destruct (Hsplits (length (heap_transactions h))
                (mkTransaction guid currency date date_entered description
                   (or_None (text_or_None (find [trn +:+ "num"] tree))) [] slots))
      as (tr & Htr & Hg).
    { simpl. by rewrite list_lookup_middle. }
    exists tr. split; [done|]. rewrite Hg. simpl. unfold transaction_guid_of.
    by rewrite (text_Ok_or_None _ _ Hguid).
Qed.

Lemma transactions_guids (ad : AccountDict) (cd : CommodityDict) (es : list Element)
    (h : Heap) (ts : list nat) (h' : Heap) :
  foldM (transaction_step ad cd) [] es h = Ok (ts, h') →
  Forall2 (transaction_guid_kept h') es ts.
Proof.
  intros H.
  apply (foldM_invariant (fun done ts h1 => Forall2 (transaction_guid_kept h1) done ts)) in H;
    [done | constructor |].
  intros done child ts1 h1 ts2 h2 HF _ Hstep. unfold transaction_step in Hstep.
  apply bindS_Ok in Hstep as (t & h1' & Ht & Hstep). apply retS_Ok in Hstep as [-> ->].
  apply _transaction_from_tree_guid in Ht as [Hframe Hkept].
  apply Forall2_app; [|by constructor].
  eapply Forall2_impl; [exact HF|]. intros child1 t1 (tr & Htr & Hg).
  destruct (Hframe _ _ Htr) as (tr' & Htr' & Hg'). exists tr'. split; [done|congruence].
Qed.

Lemma find_item_None (h : Heap) (guid : option string) (l : list Item) :
  find_item h guid l = None → ∀ x, x ∈ l → Item_guid h x ≠ guid.
Proof.
  induction l as [|y l IH]; simpl; [by intros _ x ?%elem_of_nil|].
  destruct (decide (Item_guid h y = guid)) as [|Hne]; [done|].
  intros Hl x [->|Hx]%elem_of_cons; [done | by apply IH].
Qed.

(** [find_guid] on the guid of a transaction record. The accounts of the
    flat list are searched first: when one of them has the guid, an account
    is returned; otherwise the transaction of the first record with that
    guid is. *)
Theorem find_guid_of_transaction (tree : Element) (h0 : Heap) (book : Book) (h : Heap)
    (i : nat) (child : Element) :
  _book_from_tree (Some tree) h0 = Ok (book, h) →
  findall [gnc +:+ "transaction"] tree !! i = Some child →
  (∀ j child', (j < i)%nat → findall [gnc +:+ "transaction"] tree !! j = Some child' →
               transaction_guid_of child' ≠ transaction_guid_of child) →
  ∃ t, Book_transactions book !! i = Some t
       ∧ (Forall (fun acc => Account_guid (heap_accounts h !!! acc) ≠ transaction_guid_of child)
            (Book_accounts book) →
          Book_find_guid h book (transaction_guid_of child) = Some (ItemTransaction t))
       ∧ (∀ acc, acc ∈ Book_accounts book →
            Account_guid (heap_accounts h !!! acc) = transaction_guid_of child →
            ∃ acc', acc' ∈ Book_accounts book
                    ∧ Book_find_guid h book (transaction_guid_of child)
                      = Some (ItemAccount acc')).
Proof.
  intros Hload Hi Hfirst. apply _book_from_tree_phases in Hload as [].
  apply transactions_guids in ph_transactions as Hguids. subst book. simpl.
  destruct (Forall2_lookup_l _ _ _ _ _ Hguids Hi) as (t & Ht & tr & Htr & Hg).
  exists t. split; [done|]. unfold Book_find_guid. simpl. rewrite find_item_app. split.
  - intros Hnone.
    assert (find_item h (transaction_guid_of child) (ItemAccount <$> accounts) = None) as ->.
    { destruct (find_item h _ (ItemAccount <$> accounts)) as [x|] eqn:Hx; [|done].
      apply find_item_Some in Hx as [[acc [-> Hacc]]%list_elem_of_fmap Hgx].
      rewrite Forall_forall in Hnone. by destruct (Hnone acc Hacc). }
    apply list_elem_of_split_length in Ht as (ts1 & ts2 & -> & Hlen).
    rewrite fmap_app, find_item_app.
    assert (find_item h (transaction_guid_of child) (ItemTransaction <$> ts1) = None) as ->.
    { destruct (find_item h _ (ItemTransaction <$> ts1)) as [x|] eqn:Hx; [|done].
      apply find_item_Some in Hx as [[t' [-> [j Hj]%list_elem_of_lookup]]%list_elem_of_fmap Hgx].
      assert (j < i)%nat as Hlt by (apply lookup_lt_Some in Hj; lia).
      assert ((ts1 ++ t :: ts2) !! j = Some t') as Hj' by (by apply lookup_app_l_Some).
      destruct (Forall2_lookup_r _ _ _ _ _ Hguids Hj') as (child' & Hchild' & tr' & Htr' & Hg').
      simpl in Hgx. rewrite Htr' in Hgx. simpl in Hgx.
      destruct (Hfirst j child' Hlt Hchild'). congruence. }
    simpl. rewrite Htr. simpl. by rewrite decide_True.
  - intros acc Hacc Hgacc.
    destruct (find_item h (transaction_guid_of child) (ItemAccount <$> accounts))
      as [x|] eqn:Hx.
    + apply find_item_Some in Hx as [[acc' [-> Hacc']]%list_elem_of_fmap _]. by exists acc'.
    + destruct (find_item_None h _ _ Hx (ItemAccount acc)); [|done].
      apply list_elem_of_fmap. by exists acc.
Qed.

(** ** Slots of type integer and double *)

Lemma elem_of_rev_list {A} (l : list A) (x : A) : x ∈ rev l ↔ x ∈ l.
Proof. rewrite !list_elem_of_In. symmetry. apply in_rev. Qed.

Lemma is_c_space_is_space (c : ascii) : is_space c = false → is_c_space c = false.
Proof. unfold is_space, is_c_space. intros H. apply orb_false_iff in H as [H1 H2]. lia. Qed.

Lemma elem_of_lstrip_c (c : ascii) (l : list ascii) :
  c ∈ l → is_c_space c = false → c ∈ lstrip_c l.
Proof.
  induction l as [|d l IH]; [done|]. intros [->|Hin]%elem_of_cons Hc; simpl.
  - rewrite Hc. left.
  - destruct (is_c_space d); [by apply IH | by right].
Qed.

Lemma elem_of_strip_c (c : ascii) (l : list ascii) :
  c ∈ l → is_c_space c = false → c ∈ strip_c l.
Proof.
  intros Hin Hc. unfold strip_c.
  apply elem_of_rev_list, elem_of_lstrip_c; [|done].
  by apply elem_of_rev_list, elem_of_lstrip_c.
Qed.

Lemma int_body_stray (c : ascii) (l : list ascii) (b : bool) (acc : Z) :
  c ∈ l → is_digit c = false → c ≠ "_"%char → int_body l b acc = None.
Proof.
  revert b acc. induction l as [|d l IH]; intros b acc Hin Hd Hu;
    [by apply elem_of_nil in Hin|].
  simpl. apply elem_of_cons in Hin as [<-|Hin].
  - rewrite Hd. destruct (Ascii.eqb c "_") eqn:He; [by apply Ascii.eqb_eq in He|done].
  - destruct (is_digit d); [by apply IH|].
    destruct (Ascii.eqb d "_" && b); [by apply IH|done].
Qed.

(** [int] refuses a text with a character that is no digit, underscore,
    sign or white space. *)
Lemma py_int_stray (s : string) (c : ascii) :
  c ∈ list_ascii_of_string s → is_digit c = false → is_space c = false →
  c ∉ ["_"; "+"; "-"]%char → py_int (Some s) = Raise ValueError.
Proof.
  intros Hin Hd Hs Hc. unfold py_int.
  pose proof (elem_of_strip_c c _ Hin (is_c_space_is_space c Hs)) as Hl.
  destruct (strip_c (list_ascii_of_string s)) as [|d r]; [by apply elem_of_nil in Hl|].
  assert (c ≠ "_"%char ∧ c ≠ "+"%char ∧ c ≠ "-"%char) as (H1 & H2 & H3).
  { split_and!; intros ->; apply Hc; repeat first [by left|right]. }
  assert (∀ l (neg : bool), c ∈ l →
            match int_body l false 0 with
            | Some z => Ok (if neg then (- z)%Z else z)
            | None => Raise ValueError
            end = Raise ValueError) as Hbad.
  { intros l neg Hl'. by rewrite (int_body_stray c l false 0 Hl' Hd H1). }
  destruct d as [[] [] [] [] [] [] [] []]; cbv beta iota zeta;
    first [apply (Hbad _ false) | apply (Hbad _ true)];
    first [exact Hl | apply elem_of_cons in Hl as [Heq|Hl]; [congruence|exact Hl]].
Qed.

(** Slots of type [integer] and [double] are read with [int]: a value
    without text raises [TypeError], an ASCII text with a character that is
    no digit, sign, underscore or white space (the decimal point of a
    double, say) raises [ValueError], and a slots element with a slot whose
    ASCII text [int] refuses does not parse. *)
Theorem double_slot_needs_integer_text (tree elt value : Element) :
  elt ∈ findall ["slot"%string] tree →
  find [slot +:+ "value"] elt = Some value →
  Element_get "type" "string" value = "integer"%string
  ∨ Element_get "type" "string" value = "double"%string →
  (Element_text value = None → slot_value _slots_from_tree value = Raise TypeError)
  ∧ (∀ s c, Element_text value = Some s → is_ascii s = true →
            c ∈ list_ascii_of_string s →
            is_digit c = false → is_space c = false → c ∉ ["_"; "+"; "-"]%char →
            slot_value _slots_from_tree value = Raise ValueError)
  ∧ (ascii_text (Element_text value) = true →
     is_Ok (py_int (Element_text value)) = false →
     is_Ok (_slots_from_tree (Some tree)) = false).
Proof.
  intros Hin Hvalue Htype.
  assert (∀ rec, slot_value rec value = SlotInt <$> py_int (Element_text value)) as Hsv.
  { intros rec. unfold slot_value. by destruct Htype as [-> | ->]. }
  split_and!.
  - intros Hnone. by rewrite Hsv, Hnone.
  - intros s c Hs _ Hc Hd Hsp Hsign. by rewrite Hsv, Hs, (py_int_stray s c).
  - intros _ Hfail.
    destruct (_slots_from_tree (Some tree)) as [m|e] eqn:Hm; [exfalso|done].
    rewrite _slots_from_tree_unfold in Hm.
    apply slots_fold_well_formed in Hm as [_ Hall].
    destruct (Hall elt Hin) as (k & value' & v & _ & Hvalue' & Hv & _).
    rewrite Hvalue in Hvalue'. injection Hvalue' as <-.
    rewrite Hsv in Hv. by destruct (py_int (Element_text value)).
Qed.

(** ** References between records *)

Lemma foldM_Ok_each {S A B} (f : B → A → M S B) (l : list A) (b : B) (h : S)
    (b' : B) (h' : S) :
  foldM f b l h = Ok (b', h') →
  ∀ x, x ∈ l → ∃ b1 h1 b2 h2, f b1 x h1 = Ok (b2, h2).
Proof.
  revert b h. induction l as [|y l IH]; intros b h H x Hx; [by apply elem_of_nil in Hx|].
  simpl in H. apply bindS_Ok in H as (b1 & h1 & Hy & H).
  apply elem_of_cons in Hx as [->|Hx]; [by eauto 6 | by eapply IH].
Qed.

Lemma _split_from_tree_account (tree : Element) (ad : AccountDict) (t : nat) (h : Heap)
    (s : nat) (h' : Heap) :
  _split_from_tree tree ad t h = Ok (s, h') →
  is_Some (dict_get (text_or_None (find [split_ns +:+ "account"] tree)) ad).
Proof.
  intros H. unfold _split_from_tree in H.
  apply bindS_Ok in H as (guid & ? & H1 & H). apply lift_Ok in H1 as [_ ->].
  apply bindS_Ok in H as (rs & ? & H1 & H). apply lift_Ok in H1 as [_ ->].
  apply bindS_Ok in H as (rd & ? & H1 & H). apply lift_Ok in H1 as [_ ->].
  apply bindS_Ok in H as (value & ? & H1 & H). apply lift_Ok in H1 as [_ ->].
  apply bindS_Ok in H as (quantity & ? & H1 & H). apply lift_Ok in H1 as [_ ->].
  apply bindS_Ok in H as (ag & ? & Hag & H). apply lift_Ok in Hag as [Hag ->].
  apply bindS_Ok in H as (account & ? & Hacc & H). apply lift_Ok in Hacc as [Hacc ->].
  rewrite (text_Ok_or_None _ _ Hag). unfold dict_item in Hacc.
  destruct (dict_get ag ad); [by eexists|done].
Qed.

Lemma _transaction_from_tree_splits (tree : Element) (ad : AccountDict) (cd : CommodityDict)
    (h : Heap) (t : nat) (h' : Heap) :
  _transaction_from_tree tree ad cd h = Ok (t, h') →
  ∀ s, s ∈ findall [trn +:+ "splits"; trn +:+ "split"] tree →
       is_Some (dict_get (text_or_None (find [split_ns +:+ "account"] s)) ad).
Proof.
  intros H s Hs. unfold _transaction_from_tree in H.
  apply bindS_Ok in H as (guid & ? & H1 & H). apply lift_Ok in H1 as [_ ->].
  apply bindS_Ok in H as (space & ? & H1 & H). apply lift_Ok in H1 as [_ ->].
  apply bindS_Ok in H as (cname & ? & H1 & H). apply lift_Ok in H1 as [_ ->].
  apply bindS_Ok in H as (currency & ? & H1 & H). apply lift_Ok in H1 as [_ ->].
  apply bindS_Ok in H as (date & ? & H1 & H). apply lift_Ok in H1 as [_ ->].
  apply bindS_Ok in H as (date_entered & ? & H1 & H). apply lift_Ok in H1 as [_ ->].
  apply bindS_Ok in H as (description & ? & H1 & H). apply lift_Ok in H1 as [_ ->].
  apply bindS_Ok in H as (slots & ? & H1 & H). apply lift_Ok in H1 as [_ ->].
  apply bindS_Ok in H as (t' & h1 & Hnew & H).
  apply bindS_Ok in H as ([] & h2 & Hsplits & H).
  destruct (foldM_Ok_each _ _ _ _ _ _ Hsplits s Hs) as (u1 & hx & u2 & hy & Hstep).
  unfold split_step in Hstep. apply bindS_Ok in Hstep as (sp & hz & Hsp & _).
  by eapply _split_from_tree_account.
Qed.

Lemma account_dict_keys (cd : CommodityDict) (es : list Element)
    (rs : list (option string * Account)) (F : nat → nat) (k : option string) :
  Forall2 (fun child r => account_built cd child r.1 r.2) es rs →
  is_Some (dict_get k (dict_of_pairs (imap (fun i r => (Account_guid r.2, F i)) rs))) →
  k ∈ account_guid_of <$> es.
Proof.
  intros HF [v Hget]. apply dict_of_pairs_spec in Hget as (i & Hi & _).
  rewrite list_lookup_imap in Hi. destruct (rs !! i) as [r|] eqn:Hr; [|done].
  injection Hi as <- _.
  destruct (Forall2_lookup_r _ _ _ _ _ HF Hr) as (child & Hchild & Hb).
  apply list_elem_of_fmap. exists child.
  split; [by destruct Hb as (_ & -> & _) | by eapply list_elem_of_lookup_2].
Qed.

(** References between records resolve, or the load fails: in a loaded book
    the account guid of every split record is the guid of an account
    record, and, when the account records have pairwise distinct guids, so
    is the parent guid of every non-root account record. *)
Theorem references_resolve (tree : Element) (book : Book) (h : Heap) :
  _book_from_tree (Some tree) empty_heap = Ok (book, h) →
  (∀ child s, child ∈ findall [gnc +:+ "transaction"] tree →
     s ∈ findall [trn +:+ "splits"; trn +:+ "split"] child →
     text_or_None (find [split_ns +:+ "account"] s)
     ∈ account_guid_of <$> findall [gnc +:+ "account"] tree)
  ∧ (NoDup (account_guid_of <$> findall [gnc +:+ "account"] tree) →
     ∀ child, child ∈ findall [gnc +:+ "account"] tree →
              is_ROOT (account_type_of child) = false →
              declared_parent child ∈ account_guid_of <$> findall [gnc +:+ "account"] tree).
Proof.
  intros Hload. split.
  - intros child s Hchild Hs. apply _book_from_tree_phases in Hload as [].
    apply pass1_spec in ph_pass1 as (rs & Hbuilt & _ & Had & _).
    destruct (foldM_Ok_each _ _ _ _ _ _ ph_transactions child Hchild)
      as (ts1 & h1' & ts2 & h2' & Hstep).
    unfold transaction_step in Hstep. apply bindS_Ok in Hstep as (t & hx & Ht & _).
    pose proof (_transaction_from_tree_splits _ _ _ _ _ _ Ht s Hs) as Hsome.
    rewrite Had in Hsome. by eapply account_dict_keys.
  - intros Hnd child [i Hi]%list_elem_of_lookup Hnonroot.
    apply _book_from_tree_loaded in Hload as [].
    destruct (built_guids _ _ _ ld_built) as [Hk1 Hk2].
    destruct (Forall2_lookup_l _ _ _ _ _ ld_built Hi) as ([pgi ai] & Hri & Hbi).
    destruct (Forall2_lookup_l _ _ _ _ _ ld_static Hri) as (a & Ha & Hsta).
    simpl in Hbi, Hsta. unfold account_static in Hsta. injection Hsta as _ Hguid Htype _.
    destruct Hbi as (_ & Hgi & Hti & _ & _ & _ & Hpi).
    rewrite Hnonroot in Hpi. destruct Hpi as [Hpgi _].
    assert (dict_get (Account_guid ai) ad = Some i) as Hadi.
    { subst ad. eapply (dict_of_pairs_NoDup_lookup _ i); [by rewrite Hk1|].
      rewrite list_lookup_imap, Hri. done. }
    assert (dict_get (Account_guid ai) pd = Some pgi) as Hpdi.
    { subst pd. eapply (dict_of_pairs_NoDup_lookup _ i); [by rewrite Hk2|].
      rewrite list_lookup_fmap, Hri. done. }
    destruct (ld_processed i a) as [p Hp].
    { by eapply dict_get_values. }
    { done. }
    { by rewrite <- Htype, Hti. }
    destruct (ld_linked i a p Ha Hp) as (_ & (pg & Hpg & Hres) & _).
    rewrite <- Hguid, Hpdi in Hpg. injection Hpg as <-.
    rewrite <- Hpgi. subst ad. eapply (account_dict_keys _ _ _ id); [exact ld_built|].
    by eexists.
Qed.

End Loader.

(** * The statements at sample documents *)

(** Loads the sample document of the goal and names the book and the store
    it gives. *)
Ltac load_sample :=
  lazymatch goal with
  | |- ∃ book h, _book_from_tree ?D ?P ?t ?h0 = Ok (book, h) ∧ _ =>
      let v := eval vm_compute in (_book_from_tree D P t h0) in
      lazymatch v with
      | Ok (?b, ?h) =>
          assert (_book_from_tree D P t h0 = Ok (b, h)) as Hload by (vm_compute; reflexivity);
          exists b, h; split; [exact Hload|]
      end
  end.

Ltac by_computation :=
  lazymatch goal with |- ?P => apply (bool_decide_unpack P) end; vm_compute; exact I.

Lemma parse_number_two_places_up_witness :
  _parse_number (Some "100/100"%string) = Ok (Finite false 100 (-2))
  ∧ _parse_number (Some "333/1000"%string) = Ok (Finite false 34 (-2))
  ∧ _parse_number (Some "0/100000"%string) = Ok (Finite false 0 (-2))
  ∧ _parse_number (Some "-7/3"%string) = Ok (Finite true 234 (-2)).
Proof.
  split_and!.
  - apply (parse_number_two_places_up "100" "100"); by vm_compute.
  - apply (parse_number_two_places_up "333" "1000"); by vm_compute.
  - apply (parse_number_two_places_up "0" "100000"); by vm_compute.
  - apply (parse_number_two_places_up "-7" "3"); by vm_compute.
Defined.

(** On a numerator of 29 digits the quotient is rounded to 28 significant
    digits before it is quantized, and a zero denominator raises. *)
Lemma parse_number_rounds_the_quotient :
  is_int_literal "10000000000000000000000000001" = true
  ∧ is_int_literal "10000000000000000000000000000" = true
  ∧ _parse_number (Some "10000000000000000000000000001/10000000000000000000000000000"%string)
    = Ok (Finite false 100 (-2))
  ∧ exact_two_places_up false 10000000000000000000000000001 10000000000000000000000000000
    = Finite false 101 (-2)
  ∧ _parse_number (Some "1/0"%string) = Raise DivisionByZero.
Proof. by vm_compute. Qed.

Lemma commodities_shared_witness :
  ∃ book h,
    _book_from_tree string verbatim_date (Some sample_book) (empty_heap string) = Ok (book, h)
    ∧ ∃ r, location_ref string book h (AccountCommodity 0) = Some r
           ∧ location_ref string book h (PriceCurrency 0) = Some r
           ∧ heap_commodities string h !! r = Some (mkCommodity (Some "EUR") (Some "ISO4217"))%string.
Proof.
  load_sample. exists 0%nat.
  destruct (commodities_shared string verbatim_date sample_book _ _
              (AccountCommodity 0) (PriceCurrency 0) (Some "ISO4217", Some "EUR")%string
              0%nat 0%nat Hload eq_refl eq_refl eq_refl eq_refl)
    as [_ Hc].
  split_and!; [reflexivity..|exact Hc].
Defined.

Lemma account_tree_two_pass_witness :
  ∃ book h,
    _book_from_tree string verbatim_date (Some sample_book) (empty_heap string) = Ok (book, h)
    ∧ ∃ a pa, heap_accounts string h !! 0%nat = Some a
              ∧ heap_accounts string h !! 1%nat = Some pa
              ∧ Account_guid string a = account_guid_of cash_elt
              ∧ Account_name string a = account_name_of cash_elt
              ∧ Account_guid string pa = account_guid_of assets_elt
              ∧ Account_name string pa = account_name_of assets_elt
              ∧ Account_parent string a = Some 1%nat
              ∧ 0%nat ∈ Account_children string pa
              ∧ 0%nat ∈ Book_accounts string book.
Proof.
  load_sample.
  apply (account_tree_two_pass string verbatim_date sample_book _ _ _ _ _ _ Hload);
    [by_computation|reflexivity..].
Defined.

(** Two account records with one guid: the guid map keeps the second, and
    the account of the first is never linked. It has no parent and is in no
    list, although the parent it declares is the guid of the root record. *)
Lemma account_record_shadowed_by_guid :
  ∃ book h,
    _book_from_tree string verbatim_date (Some duplicate_guid_book) (empty_heap string)
    = Ok (book, h)
    ∧ ∃ child a root,
        findall [gnc +:+ "account"] duplicate_guid_book !! 1%nat = Some child
        ∧ is_ROOT (account_type_of child) = false
        ∧ findall [gnc +:+ "account"] duplicate_guid_book !! 0%nat
          = Some (root_account_elt "r")
        ∧ declared_parent child = account_guid_of (root_account_elt "r")
        ∧ heap_accounts string h !! 1%nat = Some a
        ∧ heap_accounts string h !! 0%nat = Some root
        ∧ Account_name string a = account_name_of child
        ∧ Account_parent string a = None
        ∧ Account_children string root = [2%nat]
        ∧ Book_accounts string book = [2%nat].
Proof. load_sample. do 3 eexists. split_and!; reflexivity. Qed.

Lemma invoice_entries_by_guid_witness :
  ∃ book h,
    _book_from_tree string verbatim_date (Some sample_book) (empty_heap string) = Ok (book, h)
    ∧ ∃ taxtablesdict (E : list Entry),
        Forall2 (fun child e => _entry_from_tree child taxtablesdict = Ok e)
          (findall [gnc +:+ "GncEntry"] sample_book) E
        ∧ Forall2 (fun child inv =>
                     text (find [invoice_ns +:+ "guid"] child) = Ok (Invoice_guid string inv))
            (findall [gnc +:+ "GncInvoice"] sample_book) (Book_invoices string book)
        ∧ ∀ inv, inv ∈ Book_invoices string book →
            Invoice_entries string inv
            ≡ₚ filter (fun e => Entry_invoice_guid e = Invoice_guid string inv) E.
Proof.
  load_sample.
  apply (invoice_entries_by_guid string verbatim_date sample_book _ _ _ Hload).
  by_computation.
Defined.

Lemma invoice_owner_at_most_one_witness :
  ∃ book h,
    _book_from_tree string verbatim_date (Some sample_book) (empty_heap string) = Ok (book, h)
    ∧ ∃ customersdict vendorsdict,
        Forall2 (fun child inv => owner_resolved string child customersdict vendorsdict inv)
          (findall [gnc +:+ "GncInvoice"] sample_book) (Book_invoices string book)
        ∧ ∀ inv, inv ∈ Book_invoices string book →
            Invoice_customer string inv = None ∨ Invoice_vendor string inv = None.
Proof.
  load_sample.
  apply (invoice_owner_at_most_one string verbatim_date sample_book _ _ _ Hload).
Defined.

(** An entry record given twice, the second time for another invoice: the
    entries map keeps the second record, and the first invoice misses the
    entry although the first record names it. Two of the parsed entry
    records name the invoice [i1]; its entry list holds one. *)
Lemma invoice_misses_reissued_entry :
  ∃ book h,
    _book_from_tree string verbatim_date (Some reissued_entry_book) (empty_heap string)
    = Ok (book, h)
    ∧ ∃ taxtablesdict (E : list Entry) inv,
        Forall2 (fun child e => _entry_from_tree child taxtablesdict = Ok e)
          (findall [gnc +:+ "GncEntry"] reissued_entry_book) E
        ∧ Book_invoices string book !! 0%nat = Some inv
        ∧ Invoice_guid string inv = Some "i1"%string
        ∧ Entry_guid <$> filter (fun e => Entry_invoice_guid e = Invoice_guid string inv) E
          = [Some "e1"; Some "e2"]%string
        ∧ Entry_guid <$> Invoice_entries string inv = [Some "e2"%string].
Proof.
  load_sample. exists [].
  let E := eval vm_compute in
    (omap (fun child => match _entry_from_tree child [] with Ok e => Some e | Raise _ => None end)
       (findall [gnc +:+ "GncEntry"] reissued_entry_book)) in
  exists E.
  match goal with |- context [Book_invoices string ?b] =>
    let v := eval vm_compute in (Book_invoices string b !! 0%nat) in
    lazymatch v with Some ?i => exists i end
  end.
  split.
  - assert (findall [gnc +:+ "GncEntry"] reissued_entry_book
            = [entry_elt "e1" "i1"; entry_elt "e2" "i1"; entry_elt "e1" "i2"]) as ->
      by (vm_compute; reflexivity).
    repeat (constructor; [vm_compute; reflexivity|]). constructor.
  - split_and!; vm_compute; reflexivity.
Qed.

(** The owner of the third invoice of the sample book is a job: the invoice
    has neither a customer nor a vendor. *)
Lemma invoice_of_a_job_has_no_owner :
  ∃ book h,
    _book_from_tree string verbatim_date (Some sample_book) (empty_heap string) = Ok (book, h)
    ∧ ∃ inv, Book_invoices string book !! 2%nat = Some inv
             ∧ Invoice_guid string inv = Some "i3"%string
             ∧ Invoice_customer string inv = None
             ∧ Invoice_vendor string inv = None.
Proof. load_sample. eexists. split_and!; reflexivity. Qed.

Lemma walk_yields_each_account_once_witness :
  ∃ book h,
    _book_from_tree string verbatim_date (Some sample_book) (empty_heap string) = Ok (book, h)
    ∧ ∃ out,
        (∀ fuel, (3 ≤ fuel)%nat → Account_walk string h fuel 2%nat = Some out)
        ∧ out.*1.*1 = [2; 1; 0]%nat
        ∧ concat (out.*2) ≡ₚ [1; 0]%nat.
Proof.
  load_sample.
  match goal with |- context [Account_walk string ?h _ _] =>
    destruct (walk_yields_each_account_once string h (ATree 2 [ATree 1 [ATree 0 []]]))
      as (out & Hwalk & Hout & _ & _ & Hsplits & _)
  end.
  - vm_compute. by repeat split.
  - by_computation.
  - exists out. split; [exact Hwalk|]. split; [by rewrite Hout|].
    rewrite Hsplits. vm_compute. reflexivity.
Defined.



Lemma parse_number_failures_witness :
  _parse_number (Some "100"%string) = Raise ValueError
  ∧ _parse_number (Some "1/2/3"%string) = Raise ValueError
  ∧ _parse_number (Some "abc/100"%string) = Raise InvalidOperation.
Proof.
  split_and!.
  - by apply (parse_number_failures "100").
  - by apply (parse_number_failures "1/2/3").
  - apply (parse_number_failures "abc/100" ) with (num := "abc"%string) (denum := "100"%string);
      [reflexivity|reflexivity|by left].
Defined.

(** A side that is not an integer is accepted when it is a numeral of
    [Decimal]. *)
Lemma parse_number_accepts_decimal_sides :
  is_int_literal "1.5" = false
  ∧ slash_count "1.5/2" = 1%nat
  ∧ _parse_number (Some "1.5/2"%string) = Ok (Finite false 75 (-2))
  ∧ _parse_number (Some "1e2/3"%string) = Ok (Finite false 3334 (-2)).
Proof. by vm_compute. Qed.



Lemma invoice_entries_in_document_order_witness :
  ∃ book h,
    _book_from_tree string verbatim_date (Some sample_book) (empty_heap string) = Ok (book, h)
    ∧ ∃ taxtablesdict (E : list Entry),
        Forall2 (fun child e => _entry_from_tree child taxtablesdict = Ok e)
          (findall [gnc +:+ "GncEntry"] sample_book) E
        ∧ ∀ inv, inv ∈ Book_invoices string book →
            Invoice_entries string inv
            = filter (fun e => Entry_invoice_guid e = Invoice_guid string inv) E.
Proof.
  load_sample.
  apply (invoice_entries_in_document_order string verbatim_date sample_book _ _ _ Hload).
  by_computation.
Defined.

Lemma invoice_entries_last_record_wins_witness :
  ∃ book h,
    _book_from_tree string verbatim_date (Some reissued_entry_book) (empty_heap string)
    = Ok (book, h)
    ∧ (fun inv => Entry_guid <$> Invoice_entries string inv) <$> Book_invoices string book
      = [[Some "e2"]; [Some "e1"]]%string
    ∧ ∃ taxtablesdict (E : list Entry),
        Forall2 (fun child e => _entry_from_tree child taxtablesdict = Ok e)
          (findall [gnc +:+ "GncEntry"] reissued_entry_book) E
        ∧ ∀ inv, inv ∈ Book_invoices string book →
            NoDup (Entry_guid <$> Invoice_entries string inv)
            ∧ ∀ e, e ∈ Invoice_entries string inv ↔
                   Entry_invoice_guid e = Invoice_guid string inv
                   ∧ ∃ i, E !! i = Some e
                          ∧ ∀ j e', (i < j)%nat → E !! j = Some e' →
                                    Entry_guid e' ≠ Entry_guid e.
Proof.
  load_sample. split; [reflexivity|].
  apply (invoice_entries_last_record_wins string verbatim_date reissued_entry_book _ _ _ Hload).
Defined.

Lemma loaded_amounts_two_places_witness :
  ∃ book h,
    _book_from_tree string verbatim_date (Some sample_book) (empty_heap string) = Ok (book, h)
    ∧ (∀ p, p ∈ Book_prices string book → two_places_or_NaN (Price_value string p))
    ∧ ∀ inv e, inv ∈ Book_invoices string book → e ∈ Invoice_entries string inv →
        (∀ d, Entry_qty e = Some d → two_places_or_NaN d)
        ∧ (∀ d, Entry_price e = Some d → two_places_or_NaN d)
        ∧ (∀ t te, Entry_taxtable e = Some t → te ∈ Taxtable_taxtable_entries t →
             two_places_or_NaN (Taxtableentry_amount te)).
Proof.
  load_sample.
  apply (loaded_amounts_two_places string verbatim_date sample_book _ _ _ Hload).
Defined.

Lemma parse_number_zero_denominator_witness :
  _parse_number (Some "1/0"%string) = Raise DivisionByZero
  ∧ _parse_number (Some "0/0"%string) = Raise InvalidOperation.
Proof.
  split.
  - by apply (parse_number_zero_denominator "1" "0").
  - by apply (parse_number_zero_denominator "0" "0").
Defined.

Lemma find_account_first_in_level_order_witness :
  ∃ book h,
    _book_from_tree string verbatim_date (Some sample_book) (empty_heap string) = Ok (book, h)
    ∧ (∀ fuel, (3 ≤ fuel)%nat →
         Account_find_account string h fuel 2%nat (Some "Cash"%string) = Some (Some 0%nat))
    ∧ (∀ fuel, (3 ≤ fuel)%nat →
         Account_find_account string h fuel 2%nat (Some "Shares"%string) = Some None).
Proof.
  load_sample.
  match goal with |- context [Account_find_account string ?h _ _ _] =>
    destruct (find_account_first_in_level_order string h (ATree 2 [ATree 1 [ATree 0 []]])
                (Some "Cash"%string)) as (r1 & Hfind1 & -> & _);
      [vm_compute; by repeat split|];
    destruct (find_account_first_in_level_order string h (ATree 2 [ATree 1 [ATree 0 []]])
                (Some "Shares"%string)) as (r2 & Hfind2 & -> & _);
      [vm_compute; by repeat split|]
  end.
  split; [exact Hfind1|exact Hfind2].
Defined.

Lemma flat_list_of_accounts_witness :
  ∃ book h,
    _book_from_tree string verbatim_date (Some sample_book) (empty_heap string) = Ok (book, h)
    ∧ Book_accounts string book = [0; 1]%nat
    ∧ NoDup (Book_accounts string book)
    ∧ ∀ i child, findall [gnc +:+ "account"] sample_book !! i = Some child →
                 is_ROOT (account_type_of child) = false → i ∈ Book_accounts string book.
Proof.
  load_sample.
  destruct (flat_list_of_accounts string verbatim_date sample_book _ _ Hload)
    as (Hnd & _ & Hall).
  split; [reflexivity|]. split; [exact Hnd|]. apply Hall. by_computation.
Defined.

Lemma root_account_of_book_witness :
  ∃ book h,
    _book_from_tree string verbatim_date (Some sample_book) (empty_heap string) = Ok (book, h)
    ∧ Book_root_account string book = Some 2%nat
    ∧ last_root_record (findall [gnc +:+ "account"] sample_book)
        (Book_root_account string book)
    ∧ 2%nat ∉ Book_accounts string book.
Proof.
  load_sample.
  destruct (root_account_of_book string verbatim_date sample_book _ _ Hload)
    as (Hlast & Hnotin & _).
  split; [reflexivity|]. split; [exact Hlast|]. by apply Hnotin.
Defined.

Lemma find_guid_of_account_witness :
  ∃ book h,
    _book_from_tree string verbatim_date (Some sample_book) (empty_heap string) = Ok (book, h)
    ∧ Book_find_guid string h book (Some "a2"%string) = Some (ItemAccount 0)
    ∧ Book_find_guid string h book (Some "a1"%string) = Some (ItemAccount 1).
Proof.
  load_sample. split.
  - apply (find_guid_of_account string verbatim_date sample_book _ _ 0%nat cash_elt Hload);
      [by_computation|reflexivity..].
  - apply (find_guid_of_account string verbatim_date sample_book _ _ 1%nat assets_elt Hload);
      [by_computation|reflexivity..].
Defined.

Lemma find_guid_misses_root_witness :
  ∃ book h,
    _book_from_tree string verbatim_date (Some sample_book) (empty_heap string) = Ok (book, h)
    ∧ Book_root_account string book = Some 2%nat
    ∧ Book_find_guid string h book (Some "r"%string) ≠ Some (ItemAccount 2).
Proof.
  load_sample. split; [reflexivity|].
  by apply (find_guid_misses_root string verbatim_date sample_book _ _ 2%nat _ Hload).
Defined.

Lemma splits_of_loaded_book_witness :
  ∃ book h,
    _book_from_tree string verbatim_date (Some sample_book) (empty_heap string) = Ok (book, h)
    ∧ length (heap_splits string h) = 2%nat
    ∧ (∀ s sp, heap_splits string h !! s = Some sp →
         (∃ a, heap_accounts string h !! Split_account string sp = Some a
               ∧ s ∈ Account_splits string a)
         ∧ (∃ tr, heap_transactions string h !! Split_transaction string sp = Some tr
                  ∧ s ∈ Transaction_splits string tr)
         ∧ two_places_or_NaN (Split_value string sp)
         ∧ two_places_or_NaN (Split_quantity string sp)).
Proof.
  load_sample. split; [reflexivity|].
  by destruct (splits_of_loaded_book string verbatim_date sample_book _ _ Hload) as [Hsplits _].
Defined.

Lemma slots_parse_only_known_types_witness :
  slot_value string verbatim_date (_slots_from_tree string verbatim_date) unknown_type_value
  = Raise RuntimeError
  ∧ is_Ok (_slots_from_tree string verbatim_date (Some unknown_type_slots)) = false.
Proof.
  destruct (slots_parse_only_known_types string verbatim_date unknown_type_slots) as [_ Hfail].
  apply (Hfail (slot_elt "items" unknown_type_value) unknown_type_value).
  - apply (list_elem_of_lookup_2 _ 1%nat). reflexivity.
  - reflexivity.
  - by_computation.
Defined.

Lemma parse_number_str_detour_witness :
  of_string (to_str (Finite false 3333333333333333333333333333 (-28)))
  = Ok (Finite false 3333333333333333333333333333 (-28))
  ∧ _parse_number (Some "1/3"%string)
    = quantize (Finite false 3333333333333333333333333333 (-28)) cent ROUND_UP.
Proof.
  by apply (parse_number_str_detour "1/3" "1" "3" (Finite false 1 0) (Finite false 3 0)).
Defined.

Lemma parse_number_special_values_witness :
  _parse_number (Some "NaN/3"%string) = Ok (NaN false false 0)
  ∧ _parse_number (Some "Infinity/3"%string) = Raise InvalidOperation
  ∧ _parse_number (Some "3/-Infinity"%string) = Ok (Finite true 0 (-2)).
Proof.
  split_and!.
  - destruct (parse_number_special_values "NaN" "3") as (Hnan & _ & _);
      [by_computation..|].
    by apply (Hnan false 0%Z (Finite false 3 0)).
  - destruct (parse_number_special_values "Infinity" "3") as (_ & Hinf & _);
      [by_computation..|].
    by apply (Hinf false false 3%Z 0%Z).
  - destruct (parse_number_special_values "3" "-Infinity") as (_ & _ & Hzero);
      [by_computation..|].
    by apply (Hzero false 3%Z 0%Z true).
Defined.

Lemma walk_of_loaded_book_witness :
  ∃ book h,
    _book_from_tree string verbatim_date (Some cyclic_parent_book) (empty_heap string)
    = Ok (book, h)
    ∧ Book_root_account string book = Some 0%nat
    ∧ Book_accounts string book = [1; 2; 3]%nat
    ∧ ∃ out,
        (∀ fuel, (4 ≤ fuel)%nat → Book_walk string h fuel book = Ok (Some out))
        ∧ NoDup (out.*1.*1)
        ∧ (∀ acc, acc ∈ out.*1.*1 ↔ ∃ k, ancestor string h k acc = Some 0%nat).
Proof.
  load_sample.
  split; [reflexivity|]. split; [reflexivity|].
  destruct (walk_of_loaded_book string verbatim_date cyclic_parent_book _ _ 0%nat Hload)
    as (out & Hwalk & Hnd & Hmem & _); [reflexivity|].
  exists out. split_and!; [exact Hwalk|exact Hnd|exact Hmem].
Defined.

Lemma fullname_joins_names_witness :
  ∃ book h,
    _book_from_tree string verbatim_date (Some sample_book) (empty_heap string) = Ok (book, h)
    ∧ Account_fullname string h 3 0%nat = Ok (Some "Assets:Cash"%string).
Proof.
  load_sample.
  match goal with |- Account_fullname string ?h _ _ = _ =>
    apply (fullname_joins_names string h 2 3 0 2)
  end; [reflexivity|reflexivity|by_computation|lia].
Defined.

Lemma fullname_on_parent_cycle_witness :
  ∃ book h,
    _book_from_tree string verbatim_date (Some cyclic_parent_book) (empty_heap string)
    = Ok (book, h)
    ∧ (∀ limit, Account_fullname string h limit 2%nat = Raise RecursionError)
    ∧ (∀ limit, Account_fullname string h limit 3%nat = Raise RecursionError).
Proof.
  load_sample.
  match goal with |- (∀ limit, Account_fullname string ?h _ _ = _) ∧ _ =>
    split;
      [apply (fullname_on_parent_cycle string h 2 2 0 0); reflexivity
      |apply (fullname_on_parent_cycle string h 3 2 1 0); reflexivity]
  end.
Defined.


Lemma commodity_references_declared_witness :
  ∃ book h,
    _book_from_tree string verbatim_date (Some sample_book) (empty_heap string) = Ok (book, h)
    ∧ ∃ key loc, commodity_key [act +:+ "commodity"] cash_elt = Some key
                 ∧ declares loc = true ∧ location_key sample_book loc = Some key.
Proof.
  load_sample.
  destruct (commodity_references_declared string verbatim_date sample_book _ _ _ Hload)
    as [Hacc _].
  apply Hacc; [|reflexivity].
  apply (list_elem_of_lookup_2 _ 0%nat). reflexivity.
Defined.

Lemma find_guid_of_transaction_witness :
  ∃ book h,
    _book_from_tree string verbatim_date (Some sample_book) (empty_heap string) = Ok (book, h)
    ∧ Book_find_guid string h book (Some "t1"%string) = Some (ItemTransaction 0%nat).
Proof.
  load_sample.
  edestruct (find_guid_of_transaction string verbatim_date sample_book _ _ _ 0%nat
               (transaction_elt "t1"
                  [split_elt "s1" "100/100" "a2"; split_elt "s2" "-100/100" "a1"]) Hload)
    as (t & Ht & Hfind & _); [reflexivity | intros; lia |].
  vm_compute in Ht. injection Ht as <-. apply Hfind. by_computation.
Defined.

Lemma double_slot_needs_integer_text_witness :
  slot_value string verbatim_date (_slots_from_tree string verbatim_date) double_value
  = Raise ValueError
  ∧ is_Ok (_slots_from_tree string verbatim_date (Some double_slots)) = false.
Proof.
  destruct (double_slot_needs_integer_text string verbatim_date double_slots
              (slot_elt "rate" double_value) double_value) as (_ & Hpoint & Hfail).
  - apply (list_elem_of_lookup_2 _ 1%nat). reflexivity.
  - reflexivity.
  - by right.
  - split; [|by apply Hfail].
    apply (Hpoint "0.5"%string "."%char); [reflexivity|reflexivity| |reflexivity|reflexivity|].
    + apply (list_elem_of_lookup_2 _ 1%nat). reflexivity.
    + by_computation.
Defined.

Lemma references_resolve_witness :
  ∃ book h,
    _book_from_tree string verbatim_date (Some sample_book) (empty_heap string) = Ok (book, h)
    ∧ text_or_None (find [split_ns +:+ "account"] (split_elt "s1" "100/100" "a2"))
      ∈ account_guid_of <$> findall [gnc +:+ "account"] sample_book
    ∧ declared_parent cash_elt ∈ account_guid_of <$> findall [gnc +:+ "account"] sample_book.
Proof.
  load_sample.
  destruct (references_resolve string verbatim_date sample_book _ _ Hload) as [Hsplit Hparent].
  split.
  - apply (Hsplit (transaction_elt "t1"
                     [split_elt "s1" "100/100" "a2"; split_elt "s2" "-100/100" "a1"])).
    + apply (list_elem_of_lookup_2 _ 0%nat). reflexivity.
    + apply (list_elem_of_lookup_2 _ 0%nat). reflexivity.
  - apply Hparent; [by_computation| |reflexivity].
    apply (list_elem_of_lookup_2 _ 0%nat). reflexivity.
Defined.
